(** * Conjecture: the search-and-shrink engine of [conjecture/core.py]

    A shallow embedding of [TestRunner] (buffer generation, the candidate
    acceptor, the mutator and the catalogue of shrink passes) together with
    the properties the specification states about it.

    Python integers that come from [Settings] and the runner's counters are
    [Z]; byte counts, positions inside a buffer and interval end points are
    [nat]; a buffer is a [list byte].  The runner is stateful and raises
    exceptions, so its methods live in a state-and-exception monad [M]; the
    [while] loops of the source take their iteration bound from a fuel
    argument.  Randomness ([os.urandom] and the [random] module) is read off
    an arbitrary tape. *)

From Stdlib Require Import List ZArith Lia Bool Arith PeanoNat Wellfounded.
From Stdlib Require Import Strings.Byte.
From Stdlib Require Import Relations.Relation_Operators.
Import ListNotations.

Set Implicit Arguments.
Local Open Scope Z_scope.

(* ================================================================== *)
(** * Data model *)

(** Modelled from the spec: [Status] of [conjecture.testdata], which is not
    among the sources; an ordered enumeration
    [OVERRUN < INVALID < VALID < INTERESTING]. *)
Inductive Status : Type := OVERRUN | INVALID | VALID | INTERESTING.

Definition status_value (s : Status) : Z :=
  match s with
  | OVERRUN => 0
  | INVALID => 1
  | VALID => 2
  | INTERESTING => 3
  end.

Definition status_ltb (a b : Status) : bool := status_value a <? status_value b.
Definition status_eqb (a b : Status) : bool := status_value a =? status_value b.

Definition bytes : Type := list byte.

(** Modelled from the spec: a frozen [TestData] of [conjecture.testdata]
    (not among the sources).  [buffer] is the immutable byte sequence given
    at construction, [index] the count of bytes consumed, [cost] the
    non-negative penalty counter, [intervals] the half-open byte ranges of
    the completed example spans, [status] the final status. *)
Record TestData : Type := mkTestData {
  buffer : bytes;
  index : nat;
  cost : nat;
  intervals : list (nat * nat);
  status : Status
}.

(** What one execution of the user's test callback leaves behind in the
    [TestData] it was handed, besides the buffer. *)
Record Execution : Type := mkExecution {
  ex_index : nat;
  ex_cost : nat;
  ex_intervals : list (nat * nat);
  ex_status : Status
}.

(** [Settings.__init__]. *)
Record Settings : Type := mkSettings {
  buffer_size : Z;
  mutations : Z;
  generations : Z;
  max_shrinks : Z
}.

Definition default_settings : Settings :=
  {| buffer_size := 8 * 1024; mutations := 50; generations := 100;
     max_shrinks := 2000 |}.

(** The attributes of a [TestRunner] ([TestRunner.__init__]). *)
Record TestRunner : Type := mkTestRunner {
  settings : Settings;
  last_data : option TestData;
  changed : Z;
  shrinks : Z;
  fill_size : Z
}.

Definition TestRunner_init (s : Settings) : TestRunner :=
  {| settings := s; last_data := None; changed := 0; shrinks := 0;
     fill_size := Z.min 8 (buffer_size s) |}.

(** Ghost trace of what the runner did, newest event first. *)
Inductive Event : Type :=
| EvPropose (candidate : bytes)
    (** [incorporate_new_buffer] was called with this buffer *)
| EvExecute (data : TestData)
    (** the test callback ran on a fresh [TestData] *)
| EvConsider (last data : TestData)
    (** [consider_new_test_data] was asked about [data] *)
| EvReplace (last data : TestData)
    (** [incorporate_new_buffer] assigned [self.last_data = data] *)
| EvFresh (data : TestData)
    (** [new_buffer] assigned [self.last_data] *)
| EvSweep
    (** an outer sweep over the shrink passes began *).

Record World : Type := mkWorld {
  self : TestRunner;
  rand_pos : nat;
  trace : list Event
}.

Definition World_init (s : Settings) : World :=
  {| self := TestRunner_init s; rand_pos := 0%nat; trace := [] |}.

(* ================================================================== *)
(** * Python values *)

Definition byte_val (b : byte) : nat := Byte.to_nat b.

Definition byte_of_mod (n : nat) : byte :=
  match Byte.of_nat (n mod 256) with
  | Some b => b
  | None => x00
  end.

Fixpoint bytes_eqb (a b : bytes) : bool :=
  match a, b with
  | [], [] => true
  | x :: a', y :: b' => Byte.eqb x y && bytes_eqb a' b'
  | _, _ => false
  end.

(** [a < b] on [bytes]: the first differing byte decides, a proper prefix is
    smaller. *)
Fixpoint bytes_ltb (a b : bytes) : bool :=
  match a, b with
  | [], [] => false
  | [], _ :: _ => true
  | _ :: _, [] => false
  | x :: a', y :: b' =>
      if Byte.eqb x y then bytes_ltb a' b'
      else (byte_val x <? byte_val y)%nat
  end.

Definition Key : Type := (nat * nat * nat * bytes)%type.

(** [interest_key]. *)
Definition interest_key (data : TestData) : Key :=
  let buf := buffer data in
  (cost data, length (intervals data), length buf, buf).

(** [<] on Python tuples: the first pair of unequal components decides. *)
Definition key_ltb (k1 k2 : Key) : bool :=
  let '(c1, n1, l1, b1) := k1 in
  let '(c2, n2, l2, b2) := k2 in
  if negb (c1 =? c2)%nat then (c1 <? c2)%nat
  else if negb (n1 =? n2)%nat then (n1 <? n2)%nat
  else if negb (l1 =? l2)%nat then (l1 <? l2)%nat
  else bytes_ltb b1 b2.

(** The lexicographic order of the specification, stated as a relation. *)
Inductive bytes_lt : bytes -> bytes -> Prop :=
| bytes_lt_nil : forall y b, bytes_lt [] (y :: b)
| bytes_lt_head : forall x y a b,
    (byte_val x < byte_val y)%nat -> bytes_lt (x :: a) (y :: b)
| bytes_lt_tail : forall x a b, bytes_lt a b -> bytes_lt (x :: a) (x :: b).

Definition key_lt (k1 k2 : Key) : Prop :=
  let '(c1, n1, l1, b1) := k1 in
  let '(c2, n2, l2, b2) := k2 in
  (c1 < c2)%nat \/
  (c1 = c2 /\ ((n1 < n2)%nat \/
  (n1 = n2 /\ ((l1 < l2)%nat \/
  (l1 = l2 /\ bytes_lt b1 b2))))).

(** Slices [buf[u:v]]; [buf[:u]] is [firstn u buf], [buf[v:]] is
    [skipn v buf]. *)
Definition slice (buf : bytes) (u v : nat) : bytes :=
  firstn (v - u) (skipn u buf).

Fixpoint insert_sorted (x : byte) (l : bytes) : bytes :=
  match l with
  | [] => [x]
  | y :: l' =>
      if (byte_val x <=? byte_val y)%nat then x :: l
      else y :: insert_sorted x l'
  end.

(** [sorted(buf)] on bytes. *)
Definition sorted (l : bytes) : bytes := fold_right insert_sorted [] l.

Definition enumerate (A : Type) (l : list A) : list (nat * A) :=
  combine (seq 0 (length l)) l.

(* ================================================================== *)
(** * The monad of runner methods *)

Inductive exn : Type :=
| StopShrinking | AssertionError | IndexError | ValueError | AttributeError.

Inductive res (A : Type) : Type :=
| Ok (a : A)
| Raise (e : exn)
| OutOfFuel.
Arguments Raise {A} e.
Arguments OutOfFuel {A}.

(** A method takes the fuel its loops may use and the world. *)
Definition M (A : Type) : Type := nat -> World -> res A * World.

Definition ret (A : Type) (a : A) : M A := fun _ w => (Ok a, w).
Definition raise (A : Type) (e : exn) : M A := fun _ w => (Raise e, w).
Arguments raise {A} e.

Definition bind (A B : Type) (m : M A) (k : A -> M B) : M B :=
  fun fuel w =>
    match m fuel w with
    | (Ok a, w') => k a fuel w'
    | (Raise e, w') => (Raise e, w')
    | (OutOfFuel, w') => (OutOfFuel, w')
    end.

Declare Scope monad_scope.
Delimit Scope monad_scope with monad.
Notation "x <- m ;; k" := (bind m (fun x => k))
  (at level 61, m at next level, right associativity) : monad_scope.
Notation "m ;; k" := (bind m (fun _ => k))
  (at level 61, right associativity) : monad_scope.
Local Open Scope monad_scope.

(** A result computed without touching the world. *)
Definition lift_res (A : Type) (r : res A) : M A := fun _ w => (r, w).

(** [try: m except StopShrinking: pass]. *)
Definition except_StopShrinking (m : M unit) : M unit :=
  fun fuel w =>
    match m fuel w with
    | (Raise StopShrinking, w') => (Ok tt, w')
    | rw => rw
    end.

Definition gets (A : Type) (f : TestRunner -> A) : M A :=
  fun _ w => (Ok (f (self w)), w).

Definition modify (f : TestRunner -> TestRunner) : M unit :=
  fun _ w =>
    (Ok tt, {| self := f (self w); rand_pos := rand_pos w; trace := trace w |}).

Definition emit (e : Event) : M unit :=
  fun _ w =>
    (Ok tt, {| self := self w; rand_pos := rand_pos w; trace := e :: trace w |}).

(** What a loop body tells its loop: go on with the next iteration, or
    [break]. *)
Inductive flow (L : Type) : Type :=
| Next (l : L)
| Break (l : L).

Fixpoint iterate (L : Type) (n : nat) (cond : L -> M bool)
    (body : L -> M (flow L)) (l : L) : M L :=
  fun fuel w =>
    match n with
    | O => (OutOfFuel, w)
    | S n' =>
        match cond l fuel w with
        | (Ok true, w1) =>
            match body l fuel w1 with
            | (Ok (Next l'), w2) => iterate n' cond body l' fuel w2
            | (Ok (Break l'), w2) => (Ok l', w2)
            | (Raise e, w2) => (Raise e, w2)
            | (OutOfFuel, w2) => (OutOfFuel, w2)
            end
        | (Ok false, w1) => (Ok l, w1)
        | (Raise e, w1) => (Raise e, w1)
        | (OutOfFuel, w1) => (OutOfFuel, w1)
        end
    end.

(** [while cond: body], with the local variables the loop updates in [l]. *)
Definition while (L : Type) (cond : L -> M bool) (body : L -> M (flow L))
    (l : L) : M L :=
  fun fuel w => iterate fuel cond body l fuel w.

(** [for x in xs: body]. *)
Fixpoint for_each (A L : Type) (xs : list A) (body : A -> L -> M (flow L))
    (l : L) : M L :=
  match xs with
  | [] => ret l
  | x :: xs' =>
      r <- body x l ;;
      match r with
      | Next l' => for_each xs' body l'
      | Break l' => ret l'
      end
  end.

(** [buf[i]]. *)
Definition getitem (A : Type) (l : list A) (i : nat) : M A :=
  match nth_error l i with
  | Some x => ret x
  | None => raise IndexError
  end.

(** [bytes([n])] for one element. *)
Definition byte_of (n : nat) : M byte :=
  match Byte.of_nat n with
  | Some b => ret b
  | None => raise ValueError
  end.

(** [bytes(n)]: [n] zero bytes. *)
Definition zero_bytes (n : Z) : M bytes :=
  if n <? 0 then raise ValueError else ret (repeat x00 (Z.to_nat n)).

Definition with_last_data (d : TestData) (r : TestRunner) : TestRunner :=
  {| settings := settings r; last_data := Some d; changed := changed r;
     shrinks := shrinks r; fill_size := fill_size r |}.

Definition with_changed (c : Z) (r : TestRunner) : TestRunner :=
  {| settings := settings r; last_data := last_data r; changed := c;
     shrinks := shrinks r; fill_size := fill_size r |}.

Definition with_shrinks (s : Z) (r : TestRunner) : TestRunner :=
  {| settings := settings r; last_data := last_data r; changed := changed r;
     shrinks := s; fill_size := fill_size r |}.

Definition with_fill_size (f : Z) (r : TestRunner) : TestRunner :=
  {| settings := settings r; last_data := last_data r; changed := changed r;
     shrinks := shrinks r; fill_size := f |}.

(* ================================================================== *)
(** * The acceptor *)

(** The body of [TestRunner.consider_new_test_data], with
    [self.last_data] as the argument [last]. *)
Definition transition_allowed (last data : TestData) : res bool :=
  if status_ltb (status last) (status data) then Ok true
  else if status_ltb (status data) (status last) then Ok false
  else if status_eqb (status data) INVALID then
    Ok (index last <=? index data)%nat
  else if status_eqb (status data) OVERRUN then
    Ok (index data <=? index last)%nat
  else if status_eqb (status data) INTERESTING then
    if (length (buffer data) <=? length (buffer last))%nat
    then Ok (key_ltb (interest_key data) (interest_key last))
    else Raise AssertionError
  else Ok true.

(** The order of the specification among INTERESTING candidates, in the
    specification's words: the tuple (cost, number of intervals, buffer
    length, buffer as bytes), compared lexicographically; smaller is
    better.  It is written out on the fields of the two [TestData], without
    the code's [interest_key]. *)
Definition strictly_better (a b : TestData) : Prop :=
  (cost a < cost b)%nat \/
  (cost a = cost b /\
   ((length (intervals a) < length (intervals b))%nat \/
    (length (intervals a) = length (intervals b) /\
     ((length (buffer a) < length (buffer b))%nat \/
      (length (buffer a) = length (buffer b) /\
       bytes_lt (buffer a) (buffer b)))))).

(** The table of the specification (section 4.3), as a relation between the
    two frozen [TestData] and the verdict. *)
Definition table_verdict (last candidate : TestData) (accept : bool) : Prop :=
  (status_value (status candidate) > status_value (status last) ->
   accept = true) /\
  (status_value (status candidate) < status_value (status last) ->
   accept = false) /\
  (status candidate = status last -> status candidate = INVALID ->
   (accept = true <-> (index candidate >= index last)%nat)) /\
  (status candidate = status last -> status candidate = OVERRUN ->
   (accept = true <-> (index candidate <= index last)%nat)) /\
  (status candidate = status last -> status candidate = INTERESTING ->
   (accept = true <-> strictly_better candidate last)) /\
  (status candidate = status last -> status candidate = VALID ->
   accept = true).

(** The precondition of the INTERESTING row of the table. *)
Definition table_precondition (last candidate : TestData) : Prop :=
  status candidate = INTERESTING -> status last = INTERESTING ->
  (length (buffer candidate) <= length (buffer last))%nat.

(* ================================================================== *)
(** * The engine *)

Section Engine.

(** The user's test callback, as what it does to the [TestData] of a given
    buffer, and the random tape. *)
Variable callback : bytes -> Execution.
Variable tape : nat -> nat.

(** Modelled from the spec: [TestData(buffer)], run through the callback
    and frozen ([conjecture.testdata] is not among the sources).  The buffer
    is the one supplied at construction. *)
Definition run_test (buf : bytes) : TestData :=
  let e := callback buf in
  {| buffer := buf; index := ex_index e; cost := ex_cost e;
     intervals := ex_intervals e; status := ex_status e |}.

Definition random_nat : M nat :=
  fun _ w =>
    (Ok (tape (rand_pos w)),
     {| self := self w; rand_pos := S (rand_pos w); trace := trace w |}).

(** [os.urandom(n)]. *)
Definition urandom (n : Z) : M bytes :=
  if n <? 0 then raise ValueError
  else fun _ w =>
    (Ok (map (fun k => byte_of_mod (tape (rand_pos w + k)))
             (seq 0 (Z.to_nat n))),
     {| self := self w; rand_pos := (rand_pos w + Z.to_nat n)%nat;
        trace := trace w |}).

(** [random.randint(a, b)]. *)
Definition randint (a b : Z) : M Z :=
  if b <? a then raise ValueError
  else x <- random_nat ;; ret (a + Z.of_nat x mod (b - a + 1)).

(** [random.choice(l)]. *)
Definition choice (A : Type) (l : list A) : M A :=
  match l with
  | [] => raise IndexError
  | _ :: _ => x <- random_nat ;; getitem l (x mod length l)
  end.

(** [self.last_data], which is [None] until [new_buffer] ran. *)
Definition get_last_data : M TestData :=
  o <- gets last_data ;;
  match o with
  | Some d => ret d
  | None => raise AttributeError
  end.

(** [data = TestData(buffer); self.test_function(data); data.freeze()]. *)
Definition test_function (buf : bytes) : M TestData :=
  let data := run_test buf in
  emit (EvExecute data) ;; ret data.

Definition update_fill_size : M unit :=
  d <- get_last_data ;;
  modify (fun r =>
    with_fill_size
      (Z.min (Z.max (fill_size r) (Z.of_nat (index d) * 2))
             (buffer_size (settings r))) r).

Definition new_buffer : M unit :=
  fill <- gets fill_size ;;
  size <- gets (fun r => buffer_size (settings r)) ;;
  rnd <- urandom fill ;;
  zeros <- zero_bytes (size - fill) ;;
  data <- test_function (rnd ++ zeros) ;;
  emit (EvFresh data) ;;
  modify (with_last_data data) ;;
  update_fill_size.

Definition consider_new_test_data (data : TestData) : M bool :=
  last <- get_last_data ;;
  emit (EvConsider last data) ;;
  lift_res (transition_allowed last data).

Definition incorporate_new_buffer (buf : bytes) : M bool :=
  emit (EvPropose buf) ;;
  last <- get_last_data ;;
  if bytes_eqb buf (buffer last) then ret false
  else
    data <- test_function buf ;;
    ok <- consider_new_test_data data ;;
    if ok then
      last <- get_last_data ;;
      (if status_eqb (status last) INTERESTING
       then modify (fun r => with_shrinks (shrinks r + 1) r)
       else ret tt) ;;
      emit (EvReplace last data) ;;
      modify (with_last_data data) ;;
      update_fill_size ;;
      modify (fun r => with_changed (changed r + 1) r) ;;
      s <- gets shrinks ;;
      mx <- gets (fun r => max_shrinks (settings r)) ;;
      if mx <=? s then raise StopShrinking else ret true
    else ret false.

(** The loop of the OVERRUN branch of the mutator, which fills [result]. *)
Definition perturb_bytes (buf : bytes) : M bytes :=
  for_each (enumerate buf)
    (fun ic result =>
       let '(i, c) := ic in
       t <- randint 0 2 ;;
       if t =? 0 then
         ret (Next (firstn i result ++ [x00] ++ skipn (i + 1) result))
       else if t =? 1 then
         r <- randint 0 (Z.of_nat (byte_val c)) ;;
         b <- byte_of (Z.to_nat r) ;;
         ret (Next (firstn i result ++ [b] ++ skipn (i + 1) result))
       else
         ret (Next (firstn i result ++ [c] ++ skipn (i + 1) result)))
    buf.

Definition interval_eqb (a b : nat * nat) : bool :=
  (fst a =? fst b)%nat && (snd a =? snd b)%nat.

Definition mutate_data_to_new_buffer (data : TestData) : M bytes :=
  let n := Z.min (Z.of_nat (length (buffer data))) (Z.of_nat (index data)) in
  if n =? 0 then ret []
  else if n =? 1 then urandom 1
  else
    (if status_eqb (status data) OVERRUN
     then perturb_bytes (buffer data)
     else ret []) ;;
    pr <- urandom 1 ;;
    probe <- getitem pr 0 ;;
    let nint := Z.of_nat (length (intervals data)) in
    let len := Z.of_nat (length (buffer data)) in
    if (byte_val probe <=? 100)%nat || (nint <=? 1) then
      coin <- randint 0 1 ;;
      uv <- (if negb (coin =? 0) || (nint <=? 1) then
               u <- randint 0 (len - 2) ;;
               v <- randint (u + 1) (len - 1) ;;
               ret (u, v)
             else
               i <- choice (intervals data) ;;
               ret (Z.of_nat (fst i), Z.of_nat (snd i))) ;;
      let '(u, v) := uv in
      c <- randint 0 2 ;;
      replace <- (if c =? 0 then ret (repeat x00 (Z.to_nat (v - u)))
                  else if c =? 1 then ret (repeat xff (Z.to_nat (v - u)))
                  else urandom (v - u)) ;;
      ret (firstn (Z.to_nat u) (buffer data) ++ replace ++
           skipn (Z.to_nat v) (buffer data))
    else
      ints <- while
        (fun ints : option (nat * nat) * option (nat * nat) =>
           match ints with
           | (Some a, Some b) => ret (interval_eqb a b)
           | (None, None) => ret true
           | _ => ret false
           end)
        (fun _ =>
           i <- randint 0 (nint - 2) ;;
           int1 <- getitem (intervals data) (Z.to_nat i) ;;
           j <- randint (i + 1) (nint - 1) ;;
           int2 <- getitem (intervals data) (Z.to_nat j) ;;
           ret (Next (Some int1, Some int2)))
        (None, None) ;;
      match ints with
      | (Some int1, Some int2) =>
          ret (firstn (fst int1) (buffer data) ++
               slice (buffer data) (fst int2) (snd int2) ++
               skipn (snd int1) (buffer data))
      | _ => raise AttributeError
      end.

(* ------------------------------------------------------------------ *)
(** ** The shrink passes of [_run], in the order of the source *)

(** Interval deletion, repeated until a sweep over the intervals changes
    nothing. *)
Definition delete_intervals : M unit :=
  while (fun interval_change_counter =>
           c <- gets changed ;; ret (interval_change_counter <? c))
    (fun _ =>
       interval_change_counter <- gets changed ;;
       while (fun i =>
                d <- get_last_data ;;
                ret (i <? length (intervals d))%nat)
         (fun i =>
            d <- get_last_data ;;
            uv <- getitem (intervals d) i ;;
            ok <- incorporate_new_buffer
                    (firstn (fst uv) (buffer d) ++ skipn (snd uv) (buffer d)) ;;
            ret (Next (if ok then i else (i + 1)%nat)))
         0%nat ;;
       ret (Next interval_change_counter))
    (-1) ;;
  ret tt.

(** Sorting the bytes of each interval. *)
Definition sort_intervals : M unit :=
  while (fun i =>
           d <- get_last_data ;;
           ret (i <? length (intervals d))%nat)
    (fun i =>
       d <- get_last_data ;;
       uv <- getitem (intervals d) i ;;
       let buf := buffer d in
       incorporate_new_buffer
         (firstn (fst uv) buf ++ sorted (slice buf (fst uv) (snd uv)) ++
          skipn (snd uv) buf) ;;
       ret (Next (i + 1)%nat))
    0%nat ;;
  ret tt.

(** Zeroing windows of [k = 8] bytes. *)
Definition zero_windows : M unit :=
  let k := 8%nat in
  d <- get_last_data ;;
  for_each (seq 0 (length (buffer d) - k))
    (fun i _ =>
       d <- get_last_data ;;
       let buf := buffer d in
       if (length buf <? i + k)%nat then ret (Break tt)
       else
         incorporate_new_buffer
           (firstn i buf ++ repeat x00 k ++ skipn (i + k) buf) ;;
         ret (Next tt))
    tt ;;
  ret tt.

(** Deleting single bytes, else lowering them. *)
Definition reduce_bytes : M unit :=
  while (fun i =>
           d <- get_last_data ;;
           ret (i <? length (buffer d))%nat)
    (fun i =>
       d <- get_last_data ;;
       let buf := buffer d in
       ok <- incorporate_new_buffer (firstn i buf ++ skipn (i + 1) buf) ;;
       (if ok then ret tt
        else
          bi <- getitem buf i ;;
          for_each (seq 0 (byte_val bi))
            (fun c _ =>
               bc <- byte_of c ;;
               ok1 <- incorporate_new_buffer
                        (firstn i buf ++ [bc] ++ skipn (i + 1) buf) ;;
               if ok1 then ret (Break tt)
               else
                 tail <- urandom (Z.of_nat (length buf) - Z.of_nat i - 1) ;;
                 ok2 <- incorporate_new_buffer (firstn i buf ++ [bc] ++ tail) ;;
                 if ok2 then ret (Break tt) else ret (Next tt))
            tt ;;
          ret tt) ;;
       ret (Next (i + 1)%nat))
    0%nat ;;
  ret tt.

(** Swapping adjacent bytes that are in descending order. *)
Definition swap_adjacent : M unit :=
  while (fun i =>
           d <- get_last_data ;;
           ret (i + 1 <? length (buffer d))%nat)
    (fun i =>
       let j := (i + 1)%nat in
       d <- get_last_data ;;
       let buf := buffer d in
       bi <- getitem buf i ;;
       bj <- getitem buf j ;;
       (if (byte_val bj <? byte_val bi)%nat then
          incorporate_new_buffer
            (firstn i buf ++ [bj; bi] ++ skipn (j + 1) buf) ;;
          ret tt
        else ret tt) ;;
       ret (Next (i + 1)%nat))
    0%nat ;;
  ret tt.

(** Deleting single bytes, else borrowing from the left of a zero byte. *)
Definition borrow_left : M unit :=
  while (fun i =>
           d <- get_last_data ;;
           ret (i <? length (buffer d))%nat)
    (fun i =>
       d <- get_last_data ;;
       let buf := buffer d in
       ok <- incorporate_new_buffer (firstn i buf ++ skipn (i + 1) buf) ;;
       (if ok then ret tt
        else
          bi <- getitem buf i ;;
          if (byte_val bi =? 0)%nat then
            while (fun j => ret (0 <? j)%nat)
              (fun j =>
                 bj <- getitem buf j ;;
                 if (0 <? byte_val bj)%nat then
                   b <- byte_of (byte_val bj - 1) ;;
                   incorporate_new_buffer
                     (firstn j buf ++ [b] ++ repeat xff (i - j) ++
                      skipn (i + 1) buf) ;;
                   ret (Break j)
                 else ret (Next (j - 1)%nat))
              i ;;
            ret tt
          else ret tt) ;;
       ret (Next (i + 1)%nat))
    0%nat ;;
  ret tt.

(** [buckets[c]]: the positions of the byte value [c], ascending. *)
Definition bucket (buf : bytes) (c : nat) : list nat :=
  map fst (filter (fun ic => (byte_val (snd ic) =? c)%nat) (enumerate buf)).

(** [(j, k) for j in bucket for k in bucket if j < k]. *)
Definition bucket_pairs (b : list nat) : list (nat * nat) :=
  flat_map (fun j =>
    flat_map (fun k => if (j <? k)%nat then [(j, k)] else []) b) b.

Definition indices (buf : bytes) : list (nat * nat) :=
  flat_map (fun c =>
    let b := bucket buf c in
    if (1 <? length b)%nat then bucket_pairs b else [])
    (seq 0 256).

(** Lowering two equal bytes together. *)
Definition equal_pairs : M unit :=
  d <- get_last_data ;;
  for_each (indices (buffer d))
    (fun jk _ =>
       let '(j, k) := jk in
       d <- get_last_data ;;
       let buf := buffer d in
       if (length buf <=? k)%nat then ret (Next tt)
       else
         bj <- getitem buf j ;;
         bk <- getitem buf k ;;
         if Byte.eqb bj bk then
           let c := byte_val bj in
           (if (c =? 0)%nat then
              if (0 <? j)%nat then
                bj1 <- getitem buf (j - 1) ;;
                if (0 <? byte_val bj1)%nat then
                  bk1 <- getitem buf (k - 1) ;;
                  if (0 <? byte_val bk1)%nat then
                    x <- byte_of (byte_val bj1 - 1) ;;
                    y <- byte_of (byte_val bk1 - 1) ;;
                    incorporate_new_buffer
                      (firstn (j - 1) buf ++ [x; xff] ++
                       slice buf (j + 1) (k - 1) ++ [y; xff] ++
                       skipn (k + 1) buf) ;;
                    ret tt
                  else ret tt
                else ret tt
              else ret tt
            else ret tt) ;;
           (if (0 <? c)%nat then
              bd <- byte_of (c - 1) ;;
              ok <- incorporate_new_buffer
                      (firstn j buf ++ [bd] ++ slice buf (j + 1) k ++ [bd] ++
                       skipn (k + 1) buf) ;;
              if ok then
                for_each (seq 0 (c - 1))
                  (fun d' _ =>
                     d <- get_last_data ;;
                     let buf := buffer d in
                     bd <- byte_of d' ;;
                     incorporate_new_buffer
                       (firstn j buf ++ [bd] ++ slice buf (j + 1) k ++ [bd] ++
                        skipn (k + 1) buf) ;;
                     ret (Next tt))
                  tt ;;
                ret tt
              else ret tt
            else ret tt) ;;
           ret (Next tt)
         else ret (Next tt))
    tt ;;
  ret tt.

(** Ordering and decrementing pairs of bytes. *)
Definition order_pairs : M unit :=
  d <- get_last_data ;;
  for_each (seq 0 (length (buffer d)))
    (fun j _ =>
       d <- get_last_data ;;
       let buf := buffer d in
       if (length buf <=? j)%nat then ret (Break tt)
       else
         bj <- getitem buf j ;;
         if (byte_val bj =? 0)%nat then ret (Next tt)
         else
           for_each (seq (j + 1) (length buf - (j + 1)))
             (fun k _ =>
                d <- get_last_data ;;
                let buf := buffer d in
                if (length buf <=? k)%nat then ret (Break tt)
                else
                  bj <- getitem buf j ;;
                  bk <- getitem buf k ;;
                  (if (byte_val bk <? byte_val bj)%nat then
                     incorporate_new_buffer
                       (firstn j buf ++ [bk] ++ slice buf (j + 1) k ++ [bj] ++
                        skipn (k + 1) buf) ;;
                     ret tt
                   else ret tt) ;;
                  d <- get_last_data ;;
                  let buf := buffer d in
                  if (length buf <=? k)%nat then ret (Break tt)
                  else
                    bj <- getitem buf j ;;
                    bk <- getitem buf k ;;
                    (if (0 <? byte_val bj)%nat && (0 <? byte_val bk)%nat then
                       x <- byte_of (byte_val bj - 1) ;;
                       y <- byte_of (byte_val bk - 1) ;;
                       incorporate_new_buffer
                         (firstn j buf ++ [x] ++ slice buf (j + 1) k ++ [y] ++
                          skipn (k + 1) buf) ;;
                       ret tt
                     else ret tt) ;;
                    ret (Next tt))
             tt ;;
           ret (Next tt))
    tt ;;
  ret tt.

(* ------------------------------------------------------------------ *)
(** ** [_run], [run] and [find_interesting_buffer] *)

(** The first loop of [_run].  The local variables are [mutations],
    [generation] and whether the loop was left by [return]. *)
Definition generate : M bool :=
  new_buffer ;;
  st <- while
    (fun _ : Z * Z * bool =>
       d <- get_last_data ;;
       ret (negb (status_eqb (status d) INTERESTING)))
    (fun st =>
       let '(mutations_, generation, _) := st in
       mx <- gets (fun r => mutations (settings r)) ;;
       if mx <=? mutations_ then
         let generation := generation + 1 in
         gx <- gets (fun r => generations (settings r)) ;;
         if gx <=? generation then ret (Break (mutations_, generation, true))
         else
           let mutations_ := 0 in
           d <- get_last_data ;;
           buf <- mutate_data_to_new_buffer d ;;
           incorporate_new_buffer buf ;;
           ret (Next (mutations_ + 1, generation, false))
       else
         new_buffer ;;
         ret (Next (mutations_ + 1, generation, false)))
    (0, 0, false) ;;
  ret (negb (snd st)).

(** One iteration of the second loop of [_run]. *)
Definition sweep : M (flow Z) :=
  emit EvSweep ;;
  d <- get_last_data ;;
  (if status_eqb (status d) INTERESTING then ret tt
   else raise AssertionError) ;;
  change_counter <- gets changed ;;
  delete_intervals ;;
  sort_intervals ;;
  zero_windows ;;
  reduce_bytes ;;
  swap_adjacent ;;
  c <- gets changed ;;
  if change_counter <? c then ret (Next change_counter)
  else
    borrow_left ;;
    c <- gets changed ;;
    if change_counter <? c then ret (Next change_counter)
    else
      equal_pairs ;;
      c <- gets changed ;;
      if change_counter <? c then ret (Next change_counter)
      else
        order_pairs ;;
        ret (Next change_counter).

(** The second loop of [_run]. *)
Definition shrink : M unit :=
  initial_changes <- gets changed ;;
  while (fun change_counter =>
           c <- gets changed ;;
           mx <- gets (fun r => max_shrinks (settings r)) ;;
           ret ((c <=? initial_changes + mx) && (change_counter <? c)))
    (fun _ => sweep)
    (-1) ;;
  ret tt.

Definition _run : M unit :=
  found <- generate ;;
  if found then shrink else ret tt.

Definition run : M unit := except_StopShrinking _run.

(** [find_interesting_buffer(test_function, settings)], given the fuel of
    the loops. *)
Definition find_interesting_buffer (s : Settings) (fuel : nat)
    : res (option bytes) :=
  match run fuel (World_init s) with
  | (Ok _, w) =>
      match last_data (self w) with
      | Some d =>
          if status_eqb (status d) INTERESTING then Ok (Some (buffer d))
          else Ok None
      | None => Raise AttributeError
      end
  | (Raise e, _) => Raise e
  | (OutOfFuel, _) => OutOfFuel
  end.

(* ================================================================== *)
(** * Notions used by the statements *)

Definition add_events (t : list Event) (w : World) : World :=
  {| self := self w; rand_pos := rand_pos w; trace := t ++ trace w |}.

(** The runner after [incorporate_new_buffer] accepted [data]. *)
Definition accept_runner (last data : TestData) (r : TestRunner)
    : TestRunner :=
  {| settings := settings r;
     last_data := Some data;
     changed := changed r + 1;
     shrinks := if status_eqb (status last) INTERESTING
                then shrinks r + 1 else shrinks r;
     fill_size := Z.min (Z.max (fill_size r) (Z.of_nat (index data) * 2))
                        (buffer_size (settings r)) |}.


(** Total correctness: with enough fuel, [m] started in [w] gives one
    result, which is a value satisfying [Q] or an exception satisfying
    [E]. *)
Definition twp (A : Type) (m : M A) (Q : A -> World -> Prop)
    (E : exn -> World -> Prop) (w : World) : Prop :=
  exists n r w',
    (forall fuel, (n <= fuel)%nat -> m fuel w = (r, w')) /\
    match r with
    | Ok a => Q a w'
    | Raise e => E e w'
    | OutOfFuel => False
    end.

(** More fuel does not change a result that was reached. *)
Definition mono (A : Type) (m : M A) : Prop :=
  forall f1 f2 w r w',
    (f1 <= f2)%nat -> m f1 w = (r, w') -> r <> OutOfFuel -> m f2 w = (r, w').

(** The shrinks the budget still allows. *)
Definition budget (r : TestRunner) : nat :=
  Z.to_nat (max_shrinks (settings r) - shrinks r).

Definition no_replace (t : list Event) : Prop :=
  forall a b, ~ In (EvReplace a b) t.

(** Nothing was accepted between [w0] and [w]. *)
Definition quiet (w0 w : World) : Prop :=
  self w = self w0 /\ exists t, trace w = t ++ trace w0 /\ no_replace t.

(** Something was accepted between [w0] and [w], while the last data was
    INTERESTING. *)
Definition advanced (w0 w : World) : Prop :=
  settings (self w) = settings (self w0) /\
  (budget (self w) < budget (self w0))%nat /\
  changed (self w0) < changed (self w) /\
  changed (self w) - shrinks (self w) = changed (self w0) - shrinks (self w0).

Definition evolves (w0 w : World) : Prop := quiet w0 w \/ advanced w0 w.

(** The measure of the loops of the shrink phase: the remaining budget, then
    a variant [V] of the loop at hand. *)
Definition measure (L : Type) (V : L -> TestRunner -> nat) (l : L) (w : World)
    : nat * nat :=
  (budget (self w), V l (self w)).

(** The last outer sweep recorded in the trace accepted nothing. *)
Definition last_sweep_quiet (t : list Event) : Prop :=
  exists t1 t0, t = t1 ++ EvSweep :: t0 /\ no_replace t1.

Section EngineInvariants.

(** The state of the runner between two steps of the shrink phase.  [K] is
    a lower bound on buffer length plus shrinks, kept when the callback
    never records intervals. *)
Definition ShrinkInv (K : Z) (w : World) : Prop :=
  exists d,
    last_data (self w) = Some d /\
    status d = INTERESTING /\
    (exists b, d = run_test b) /\
    0 <= changed (self w) /\
    0 <= shrinks (self w) /\
    (shrinks (self w) < max_shrinks (settings (self w)) \/
     shrinks (self w) = 0) /\
    ((forall b, ex_intervals (callback b) = []) ->
     K <= Z.of_nat (length (buffer d)) + shrinks (self w)).

(** The state of the runner when the shrink budget is reached. *)
Definition ShrinkStop (K : Z) (e : exn) (w : World) : Prop :=
  e = StopShrinking /\
  exists d,
    last_data (self w) = Some d /\
    status d = INTERESTING /\
    max_shrinks (settings (self w)) <= shrinks (self w) /\
    shrinks (self w) <= Z.max (max_shrinks (settings (self w))) 1 /\
    ((forall b, ex_intervals (callback b) = []) ->
     K <= Z.of_nat (length (buffer d)) + shrinks (self w)).

End EngineInvariants.

Section EngineSpecs.

(** A part of the shrink phase keeps the invariant, terminates, and
    either leaves the runner alone or makes progress. *)
Definition steady (K : Z) (A : Type) (m : M A) : Prop :=
  forall w, ShrinkInv K w ->
    twp m (fun _ w' => ShrinkInv K w' /\ evolves w w') (ShrinkStop K) w.

End EngineSpecs.

(** Partial correctness, whatever the fuel: a value satisfies [Q], an
    exception [E], and a run that stops for lack of fuel stops in [O]. *)
Definition pwp (A : Type) (m : M A) (Q : A -> World -> Prop)
    (E : exn -> World -> Prop) (O : World -> Prop) (w : World) : Prop :=
  forall fuel r w', m fuel w = (r, w') ->
    match r with
    | Ok a => Q a w'
    | Raise e => E e w'
    | OutOfFuel => O w'
    end.

(** [m] keeps the invariant [I], and raises only in [E]. *)
Definition keeps (I : World -> Prop) (E : exn -> World -> Prop) (A : Type)
    (m : M A) : Prop :=
  forall w, I w -> pwp m (fun _ => I) E I w.

(** The [TestData] an event makes [self.last_data]. *)
Definition installs (e : Event) : option TestData :=
  match e with
  | EvReplace _ d => Some d
  | EvFresh d => Some d
  | _ => None
  end.

(** [self.last_data] as the trace tells it. *)
Fixpoint current (t : list Event) : option TestData :=
  match t with
  | [] => None
  | e :: t' =>
      match installs e with
      | Some d => Some d
      | None => current t'
      end
  end.

(** The accepted replacements of an INTERESTING [last_data]. *)
Fixpoint count_shrinks (t : list Event) : Z :=
  match t with
  | [] => 0
  | EvReplace last _ :: t' =>
      (if status_eqb (status last) INTERESTING then 1 else 0) +
      count_shrinks t'
  | _ :: t' => count_shrinks t'
  end.

(** How [self.last_data] came to be replaced, event by event: through
    [incorporate_new_buffer], right after the candidate was executed and the
    acceptor said yes about it and the then current [last_data]; or through
    [new_buffer], right after the candidate was executed, and only while the
    current [last_data] was not INTERESTING. *)
Fixpoint trace_ok (t : list Event) : Prop :=
  match t with
  | [] => True
  | EvReplace last data :: t' =>
      current t' = Some last /\
      transition_allowed last data = Ok true /\
      (exists t'', t' = EvConsider last data :: EvExecute data :: t'') /\
      trace_ok t'
  | EvFresh data :: t' =>
      (forall d, current t' = Some d -> status d <> INTERESTING) /\
      (exists t'', t' = EvExecute data :: t'') /\
      trace_ok t'
  | _ :: t' => trace_ok t'
  end.

(** No question to the acceptor tripped its assertion. *)
Definition considered_ok (t : list Event) : Prop :=
  forall last data, In (EvConsider last data) t ->
    transition_allowed last data <> Raise AssertionError.

(** The invariant of the runner and its trace, for the settings [s]. *)
Definition TraceInv (s : Settings) (w : World) : Prop :=
  settings (self w) = s /\
  last_data (self w) = current (trace w) /\
  shrinks (self w) = count_shrinks (trace w) /\
  trace_ok (trace w) /\
  considered_ok (trace w) /\
  0 <= shrinks (self w) /\
  (shrinks (self w) < max_shrinks s \/ shrinks (self w) = 0).

(** What is left of it when an exception is on its way. *)
Definition TraceErr (s : Settings) (e : exn) (w : World) : Prop :=
  settings (self w) = s /\
  last_data (self w) = current (trace w) /\
  shrinks (self w) = count_shrinks (trace w) /\
  trace_ok (trace w) /\
  (e <> AssertionError -> considered_ok (trace w)) /\
  0 <= shrinks (self w) <= Z.max (max_shrinks s) 1 /\
  (e = StopShrinking ->
   max_shrinks s <= shrinks (self w) /\
   exists last data t,
     trace w = EvReplace last data :: t /\ last_data (self w) = Some data).

(** The invariant of the generation phase: the trace invariant, no shrink
    counted yet, and a [last_data] that came out of the callback. *)
Definition GenInv (s : Settings) (w : World) : Prop :=
  TraceInv s w /\
  shrinks (self w) = 0 /\
  0 <= changed (self w) /\
  (forall d, last_data (self w) = Some d -> exists b, d = run_test b).

(** [self.last_data] is not INTERESTING (or not there yet). *)
Definition searching (w : World) : Prop :=
  forall d, last_data (self w) = Some d -> status d <> INTERESTING.

(** What the generation phase may raise. *)
Definition GenErr (s : Settings) (e : exn) (w : World) : Prop :=
  TraceErr s e w /\ e <> AssertionError.

(** The claim that every replacement of [last_data] went through the
    acceptor: the event that installs [data] comes right after [data] was
    executed and the acceptor said yes about it. *)
Definition acceptor_gated (t : list Event) : Prop :=
  forall t2 t1 e data,
    t = t2 ++ e :: t1 -> installs e = Some data ->
    exists last t0,
      t1 = EvConsider last data :: EvExecute data :: t0 /\
      transition_allowed last data = Ok true.

(** The claim that the status never decreases from one [last_data] to the
    next. *)
Definition status_monotone (t : list Event) : Prop :=
  forall t2 t1 e data last,
    t = t2 ++ e :: t1 -> installs e = Some data -> current t1 = Some last ->
    status_value (status last) <= status_value (status data).

(** A buffer that is a per-byte perturbation of [original]: each byte was
    set to zero, to a value in [[0, c]] for its original value [c], or left
    as it was. *)
Definition perturbed (original out : bytes) : Prop :=
  Forall2 (fun c o => (byte_val o <= byte_val c)%nat) original out.

(* ================================================================== *)
(** * Inputs of the examples *)

(** A property over raw bytes that always holds: every execution is
    INTERESTING, reads nothing and records no interval. *)
Definition always_true (_ : bytes) : Execution :=
  {| ex_index := 0; ex_cost := 0; ex_intervals := [];
     ex_status := INTERESTING |}.

(** A test that reads one byte and rejects odd ones. *)
Definition rejects_odd (b : bytes) : Execution :=
  match b with
  | [] =>
      {| ex_index := 1; ex_cost := 0; ex_intervals := [];
         ex_status := OVERRUN |}
  | x :: _ =>
      {| ex_index := 1; ex_cost := 0; ex_intervals := [];
         ex_status := if Nat.even (byte_val x) then VALID else INVALID |}
  end.

Definition counting_tape (n : nat) : nat := n.
Definition ones_tape (_ : nat) : nat := 1%nat.

(** Leaves both bytes in the OVERRUN loop, then asks for the random range
    [[0, 1)] filled with 0xFF. *)
Definition splice_tape (n : nat) : nat :=
  match n with
  | 0 => 2
  | 1 => 2
  | 6 => 1
  | _ => 0
  end%nat.

Definition one_byte_settings : Settings :=
  {| buffer_size := 1; mutations := 5; generations := 1; max_shrinks := 10 |}.

Definition one_shrink_settings : Settings :=
  {| buffer_size := 1; mutations := 5; generations := 1; max_shrinks := 1 |}.


(** A test asked for three bytes of a two-byte buffer. *)
Definition overrun_data : TestData :=
  {| buffer := [x01; x01]; index := 3%nat; cost := 0%nat; intervals := [];
     status := OVERRUN |}.

Definition data_of (status_ : Status) (buf : bytes) : TestData :=
  {| buffer := buf; index := 0%nat; cost := 0%nat; intervals := [];
     status := status_ |}.

(** A runner in its shrink phase whose current buffer is [buf]. *)
Definition shrinking_world (s : Settings) (buf : bytes) : World :=
  {| self := {| settings := s; last_data := Some (data_of INTERESTING buf);
                changed := 0; shrinks := 0; fill_size := 8 |};
     rand_pos := 0; trace := [] |}.

(** The order among INTERESTING candidates: a smaller interest key. *)
Definition interest_lt (a b : TestData) : Prop :=
  key_lt (interest_key a) (interest_key b).

(** A buffer read as a number in base 256, most significant byte first. *)
Fixpoint bytes_number (b : bytes) : nat :=
  match b with
  | [] => 0
  | x :: b' => byte_val x * 256 ^ length b' + bytes_number b'
  end.

(** The interest key in numbers. *)
Definition interest_measure (d : TestData) : nat * (nat * (nat * nat)) :=
  (cost d, (length (intervals d),
            (length (buffer d), bytes_number (buffer d)))).

(** Every replacement of an INTERESTING [last_data] recorded in [t] led to
    an INTERESTING candidate with a strictly smaller interest key. *)
Definition replacements_decrease (t : list Event) : Prop :=
  forall last data,
    In (EvReplace last data) t -> status last = INTERESTING ->
    status data = INTERESTING /\ interest_lt data last.

(** The events since the world [w0], all of whose replacements the acceptor
    allowed. *)
Definition accepted_since (w0 w : World) : Prop :=
  exists t,
    trace w = t ++ trace w0 /\
    forall last data,
      In (EvReplace last data) t -> transition_allowed last data = Ok true.

(** How often [incorporate_new_buffer] replaced [last_data]. *)
Fixpoint count_replaced (t : list Event) : Z :=
  match t with
  | [] => 0
  | EvReplace _ _ :: t' => 1 + count_replaced t'
  | _ :: t' => count_replaced t'
  end.

(** What the runner's fields keep through a run with the settings [s]:
    [last_data] is what the callback made of its own buffer, [fill_size]
    stays between its first value and [buffer_size], the buffers of
    [new_buffer] have [buffer_size] bytes, and [changed] counts the
    accepted candidates, of which [shrinks] counts some. *)
Definition RunInv (s : Settings) (w : World) : Prop :=
  settings (self w) = s /\
  (forall d, last_data (self w) = Some d -> d = run_test (buffer d)) /\
  Z.min 8 (buffer_size s) <= fill_size (self w) <= buffer_size s /\
  (forall data, In (EvFresh data) (trace w) ->
     Z.of_nat (length (buffer data)) = buffer_size s) /\
  changed (self w) = count_replaced (trace w) /\
  0 <= shrinks (self w) <= changed (self w).

(** How often the test function was called. *)
Fixpoint count_executed (t : list Event) : Z :=
  match t with
  | [] => 0
  | EvExecute _ :: t' => 1 + count_executed t'
  | _ :: t' => count_executed t'
  end.

(** The runner still has the settings [s] and called the test function no
    more than [1 + generations * mutations] times. *)
Definition within_budget (s : Settings) (w : World) : Prop :=
  settings (self w) = s /\
  count_executed (trace w) <= 1 + generations s * mutations s.


(** A test result that lists one interval twice. *)
Definition equal_intervals_data : TestData :=
  {| buffer := [x01; x02]; index := 2%nat; cost := 0%nat;
     intervals := [(0, 1); (0, 1)]%nat; status := VALID |}.

Definition high_tape (_ : nat) : nat := 200%nat.

Definition negative_size_settings : Settings :=
  {| buffer_size := -1; mutations := 5; generations := 1; max_shrinks := 10 |}.

(** The acceptor turns down every buffer made from the buffer of [d] by
    deleting one of its first [n] bytes. *)
Definition deletions_rejected (d : TestData) (n : nat) : Prop :=
  forall i, (i < n)%nat ->
    transition_allowed d
      (run_test (firstn i (buffer d) ++ skipn (i + 1) (buffer d))) = Ok false.

(** The acceptor turns down every buffer made from the buffer of [d] by
    lowering one of its first [n] bytes. *)
Definition lowerings_rejected (d : TestData) (n : nat) : Prop :=
  forall i x v, (i < n)%nat -> nth_error (buffer d) i = Some x ->
    (byte_val v < byte_val x)%nat ->
    transition_allowed d
      (run_test (firstn i (buffer d) ++ [v] ++ skipn (i + 1) (buffer d)))
    = Ok false.

Definition bytes_reduced (d : TestData) (n : nat) : Prop :=
  deletions_rejected d n /\ lowerings_rejected d n.

(** No byte of the current buffer can be deleted or lowered. *)
Definition locally_minimal (w : World) : Prop :=
  forall d, last_data (self w) = Some d ->
    bytes_reduced d (length (buffer d)).

(** The runner during the shrink phase that began with [initial] in
    [changed]: every replacement since was a shrink, within the budget. *)
Definition ShrinkAux (s : Settings) (initial : Z) (w : World) : Prop :=
  settings (self w) = s /\
  (exists d, last_data (self w) = Some d /\ status d = INTERESTING) /\
  changed (self w) - shrinks (self w) = initial /\
  0 <= shrinks (self w) /\
  (shrinks (self w) < max_shrinks s \/ shrinks (self w) = 0).

(** Since the world [w0] a candidate was accepted, or the runner is as it
    was and [P] has been found out. *)
Definition sweep_progress (s : Settings) (initial : Z) (w0 : World)
    (P : Prop) (w : World) : Prop :=
  ShrinkAux s initial w /\
  (changed (self w0) < changed (self w) \/ (self w = self w0 /\ P)).

(** A test that reads one byte and is INTERESTING when it is at least 2. *)
Definition rejects_small (b : bytes) : Execution :=
  match b with
  | [] =>
      {| ex_index := 1; ex_cost := 0; ex_intervals := [];
         ex_status := OVERRUN |}
  | x :: _ =>
      {| ex_index := 1; ex_cost := 0; ex_intervals := [];
         ex_status := if (2 <=? byte_val x)%nat then INTERESTING else VALID |}
  end.

(** What the engine does to its candidates, step by step, as the trace
    (newest event first) tells it.  A new random candidate ([new_buffer])
    is executed and becomes [last_data]; the acceptor is not asked.  A
    candidate of [incorporate_new_buffer] (a mutated one, or one of a
    shrink pass) that is the buffer of [last_data] is dropped without being
    executed; any other is executed, then the acceptor is asked about it
    and the current [last_data], and it becomes [last_data] exactly when
    the acceptor says yes. *)
Inductive history : list Event -> Prop :=
| history_nil : history []
| history_sweep : forall t, history t -> history (EvSweep :: t)
| history_fresh : forall buf t,
    history t ->
    history (EvFresh (run_test buf) :: EvExecute (run_test buf) :: t)
| history_dropped : forall buf last t,
    history t -> current t = Some last -> buf = buffer last ->
    history (EvPropose buf :: t)
| history_rejected : forall buf last t,
    history t -> current t = Some last -> buf <> buffer last ->
    transition_allowed last (run_test buf) <> Ok true ->
    history (EvConsider last (run_test buf) :: EvExecute (run_test buf)
             :: EvPropose buf :: t)
| history_accepted : forall buf last t,
    history t -> current t = Some last -> buf <> buffer last ->
    transition_allowed last (run_test buf) = Ok true ->
    history (EvReplace last (run_test buf)
             :: EvConsider last (run_test buf) :: EvExecute (run_test buf)
             :: EvPropose buf :: t).

(** The runner has a [last_data], the one its trace tells, and the trace
    is a history. *)
Definition CandInv (w : World) : Prop :=
  (exists d, last_data (self w) = Some d) /\
  last_data (self w) = current (trace w) /\
  history (trace w).



(** The runner with the default settings whose [last_data] is what the
    callback makes of the buffer [b], after [k] accepted candidates, all of
    them shrinks. *)
Definition at_buffer (b : bytes) (k : Z) (w : World) : Prop :=
  settings (self w) = default_settings /\
  last_data (self w) = Some (run_test b) /\
  shrinks (self w) = k /\
  changed (self w) = k.

(** The random bytes of the first candidate of a run with the default
    settings, the candidate, and what the shrink phase makes of it when
    every buffer is INTERESTING. *)
Definition first_random : bytes :=
  map (fun k => byte_of_mod (tape k)) (seq 0 8).

Definition first_candidate : bytes :=
  first_random ++ repeat x00 (Z.to_nat 8184).

Definition zeroing_shrinks : Z :=
  if bytes_eqb first_random (repeat x00 8) then 0 else 1.

Definition shrunk_default : bytes :=
  repeat x00 (Z.to_nat (6192 + zeroing_shrinks)).

(* ================================================================== *)
(** * Bytes and keys *)

Lemma byte_eqb_eq (x y : byte) : Byte.eqb x y = true <-> x = y.
Proof.
  split; [apply Byte.byte_dec_bl | apply Byte.byte_dec_lb].
Qed.

Lemma byte_val_inj (x y : byte) : byte_val x = byte_val y -> x = y.
Proof.
  unfold byte_val. intros H.
  assert (Hx := Byte.of_to_nat x). rewrite H, Byte.of_to_nat in Hx.
  congruence.
Qed.

Lemma byte_val_bounded (x : byte) : (byte_val x <= 255)%nat.
Proof. apply Byte.to_nat_bounded. Qed.

Lemma bytes_eqb_eq (a b : bytes) : bytes_eqb a b = true <-> a = b.
Proof.
  revert b. induction a as [|x a IH]; intros [|y b]; simpl;
    try (split; [discriminate | discriminate]); try tauto.
  rewrite andb_true_iff, byte_eqb_eq, IH. split.
  - intros [-> ->]. reflexivity.
  - intros H. inversion H. auto.
Qed.

Lemma bytes_eqb_refl (a : bytes) : bytes_eqb a a = true.
Proof. apply bytes_eqb_eq. reflexivity. Qed.

Lemma bytes_ltb_lt (a b : bytes) : bytes_ltb a b = true <-> bytes_lt a b.
Proof.
  revert b. induction a as [|x a IH]; intros [|y b]; simpl.
  - split; [discriminate | intros H; inversion H].
  - split; [constructor | reflexivity].
  - split; [discriminate | intros H; inversion H].
  - destruct (Byte.eqb x y) eqn:E.
    + apply byte_eqb_eq in E. subst y. rewrite IH. split.
      * apply bytes_lt_tail.
      * intros H. inversion H; subst; [lia | assumption].
    + rewrite Nat.ltb_lt. split.
      * apply bytes_lt_head.
      * intros H. inversion H; subst; [assumption |].
        rewrite Byte.byte_dec_lb in E by reflexivity. discriminate.
Qed.

Lemma key_ltb_lt (k1 k2 : Key) : key_ltb k1 k2 = true <-> key_lt k1 k2.
Proof.
  destruct k1 as [[[c1 n1] l1] b1], k2 as [[[c2 n2] l2] b2].
  unfold key_ltb, key_lt.
  destruct (Nat.eqb_spec c1 c2) as [->|Hc]; simpl.
  2:{ rewrite Nat.ltb_lt. intuition lia. }
  destruct (Nat.eqb_spec n1 n2) as [->|Hn]; simpl.
  2:{ rewrite Nat.ltb_lt. intuition lia. }
  destruct (Nat.eqb_spec l1 l2) as [->|Hl]; simpl.
  2:{ rewrite Nat.ltb_lt. intuition lia. }
  rewrite bytes_ltb_lt. intuition lia.
Qed.

Lemma bytes_number_bound (b : bytes) :
  (bytes_number b < 256 ^ length b)%nat.
Proof.
  induction b as [|x b IH]; simpl bytes_number; simpl length.
  - simpl. lia.
  - pose proof (byte_val_bounded x). rewrite Nat.pow_succ_r'. nia.
Qed.

Lemma bytes_lt_number (a b : bytes) :
  length a = length b -> bytes_lt a b ->
  (bytes_number a < bytes_number b)%nat.
Proof.
  intros Hlen Hlt. induction Hlt as [y b|x y a b Hxy|x a b Hlt IH].
  - discriminate Hlen.
  - simpl in Hlen. injection Hlen as Hlen. simpl bytes_number.
    rewrite Hlen.
    pose proof (bytes_number_bound a) as Ha. rewrite Hlen in Ha.
    pose proof (bytes_number_bound b) as Hb. nia.
  - simpl in Hlen. injection Hlen as Hlen. simpl bytes_number.
    rewrite Hlen. specialize (IH Hlen). lia.
Qed.

(** The order on interest keys of [TestData] is well-founded: cost, number
    of intervals and length are natural numbers, and among buffers of one
    length the lexicographic order is the order of the numbers they
    spell. *)
Lemma interest_lt_well_founded : well_founded interest_lt.
Proof.
  apply wf_incl with
    (R2 := fun a b =>
       slexprod nat (nat * (nat * nat)) lt
         (slexprod nat (nat * nat) lt (slexprod nat nat lt lt))
         (interest_measure a) (interest_measure b)).
  - intros a b H. unfold interest_lt, interest_key, key_lt in H.
    unfold interest_measure.
    destruct H as [H|[-> [H|[-> [H|[Hl H]]]]]].
    + apply left_slex. exact H.
    + apply right_slex, left_slex. exact H.
    + apply right_slex, right_slex, left_slex. exact H.
    + rewrite Hl. apply right_slex, right_slex, right_slex.
      apply bytes_lt_number; assumption.
  - apply wf_inverse_image.
    repeat apply wf_slexprod; apply lt_wf.
Qed.

Lemma status_value_inj (a b : Status) :
  status_value a = status_value b -> a = b.
Proof. destruct a, b; simpl; intros H; try reflexivity; discriminate. Qed.

Lemma status_eqb_eq (a b : Status) : status_eqb a b = true <-> a = b.
Proof.
  unfold status_eqb. rewrite Z.eqb_eq. split.
  - apply status_value_inj.
  - intros ->. reflexivity.
Qed.

Lemma status_value_max (a : Status) : status_value a <= 3.
Proof. destruct a; simpl; lia. Qed.

(* ================================================================== *)
(** * The acceptor *)

(** An accepted transition never lowers the status, and from INTERESTING
    it leads to a strictly smaller INTERESTING key. *)
Lemma transition_allowed_true (last data : TestData) :
  transition_allowed last data = Ok true ->
  status_value (status last) <= status_value (status data) /\
  (status last = INTERESTING ->
   status data = INTERESTING /\
   (length (buffer data) <= length (buffer last))%nat /\
   key_lt (interest_key data) (interest_key last)).
Proof.
  unfold transition_allowed, status_ltb.
  destruct (Z.ltb_spec (status_value (status last)) (status_value (status data)))
    as [Hlt|Hge].
  - intros _. split; [lia|]. intros Hl. rewrite Hl in Hlt.
    pose proof (status_value_max (status data)). simpl in Hlt. lia.
  - destruct (Z.ltb_spec (status_value (status data)) (status_value (status last)))
      as [Hlt'|Hge']; [discriminate|].
    assert (Heq : status data = status last) by (apply status_value_inj; lia).
    intros H. split; [lia|]. intros Hl. rewrite Heq, Hl in H. simpl in H.
    split; [congruence|].
    destruct (Nat.leb_spec (length (buffer data)) (length (buffer last)));
      [|discriminate].
    split; [assumption|]. apply key_ltb_lt. injection H. auto.
Qed.

(** C2: for all frozen [last] and [candidate] that meet the precondition of
    the INTERESTING row, the acceptor returns a verdict, and the verdict is
    the one of the table of section 4.3: accept on a higher status, reject
    on a lower one; on equal INVALID accept iff [candidate.index >=
    last.index]; on equal OVERRUN accept iff [candidate.index <=
    last.index]; on equal INTERESTING accept iff the candidate is strictly
    better in the order of the specification, the lexicographic order of
    the tuples (cost, number of intervals, buffer length, buffer bytes),
    which is what the code's comparison of [interest_key]s comes to; on
    equal VALID accept. *)
Theorem acceptor_follows_table (last candidate : TestData) :
  table_precondition last candidate ->
  exists accept,
    transition_allowed last candidate = Ok accept /\
    table_verdict last candidate accept.
Proof.
  unfold table_precondition, table_verdict, transition_allowed, status_ltb.
  intros Hpre.
  destruct (Z.ltb_spec (status_value (status last))
                       (status_value (status candidate))) as [Hlt|Hge].
  { exists true. split; [reflexivity|].
    split; [reflexivity|]. split; [lia|].
    repeat split; try reflexivity;
      try (intros; exfalso;
           match goal with H : status candidate = status last |- _ =>
             rewrite H in Hlt; lia end). }
  destruct (Z.ltb_spec (status_value (status candidate))
                       (status_value (status last))) as [Hlt'|Hge'].
  { exists false. split; [reflexivity|].
    split; [lia|]. split; [reflexivity|].
    repeat split;
      try (intros; exfalso;
           match goal with H : status candidate = status last |- _ =>
             rewrite H in Hlt'; lia end). }
  assert (Heq : status candidate = status last)
    by (apply status_value_inj; lia).
  rewrite <- Heq in *. clear Hge Hge'.
  destruct (status candidate) eqn:Hs; simpl.
  - eexists. split; [reflexivity|].
    split; [lia|]. split; [lia|].
    repeat split; try discriminate; try reflexivity;
      rewrite Nat.leb_le; lia.
  - eexists. split; [reflexivity|].
    split; [lia|]. split; [lia|].
    repeat split; try discriminate; try reflexivity;
      rewrite Nat.leb_le; lia.
  - exists true. split; [reflexivity|].
    split; [lia|]. split; [lia|].
    repeat split; try discriminate; reflexivity.
  - assert (Hlen : (length (buffer candidate) <= length (buffer last))%nat)
      by (apply Hpre; reflexivity).
    apply Nat.leb_le in Hlen. rewrite Hlen.
    eexists. split; [reflexivity|].
    split; [lia|]. split; [lia|].
    repeat split; try discriminate; try reflexivity;
      apply (key_ltb_lt (interest_key candidate) (interest_key last)).
Qed.

(* ================================================================== *)
(** * Closed forms of the runner's methods *)

Lemma bind_emit (B : Type) (e : Event) (k : unit -> M B) fuel w :
  bind (emit e) k fuel w = k tt fuel (add_events [e] w).
Proof. reflexivity. Qed.

Lemma bind_gets (A B : Type) (f : TestRunner -> A) (k : A -> M B) fuel w :
  bind (gets f) k fuel w = k (f (self w)) fuel w.
Proof. reflexivity. Qed.

Lemma bind_modify (B : Type) (f : TestRunner -> TestRunner) (k : unit -> M B)
    fuel w :
  bind (modify f) k fuel w =
  k tt fuel {| self := f (self w); rand_pos := rand_pos w; trace := trace w |}.
Proof. reflexivity. Qed.

Lemma bind_ret (A B : Type) (a : A) (k : A -> M B) fuel w :
  bind (ret a) k fuel w = k a fuel w.
Proof. reflexivity. Qed.

Lemma bind_get_last_data (B : Type) (k : TestData -> M B) fuel w d :
  last_data (self w) = Some d ->
  bind get_last_data k fuel w = k d fuel w.
Proof.
  intros H. unfold get_last_data, bind, gets. rewrite H. reflexivity.
Qed.

Lemma bind_assoc (A B C : Type) (m : M A) (k : A -> M B) (h : B -> M C)
    fuel w :
  bind (bind m k) h fuel w = bind m (fun a => bind (k a) h) fuel w.
Proof.
  unfold bind. destruct (m fuel w) as [[a|e|] w']; reflexivity.
Qed.

Lemma incorporate_new_buffer_eq (buf : bytes) (fuel : nat) (w : World)
    (last : TestData) :
  last_data (self w) = Some last ->
  incorporate_new_buffer buf fuel w =
  if bytes_eqb buf (buffer last) then (Ok false, add_events [EvPropose buf] w)
  else
    let data := run_test buf in
    let seen := [EvConsider last data; EvExecute data; EvPropose buf] in
    match transition_allowed last data with
    | Ok true =>
        let r := accept_runner last data (self w) in
        (if max_shrinks (settings r) <=? shrinks r
         then Raise StopShrinking else Ok true,
         {| self := r; rand_pos := rand_pos w;
            trace := EvReplace last data :: seen ++ trace w |})
    | Ok false => (Ok false, add_events seen w)
    | Raise e => (Raise e, add_events seen w)
    | OutOfFuel => (OutOfFuel, add_events seen w)
    end.
Proof.
  intros Hl.
  unfold incorporate_new_buffer.
  rewrite bind_emit, (@bind_get_last_data _ _ _ _ last) by exact Hl.
  destruct (bytes_eqb buf (buffer last)); [reflexivity|].
  unfold test_function, consider_new_test_data.
  rewrite bind_assoc, bind_emit, bind_ret, bind_assoc.
  rewrite (@bind_get_last_data _ _ _ _ last) by exact Hl.
  rewrite bind_assoc, bind_emit.
  unfold bind at 1, lift_res.
  cbv zeta.
  destruct (transition_allowed last (run_test buf)) as [[|]|e|];
    try reflexivity.
  rewrite (@bind_get_last_data _ _ _ _ last) by exact Hl.
  unfold update_fill_size.
  destruct (status_eqb (status last) INTERESTING) eqn:Hs.
  - rewrite bind_modify, bind_emit, bind_modify, bind_assoc.
    rewrite (@bind_get_last_data _ _ _ _ (run_test buf)) by reflexivity.
    rewrite bind_modify, bind_modify, bind_gets, bind_gets.
    unfold accept_runner. rewrite Hs. simpl.
    destruct (_ <=? _); reflexivity.
  - rewrite bind_ret, bind_emit, bind_modify, bind_assoc.
    rewrite (@bind_get_last_data _ _ _ _ (run_test buf)) by reflexivity.
    rewrite bind_modify, bind_modify, bind_gets, bind_gets.
    unfold accept_runner. rewrite Hs. simpl.
    destruct (_ <=? _); reflexivity.
Qed.

(** C10: a buffer equal to [self.last_data.buffer] is rejected at once:
    [incorporate_new_buffer] returns [False], the test callback is not
    executed (the only event is the proposal itself), and the runner
    ([last_data], [changed], [shrinks] and all) is left as it was. *)
Theorem incorporate_same_buffer_rejected (buf : bytes) (fuel : nat)
    (w : World) (last : TestData) :
  last_data (self w) = Some last ->
  buf = buffer last ->
  incorporate_new_buffer buf fuel w =
  (Ok false,
   {| self := self w; rand_pos := rand_pos w;
      trace := EvPropose buf :: trace w |}).
Proof.
  intros Hl ->.
  rewrite (incorporate_new_buffer_eq _ fuel w Hl), bytes_eqb_refl.
  reflexivity.
Qed.

(* ================================================================== *)
(** * Rules of total correctness *)

Section TotalRules.

Context {A : Type}.
Variable Q : A -> World -> Prop.
Variable E : exn -> World -> Prop.

Lemma twp_ret (a : A) w : Q a w -> twp (ret a) Q E w.
Proof. intros H. exists 0%nat, (Ok a), w. split; [reflexivity | exact H]. Qed.

Lemma twp_raise (e : exn) w : E e w -> twp (@raise A e) Q E w.
Proof. intros H. exists 0%nat, (Raise e), w. split; [reflexivity | exact H]. Qed.

Lemma twp_conseq (m : M A) (Q' : A -> World -> Prop)
    (E' : exn -> World -> Prop) w :
  twp m Q' E' w ->
  (forall a w', Q' a w' -> Q a w') ->
  (forall e w', E' e w' -> E e w') ->
  twp m Q E w.
Proof.
  intros (n & r & w' & Hrun & Hpost) HQ HE.
  exists n, r, w'. split; [exact Hrun|].
  destruct r; auto.
Qed.

Lemma twp_bind (B : Type) (m : M B) (k : B -> M A) w :
  twp m (fun b w' => twp (k b) Q E w') E w -> twp (bind m k) Q E w.
Proof.
  intros (n & r & w' & Hrun & Hpost).
  destruct r as [b|e|]; [|exists n, (Raise e), w'|contradiction].
  - destruct Hpost as (n2 & r2 & w2 & Hrun2 & Hpost2).
    exists (Nat.max n n2), r2, w2. split; [|exact Hpost2].
    intros fuel Hf. unfold bind.
    rewrite Hrun by lia. apply Hrun2. lia.
  - split; [|exact Hpost].
    intros fuel Hf. unfold bind. rewrite Hrun by lia. reflexivity.
Qed.

End TotalRules.

Lemma twp_seq (A B : Type) (m : M A) (k : A -> M B)
    (Qm : A -> World -> Prop) (Q : B -> World -> Prop) E w :
  twp m Qm E w ->
  (forall a w', Qm a w' -> twp (k a) Q E w') ->
  twp (bind m k) Q E w.
Proof.
  intros Hm Hk. apply twp_bind.
  eapply twp_conseq; [exact Hm| |auto]. exact Hk.
Qed.

Lemma twp_gets (A : Type) (f : TestRunner -> A) (Q : A -> World -> Prop)
    E w :
  Q (f (self w)) w -> twp (gets f) Q E w.
Proof.
  intros H. exists 0%nat, (Ok (f (self w))), w. split; [reflexivity|exact H].
Qed.

Lemma twp_get_last_data (Q : TestData -> World -> Prop) E w d :
  last_data (self w) = Some d -> Q d w -> twp get_last_data Q E w.
Proof.
  intros Hl H. exists 0%nat, (Ok d), w. split; [|exact H].
  intros fuel _. unfold get_last_data, bind, gets. rewrite Hl. reflexivity.
Qed.

Lemma twp_getitem (A : Type) (l : list A) (i : nat)
    (Q : A -> World -> Prop) E w :
  (i < length l)%nat ->
  (forall x, nth_error l i = Some x -> Q x w) ->
  twp (getitem l i) Q E w.
Proof.
  intros Hi H. unfold getitem.
  destruct (nth_error l i) as [x|] eqn:Hn.
  - apply twp_ret. auto.
  - apply nth_error_None in Hn. lia.
Qed.

Lemma twp_byte_of (n : nat) (Q : byte -> World -> Prop) E w :
  (n <= 255)%nat ->
  (forall b, byte_val b = n -> Q b w) ->
  twp (byte_of n) Q E w.
Proof.
  intros Hn H. unfold byte_of.
  destruct (Byte.of_nat n) as [b|] eqn:Hb.
  - apply twp_ret. apply H. apply Byte.to_of_nat. exact Hb.
  - apply Byte.of_nat_None_iff in Hb. lia.
Qed.

Lemma twp_emit (e : Event) (Q : unit -> World -> Prop) E w :
  Q tt (add_events [e] w) -> twp (emit e) Q E w.
Proof.
  intros H. exists 0%nat, (Ok tt), (add_events [e] w).
  split; [reflexivity|exact H].
Qed.

Lemma twp_urandom (n : Z) (Q : bytes -> World -> Prop) E w :
  0 <= n ->
  (forall bs w', length bs = Z.to_nat n -> self w' = self w ->
                 trace w' = trace w -> Q bs w') ->
  twp (urandom n) Q E w.
Proof.
  intros Hn H. unfold urandom.
  destruct (Z.ltb_spec n 0); [lia|].
  eexists 0%nat, (Ok _), _. split; [reflexivity|].
  apply H; simpl; try reflexivity.
  rewrite length_map, length_seq. reflexivity.
Qed.

(** The rule of [while]: an invariant, and a measure that decreases in the
    lexicographic order at each iteration. *)
Lemma twp_iterate (L : Type) (cond : L -> M bool) (body : L -> M (flow L))
    (I : L -> World -> Prop) (mu : L -> World -> nat * nat)
    (Q : L -> World -> Prop) (E : exn -> World -> Prop) :
  (forall l w, I l w ->
     twp (cond l)
       (fun b w1 =>
          if b then
            twp (body l)
              (fun f w2 =>
                 match f with
                 | Next l' =>
                     I l' w2 /\ slexprod nat nat lt lt (mu l' w2) (mu l w)
                 | Break l' => Q l' w2
                 end) E w1
          else Q l w1) E w) ->
  forall p l w, mu l w = p -> I l w ->
    exists n r w',
      (forall fuel k, (n <= fuel)%nat -> (n <= k)%nat ->
                      iterate k cond body l fuel w = (r, w')) /\
      match r with
      | Ok a => Q a w'
      | Raise e => E e w'
      | OutOfFuel => False
      end.
Proof.
  intros Hstep p.
  induction p as [p IH]
    using (well_founded_induction (wf_slexprod nat nat lt lt lt_wf lt_wf)).
  intros l w Hp HI.
  destruct (Hstep l w HI) as (n1 & r1 & w1 & Hrun1 & Hpost1).
  destruct r1 as [[|]|e|]; [| | |contradiction].
  - destruct Hpost1 as (n2 & r2 & w2 & Hrun2 & Hpost2).
    destruct r2 as [[l'|l']|e|]; [| | |contradiction].
    + destruct Hpost2 as [HI' Hdec].
      rewrite Hp in Hdec.
      destruct (IH _ Hdec l' w2 eq_refl HI') as (n3 & r3 & w3 & Hrun3 & Hpost3).
      exists (S (Nat.max n1 (Nat.max n2 n3))), r3, w3.
      split; [|exact Hpost3].
      intros fuel k Hf Hk. destruct k as [|k]; [lia|]. simpl.
      rewrite Hrun1, Hrun2 by lia. apply Hrun3; lia.
    + exists (S (Nat.max n1 n2)), (Ok l'), w2. split; [|exact Hpost2].
      intros fuel k Hf Hk. destruct k as [|k]; [lia|]. simpl.
      rewrite Hrun1, Hrun2 by lia. reflexivity.
    + exists (S (Nat.max n1 n2)), (Raise e), w2. split; [|exact Hpost2].
      intros fuel k Hf Hk. destruct k as [|k]; [lia|]. simpl.
      rewrite Hrun1, Hrun2 by lia. reflexivity.
  - exists (S n1), (Ok l), w1. split; [|exact Hpost1].
    intros fuel k Hf Hk. destruct k as [|k]; [lia|]. simpl.
    rewrite Hrun1 by lia. reflexivity.
  - exists (S n1), (Raise e), w1. split; [|exact Hpost1].
    intros fuel k Hf Hk. destruct k as [|k]; [lia|]. simpl.
    rewrite Hrun1 by lia. reflexivity.
Qed.

Lemma twp_while (L : Type) (cond : L -> M bool) (body : L -> M (flow L))
    (I : L -> World -> Prop) (mu : L -> World -> nat * nat)
    (Q : L -> World -> Prop) (E : exn -> World -> Prop) l w :
  I l w ->
  (forall l w, I l w ->
     twp (cond l)
       (fun b w1 =>
          if b then
            twp (body l)
              (fun f w2 =>
                 match f with
                 | Next l' =>
                     I l' w2 /\ slexprod nat nat lt lt (mu l' w2) (mu l w)
                 | Break l' => Q l' w2
                 end) E w1
          else Q l w1) E w) ->
  twp (while cond body l) Q E w.
Proof.
  intros HI Hstep.
  destruct (@twp_iterate _ cond body I mu Q E Hstep _ l w eq_refl HI)
    as (n & r & w' & Hrun & Hpost).
  exists n, r, w'. split; [|exact Hpost].
  intros fuel Hf. unfold while. apply Hrun; lia.
Qed.

(** The rule of [for]: an invariant that holds between the iterations. *)
Lemma twp_for_each (A L : Type) (xs : list A) (body : A -> L -> M (flow L))
    (J : L -> World -> Prop) (Q : L -> World -> Prop)
    (E : exn -> World -> Prop) l w :
  J l w ->
  (forall x l w, In x xs -> J l w ->
     twp (body x l)
       (fun f w' =>
          match f with
          | Next l' => J l' w'
          | Break l' => Q l' w'
          end) E w) ->
  (forall l w, J l w -> Q l w) ->
  twp (for_each xs body l) Q E w.
Proof.
  intros HJ Hbody Hend. revert l w HJ.
  induction xs as [|x xs IH]; intros l w HJ; simpl.
  - apply twp_ret. auto.
  - apply twp_bind.
    eapply twp_conseq; [apply (Hbody x l w); [left; reflexivity|exact HJ]| |auto].
    intros [l'|l'] w' H.
    + apply IH; [|exact H]. intros; apply Hbody; [right|]; assumption.
    + apply twp_ret. exact H.
Qed.

(* ================================================================== *)
(** * The shrink phase: invariant, progress and termination *)

Lemma no_replace_nil : no_replace [].
Proof. intros a b H. inversion H. Qed.

Lemma no_replace_app (t1 t2 : list Event) :
  no_replace t1 -> no_replace t2 -> no_replace (t1 ++ t2).
Proof.
  intros H1 H2 a b H. apply in_app_or in H. destruct H; [eapply H1|eapply H2]; eauto.
Qed.

Lemma quiet_refl (w : World) : quiet w w.
Proof. split; [reflexivity|]. exists []. split; [reflexivity|apply no_replace_nil]. Qed.

Lemma quiet_trans (w0 w1 w2 : World) : quiet w0 w1 -> quiet w1 w2 -> quiet w0 w2.
Proof.
  intros [Hs1 (t1 & Ht1 & Hn1)] [Hs2 (t2 & Ht2 & Hn2)].
  split; [congruence|]. exists (t2 ++ t1). split.
  - rewrite Ht2, Ht1, app_assoc. reflexivity.
  - apply no_replace_app; assumption.
Qed.

Lemma quiet_same (w w' : World) :
  self w' = self w -> trace w' = trace w -> quiet w w'.
Proof.
  intros Hs Ht. split; [exact Hs|]. exists [].
  split; [exact Ht|apply no_replace_nil].
Qed.

Lemma evolves_refl (w : World) : evolves w w.
Proof. left. apply quiet_refl. Qed.

Lemma evolves_trans (w0 w1 w2 : World) :
  evolves w0 w1 -> evolves w1 w2 -> evolves w0 w2.
Proof.
  intros [H1|H1] [H2|H2].
  - left. eapply quiet_trans; eassumption.
  - right. destruct H1 as [Hs _]. unfold advanced in *. rewrite <- Hs. exact H2.
  - right. destruct H2 as [Hs _]. unfold advanced in *. rewrite Hs. exact H1.
  - right. unfold advanced in *. intuition (try congruence; try lia).
Qed.

Lemma measure_decreases (L : Type) (V : L -> TestRunner -> nat) l l' w w' :
  evolves w w' ->
  (self w' = self w -> (V l' (self w) < V l (self w))%nat) ->
  slexprod nat nat lt lt (measure V l' w') (measure V l w).
Proof.
  intros [[Hs _]|(_ & Hb & _)] HV; unfold measure.
  - rewrite Hs. apply right_slex. auto.
  - apply left_slex. exact Hb.
Qed.

Section ShrinkPhase.

(** Modelled from the spec: the interval integrity of [TestData]
    ([0 <= start <= end] for each recorded interval). *)
Hypothesis intervals_ordered :
  forall b u v, In (u, v) (ex_intervals (callback b)) -> (u <= v)%nat.

Variable K : Z.

Lemma ShrinkInv_self (w w' : World) :
  self w' = self w -> ShrinkInv K w -> ShrinkInv K w'.
Proof. unfold ShrinkInv. intros ->. auto. Qed.

Lemma ShrinkInv_quiet (w w' : World) :
  quiet w w' -> ShrinkInv K w -> ShrinkInv K w'.
Proof. intros [Hs _]. apply ShrinkInv_self. exact Hs. Qed.

(** [incorporate_new_buffer] during the shrink phase, for a candidate that
    is no longer than the current buffer (and at most one byte shorter when
    there are no intervals). *)
Lemma twp_incorporate (buf : bytes) (Q : bool -> World -> Prop) w d :
  ShrinkInv K w ->
  last_data (self w) = Some d ->
  (length buf <= length (buffer d))%nat ->
  (intervals d = [] -> (length (buffer d) <= S (length buf))%nat) ->
  (forall w', quiet w w' -> Q false w') ->
  (forall w', ShrinkInv K w' -> advanced w w' ->
              last_data (self w') = Some (run_test buf) -> Q true w') ->
  twp (incorporate_new_buffer buf) Q (ShrinkStop K) w.
Proof.
  intros (d' & Hl' & Hst & (b0 & Hb0) & Hch & Hsh & Hbound & HK) Hl Hlen Hnear
    Hfalse Htrue.
  replace d' with d in * by congruence. clear Hl'.
  assert (Hq : forall t, no_replace t -> quiet w (add_events t w)).
  { intros t Ht. split; [reflexivity|]. exists t. split; [reflexivity|exact Ht]. }
  assert (Hseen : forall x y z,
             no_replace [EvConsider x y; EvExecute y; EvPropose z]).
  { intros x y z a b [Hx|[Hx|[Hx|[]]]]; discriminate. }
  exists 0%nat.
  pose proof (fun fuel => incorporate_new_buffer_eq buf fuel w Hl) as Heq.
  destruct (bytes_eqb buf (buffer d)).
  { exists (Ok false), (add_events [EvPropose buf] w). split; [intros; apply Heq|].
    apply Hfalse, Hq. intros a b [Hx|[]]; discriminate. }
  cbv zeta in Heq.
  assert (Hta : transition_allowed d (run_test buf) =
                if status_eqb (status (run_test buf)) INTERESTING
                then Ok (key_ltb (interest_key (run_test buf)) (interest_key d))
                else Ok false).
  { unfold transition_allowed, status_ltb. rewrite Hst.
    pose proof (status_value_max (status (run_test buf))) as Hmax.
    destruct (Z.ltb_spec (status_value INTERESTING)
                (status_value (status (run_test buf)))) as [H|H];
      [change (status_value INTERESTING) with 3 in H; lia|].
    destruct (Z.ltb_spec (status_value (status (run_test buf)))
                (status_value INTERESTING)) as [H'|H'].
    - destruct (status_eqb (status (run_test buf)) INTERESTING) eqn:He;
        [|reflexivity].
      apply status_eqb_eq in He. rewrite He in H'. lia.
    - assert (He : status (run_test buf) = INTERESTING)
        by (apply status_value_inj; change (status_value INTERESTING) with 3 in *; lia).
      rewrite He. simpl.
      destruct (Nat.leb_spec (length buf) (length (buffer d))); [reflexivity|lia]. }
  rewrite Hta in Heq.
  destruct (status_eqb (status (run_test buf)) INTERESTING) eqn:He.
  2:{ eexists (Ok false), _. split; [intros; apply Heq|].
      apply Hfalse, Hq, Hseen. }
  destruct (key_ltb (interest_key (run_test buf)) (interest_key d)).
  2:{ eexists (Ok false), _. split; [intros; apply Heq|].
      apply Hfalse, Hq, Hseen. }
  apply status_eqb_eq in He.
  assert (Hsh' : shrinks (accept_runner d (run_test buf) (self w))
                 = shrinks (self w) + 1).
  { unfold accept_runner. simpl. rewrite Hst. reflexivity. }
  assert (HK' : (forall b, ex_intervals (callback b) = []) ->
                K <= Z.of_nat (length buf) + (shrinks (self w) + 1)).
  { intros Hno. specialize (HK Hno).
    assert (Hnil : intervals d = []) by (rewrite Hb0; apply Hno).
    specialize (Hnear Hnil). lia. }
  destruct (Z.leb_spec
              (max_shrinks (settings (accept_runner d (run_test buf) (self w))))
              (shrinks (accept_runner d (run_test buf) (self w)))) as [Hge|Hlt].
  - eexists (Raise StopShrinking), _. split; [intros; apply Heq|].
    split; [reflexivity|]. exists (run_test buf). simpl.
    rewrite Hst. simpl. simpl in Hge. rewrite Hst in Hge. simpl in Hge.
    repeat split; auto; lia.
  - eexists (Ok true), _. split; [intros; apply Heq|].
    simpl in Hlt. rewrite Hst in Hlt. simpl in Hlt.
    apply Htrue.
    + exists (run_test buf). simpl. rewrite Hst. simpl.
      repeat split; auto; try lia. exists buf. reflexivity.
    + unfold advanced, budget. simpl. rewrite Hst. simpl.
      repeat split; lia.
    + reflexivity.
Qed.

Lemma evolves_changed_le (w w' : World) :
  evolves w w' -> changed (self w) <= changed (self w').
Proof. intros [[-> _]|(_ & _ & H & _)]; lia. Qed.

Lemma evolves_quiet_r (h w w' : World) :
  evolves h w -> self w' = self w -> trace w' = trace w -> evolves h w'.
Proof.
  intros He Hs Ht. eapply evolves_trans; [exact He|].
  left. apply quiet_same; assumption.
Qed.

Lemma twp_incorporate_at (h : World) (buf : bytes) (Q : bool -> World -> Prop)
    w d :
  ShrinkInv K w -> evolves h w ->
  last_data (self w) = Some d ->
  (length buf <= length (buffer d))%nat ->
  (intervals d = [] -> (length (buffer d) <= S (length buf))%nat) ->
  (forall w', ShrinkInv K w' -> evolves h w' -> self w' = self w ->
              Q false w') ->
  (forall w', ShrinkInv K w' -> evolves h w' ->
              changed (self h) < changed (self w') ->
              last_data (self w') = Some (run_test buf) -> Q true w') ->
  twp (incorporate_new_buffer buf) Q (ShrinkStop K) w.
Proof.
  intros Hinv Hev Hl Hlen Hnear Hfalse Htrue.
  apply twp_incorporate with (d := d); auto.
  - intros w' Hq. apply Hfalse.
    + eapply ShrinkInv_quiet; eassumption.
    + eapply evolves_trans; [exact Hev|left; exact Hq].
    + apply Hq.
  - intros w' Hinv' Hadv Hnew. apply Htrue.
    + exact Hinv'.
    + eapply evolves_trans; [exact Hev|right; exact Hadv].
    + apply evolves_changed_le in Hev. destruct Hadv as (_ & _ & H & _). lia.
    + exact Hnew.
Qed.

Lemma twp_urandom_at (h : World) (n : Z) (Q : bytes -> World -> Prop) E w :
  ShrinkInv K w -> evolves h w -> 0 <= n ->
  (forall bs w', length bs = Z.to_nat n -> ShrinkInv K w' -> evolves h w' ->
                 self w' = self w -> Q bs w') ->
  twp (urandom n) Q E w.
Proof.
  intros Hinv Hev Hn H. apply twp_urandom; [exact Hn|].
  intros bs w' Hlen Hs Ht. apply H; auto.
  - eapply ShrinkInv_self; eassumption.
  - eapply evolves_quiet_r; eassumption.
Qed.

(** The rule of [while] in the shrink phase: the condition [c] is a read of
    the runner, [J] an invariant of the loop's own, and the variant [V]
    decreases in every iteration that left the runner alone. *)
Lemma shrink_while (L : Type) (cond : L -> M bool) (body : L -> M (flow L))
    (c : L -> TestRunner -> bool) (V : L -> TestRunner -> nat)
    (J : L -> World -> Prop) l0 w0 :
  (forall l w Q, ShrinkInv K w -> Q (c l (self w)) w ->
                 twp (cond l) Q (ShrinkStop K) w) ->
  (forall l w, ShrinkInv K w -> J l w -> c l (self w) = true ->
     twp (body l)
       (fun f w' =>
          ShrinkInv K w' /\ evolves w w' /\
          match f with
          | Next l' =>
              J l' w' /\
              (self w' = self w -> (V l' (self w) < V l (self w))%nat)
          | Break _ => True
          end) (ShrinkStop K) w) ->
  ShrinkInv K w0 -> J l0 w0 ->
  twp (while cond body l0) (fun _ w => ShrinkInv K w /\ evolves w0 w)
    (ShrinkStop K) w0.
Proof.
  intros Hcond Hbody H0 HJ0.
  apply twp_while with
    (I := fun (l : L) w => ShrinkInv K w /\ evolves w0 w /\ J l w)
    (mu := measure V).
  { split; [exact H0|split; [apply evolves_refl|exact HJ0]]. }
  intros l w (Hinv & Hev & HJ).
  apply Hcond; [exact Hinv|].
  destruct (c l (self w)) eqn:Hc; [|split; assumption].
  eapply twp_conseq; [apply Hbody; assumption| |auto].
  intros [l'|l'] w' (Hinv' & Hev' & Hdec).
  - destruct Hdec as [HJ' Hdec].
    split; [split; [exact Hinv'|split; [eapply evolves_trans; eassumption|exact HJ']]|].
    apply measure_decreases; assumption.
  - split; [exact Hinv'|eapply evolves_trans; eassumption].
Qed.

(** The rule of [for] in the shrink phase. *)
Lemma shrink_for (A : Type) (xs : list A) (body : A -> unit -> M (flow unit))
    w0 :
  (forall x w, In x xs -> ShrinkInv K w ->
     twp (body x tt) (fun _ w' => ShrinkInv K w' /\ evolves w w')
       (ShrinkStop K) w) ->
  ShrinkInv K w0 ->
  twp (for_each xs body tt) (fun _ w => ShrinkInv K w /\ evolves w0 w)
    (ShrinkStop K) w0.
Proof.
  intros Hbody H0.
  apply twp_for_each with (J := fun (_ : unit) w => ShrinkInv K w /\ evolves w0 w).
  - split; [exact H0|apply evolves_refl].
  - intros x [] w Hin [Hinv Hev].
    eapply twp_conseq; [apply Hbody; assumption| |auto].
    intros f w' [Hinv' Hev'].
    assert (ShrinkInv K w' /\ evolves w0 w')
      by (split; [exact Hinv'|eapply evolves_trans; eassumption]).
    destruct f as [[]|[]]; assumption.
  - intros [] w H. exact H.
Qed.

Lemma steady_bind (A B : Type) (m : M A) (k : A -> M B) :
  steady K m -> (forall a, steady K (k a)) -> steady K (bind m k).
Proof.
  intros Hm Hk w Hinv. apply twp_bind.
  eapply twp_conseq; [apply Hm; exact Hinv| |auto].
  intros a w' [Hinv' Hev'].
  eapply twp_conseq; [apply Hk; exact Hinv'| |auto].
  intros b w'' [Hinv'' Hev'']. split; [exact Hinv''|].
  eapply evolves_trans; eassumption.
Qed.

Lemma steady_ret (A : Type) (a : A) : steady K (ret a).
Proof. intros w Hinv. apply twp_ret. split; [exact Hinv|apply evolves_refl]. Qed.

Lemma twp_steady_at (A : Type) (m : M A) (h : World)
    (Q : A -> World -> Prop) w :
  steady K m -> ShrinkInv K w -> evolves h w ->
  (forall a w', ShrinkInv K w' -> evolves h w' -> evolves w w' -> Q a w') ->
  twp m Q (ShrinkStop K) w.
Proof.
  intros Hm Hinv Hev H.
  eapply twp_conseq; [apply Hm; exact Hinv| |auto].
  intros a w' [Hinv' Hev']. apply H; auto.
  eapply evolves_trans; eassumption.
Qed.

Lemma evolves_same_self (w w' : World) :
  evolves w w' -> changed (self w') = changed (self w) -> self w' = self w.
Proof. intros [[Hs _]|(_ & _ & H & _)] Hc; [exact Hs|lia]. Qed.

(* ------------------------------------------------------------------ *)
(** ** Lengths of the candidates *)

Lemma length_sorted (l : bytes) : length (sorted l) = length l.
Proof.
  assert (Hins : forall x l', length (insert_sorted x l') = S (length l')).
  { intros x l'. induction l' as [|y l' IH]; simpl; [reflexivity|].
    destruct (_ <=? _)%nat; simpl; [reflexivity|]. rewrite IH. reflexivity. }
  induction l as [|x l IH]; simpl; [reflexivity|].
  rewrite Hins, IH. reflexivity.
Qed.

Lemma length_slice (buf : bytes) (u v : nat) :
  length (slice buf u v) = Nat.min (v - u) (length buf - u).
Proof. unfold slice. rewrite length_firstn, length_skipn. reflexivity. Qed.

Ltac lengths :=
  repeat rewrite ?length_app, ?length_firstn, ?length_skipn, ?repeat_length,
    ?length_sorted, ?length_slice, ?length_cons in *;
  simpl length in *; try lia.

Lemma cond_last_data (f : TestData -> bool) (Q : bool -> World -> Prop) E w :
  ShrinkInv K w ->
  Q (match last_data (self w) with Some d => f d | None => false end) w ->
  twp (d <- get_last_data ;; ret (f d)) Q E w.
Proof.
  intros (d & Hl & _) H. rewrite Hl in H.
  apply twp_bind. eapply twp_get_last_data; [exact Hl|]. apply twp_ret. exact H.
Qed.

Lemma ShrinkInv_intervals (w : World) (d : TestData) (u v : nat) :
  ShrinkInv K w -> last_data (self w) = Some d ->
  In (u, v) (intervals d) -> (u <= v)%nat.
Proof.
  intros (d' & Hl & _ & (b & Hb) & _) Hl' Hin.
  replace d' with d in * by congruence. subst d.
  eapply intervals_ordered. exact Hin.
Qed.

Ltac last_data_of H d Hl :=
  let H' := fresh in
  pose proof H as H'; destruct H' as (d & Hl & _).

(* ------------------------------------------------------------------ *)
(** ** The passes *)

Lemma delete_intervals_inner_steady :
  steady K
    (while (fun i =>
              d <- get_last_data ;;
              ret (i <? length (intervals d))%nat)
       (fun i =>
          d <- get_last_data ;;
          uv <- getitem (intervals d) i ;;
          ok <- incorporate_new_buffer
                  (firstn (fst uv) (buffer d) ++ skipn (snd uv) (buffer d)) ;;
          ret (Next (if ok then i else (i + 1)%nat)))
       0%nat).
Proof.
  intros w0 H0.
  apply shrink_while with
    (c := fun i r => match last_data r with
                     | Some d => (i <? length (intervals d))%nat
                     | None => false
                     end)
    (V := fun i r => match last_data r with
                     | Some d => (length (intervals d) - i)%nat
                     | None => 0%nat
                     end)
    (J := fun _ _ => True); [| |exact H0|exact I].
  { intros l w Q Hinv HQ. apply cond_last_data; assumption. }
  intros i w Hinv _ Hc.
  last_data_of Hinv d Hl. rewrite Hl in Hc |- *. apply Nat.ltb_lt in Hc.
  apply twp_bind. eapply twp_get_last_data; [exact Hl|].
  apply twp_bind. apply twp_getitem; [exact Hc|]. intros [u v] Huv.
  apply nth_error_In in Huv.
  assert (Huv' : (u <= v)%nat) by (eapply ShrinkInv_intervals; eassumption).
  apply twp_bind. simpl fst. simpl snd.
  apply (twp_incorporate_at (h := w)) with (d := d); auto using evolves_refl.
  - lengths.
  - intros Hnil. rewrite Hnil in Huv. destruct Huv.
  - intros w' Hinv' Hev' Hs. apply twp_ret.
    split; [exact Hinv'|]. split; [exact Hev'|]. split; [exact I|]. lia.
  - intros w' Hinv' Hev' Hch _. apply twp_ret.
    split; [exact Hinv'|]. split; [exact Hev'|]. split; [exact I|].
    intros Hs. rewrite Hs in Hch. lia.
Qed.

Lemma steady_gets (A : Type) (f : TestRunner -> A) : steady K (gets f).
Proof.
  intros w Hinv. apply twp_gets. cbv beta.
  split; [exact Hinv|apply evolves_refl].
Qed.

Lemma delete_intervals_steady : steady K delete_intervals.
Proof.
  unfold delete_intervals.
  apply steady_bind; [|intros; apply steady_ret].
  intros w0 H0.
  apply shrink_while with
    (c := fun icc r => icc <? changed r)
    (V := fun icc r => if icc <? changed r then 1%nat else 0%nat)
    (J := fun _ _ => True); [| |exact H0|exact I].
  { intros l w Q Hinv HQ. apply twp_bind, twp_gets, twp_ret. exact HQ. }
  intros icc w Hinv _ Hc.
  apply twp_bind, twp_gets. apply twp_bind.
  apply twp_steady_at with (h := w);
    auto using evolves_refl, delete_intervals_inner_steady.
  intros _ w' Hinv' Hev' _. apply twp_ret.
  split; [exact Hinv'|]. split; [exact Hev'|]. split; [exact I|].
  intros Hs. rewrite Hc, Z.ltb_irrefl. lia.
Qed.

Ltac read_last d Hl :=
  apply twp_bind; eapply twp_get_last_data; [exact Hl|]; cbv zeta.

Ltac ret_steady :=
  intros; apply twp_ret; cbv beta; split; [assumption|auto using evolves_refl].

(** After the last step of a loop body: the invariant, the progress and the
    variant. *)
Ltac ret_next :=
  intros; apply twp_ret; cbv beta;
  split; [assumption|];
  split; [auto using evolves_refl|];
  split; [auto|];
  let Hs := fresh "Hs" in
  intros Hs;
  try match goal with
      | H : changed _ < changed _ |- _ => rewrite Hs in H; lia
      end;
  try lia.

Lemma sort_intervals_steady : steady K sort_intervals.
Proof.
  unfold sort_intervals.
  apply steady_bind; [|intros; apply steady_ret].
  intros w0 H0.
  apply shrink_while with
    (c := fun i r => match last_data r with
                     | Some d => (i <? length (intervals d))%nat
                     | None => false
                     end)
    (V := fun i r => match last_data r with
                     | Some d => (length (intervals d) - i)%nat
                     | None => 0%nat
                     end)
    (J := fun _ _ => True); [| |exact H0|exact I].
  { intros l w Q Hinv HQ. apply cond_last_data; assumption. }
  intros i w Hinv _ Hc.
  last_data_of Hinv d Hl. rewrite Hl in Hc |- *. apply Nat.ltb_lt in Hc.
  read_last d Hl.
  apply twp_bind. apply twp_getitem; [exact Hc|]. intros [u v] Huv.
  apply nth_error_In in Huv.
  assert (Huv' : (u <= v)%nat) by (eapply ShrinkInv_intervals; eassumption).
  simpl fst. simpl snd. apply twp_bind.
  apply twp_incorporate_at with (h := w) (d := d); auto using evolves_refl.
  - lengths.
  - intros _. lengths.
  - ret_next.
  - ret_next.
Qed.

Lemma zero_windows_steady : steady K zero_windows.
Proof.
  unfold zero_windows. cbv zeta. intros w0 H0.
  last_data_of H0 d0 Hl0.
  read_last d0 Hl0. apply twp_bind.
  eapply twp_conseq; [apply shrink_for; [|exact H0]| |auto].
  2:{ intros a w' H. apply twp_ret. exact H. }
  intros i w _ Hinv.
  last_data_of Hinv d Hl. read_last d Hl.
  destruct (Nat.ltb_spec (length (buffer d)) (i + 8)); [ret_steady|].
  apply twp_bind.
  apply twp_incorporate_at with (h := w) (d := d); auto using evolves_refl.
  - lengths.
  - intros _. lengths.
  - ret_steady.
  - ret_steady.
Qed.

Lemma swap_adjacent_steady : steady K swap_adjacent.
Proof.
  unfold swap_adjacent.
  apply steady_bind; [|intros; apply steady_ret].
  intros w0 H0.
  apply shrink_while with
    (c := fun i r => match last_data r with
                     | Some d => (i + 1 <? length (buffer d))%nat
                     | None => false
                     end)
    (V := fun i r => match last_data r with
                     | Some d => (length (buffer d) - i)%nat
                     | None => 0%nat
                     end)
    (J := fun _ _ => True); [| |exact H0|exact I].
  { intros l w Q Hinv HQ. apply cond_last_data; assumption. }
  intros i w Hinv _ Hc.
  last_data_of Hinv d Hl. rewrite Hl in Hc |- *. apply Nat.ltb_lt in Hc.
  read_last d Hl.
  apply twp_bind. apply twp_getitem; [lia|]. intros bi Hbi.
  apply twp_bind. apply twp_getitem; [lia|]. intros bj Hbj.
  apply twp_bind.
  destruct (byte_val bj <? byte_val bi)%nat.
  - apply twp_bind.
    apply twp_incorporate_at with (h := w) (d := d); auto using evolves_refl.
    + lengths.
    + intros _. lengths.
    + intros w' Hinv' Hev' Hs. apply twp_ret. ret_next.
    + intros w' Hinv' Hev' Hch _. apply twp_ret. ret_next.
  - apply twp_ret. ret_next.
Qed.

Lemma shrink_while_at (L : Type) (cond : L -> M bool) (body : L -> M (flow L))
    (c : L -> TestRunner -> bool) (V : L -> TestRunner -> nat)
    (J : L -> World -> Prop) (Q : L -> World -> Prop) h l0 w0 :
  (forall l w Q, ShrinkInv K w -> Q (c l (self w)) w ->
                 twp (cond l) Q (ShrinkStop K) w) ->
  (forall l w, ShrinkInv K w -> J l w -> c l (self w) = true ->
     twp (body l)
       (fun f w' =>
          ShrinkInv K w' /\ evolves w w' /\
          match f with
          | Next l' =>
              J l' w' /\
              (self w' = self w -> (V l' (self w) < V l (self w))%nat)
          | Break _ => True
          end) (ShrinkStop K) w) ->
  ShrinkInv K w0 -> J l0 w0 -> evolves h w0 ->
  (forall l w, ShrinkInv K w -> evolves h w -> Q l w) ->
  twp (while cond body l0) Q (ShrinkStop K) w0.
Proof.
  intros Hcond Hbody H0 HJ0 Hev HQ.
  eapply twp_conseq;
    [apply shrink_while with (c := c) (V := V) (J := J); eassumption| |auto].
  intros l w [Hinv Hev']. apply HQ; [exact Hinv|].
  eapply evolves_trans; eassumption.
Qed.

Lemma in_seq_lt (c n : nat) : In c (seq 0 n) -> (c < n)%nat.
Proof. intros H. apply in_seq in H. lia. Qed.

Lemma reduce_bytes_steady : steady K reduce_bytes.
Proof.
  unfold reduce_bytes.
  apply steady_bind; [|intros; apply steady_ret].
  intros w0 H0.
  apply shrink_while with
    (c := fun i r => match last_data r with
                     | Some d => (i <? length (buffer d))%nat
                     | None => false
                     end)
    (V := fun i r => match last_data r with
                     | Some d => (length (buffer d) - i)%nat
                     | None => 0%nat
                     end)
    (J := fun _ _ => True); [| |exact H0|exact I].
  { intros l w Q Hinv HQ. apply cond_last_data; assumption. }
  intros i w Hinv _ Hc.
  last_data_of Hinv d Hl. rewrite Hl in Hc |- *. apply Nat.ltb_lt in Hc.
  read_last d Hl.
  apply twp_bind.
  apply twp_incorporate_at with (h := w) (d := d); auto using evolves_refl.
  { lengths. }
  { intros _. lengths. }
  2:{ intros w' Hinv' Hev' Hch _. apply twp_bind, twp_ret. ret_next. }
  intros w1 Hinv1 Hev1 Hs1.
  apply twp_bind. apply twp_bind.
  apply twp_getitem; [exact Hc|]. intros bi Hbi.
  eapply twp_seq with (Qm := fun (_ : unit) w' => ShrinkInv K w' /\ evolves w w').
  apply twp_for_each with
    (J := fun (_ : unit) w' =>
            ShrinkInv K w' /\ evolves w w' /\ self w' = self w).
  - auto.
  - intros c [] w2 Hin (Hinv2 & Hev2 & Hs2).
    apply in_seq_lt in Hin. pose proof (byte_val_bounded bi).
    assert (Hl2 : last_data (self w2) = Some d) by (rewrite Hs2; exact Hl).
    apply twp_bind. apply twp_byte_of; [lia|]. intros bc _.
    apply twp_bind.
    apply twp_incorporate_at with (h := w) (d := d); auto.
    { lengths. }
    { intros _. lengths. }
    2:{ intros. apply twp_ret. auto. }
    intros w3 Hinv3 Hev3 Hs3.
    apply twp_bind.
    apply twp_urandom_at with (h := w); auto; [lia|].
    intros tail w4 Htail Hinv4 Hev4 Hs4.
    apply twp_bind.
    apply twp_incorporate_at with (h := w) (d := d); auto.
    { congruence. }
    { lengths. }
    { intros _. lengths. }
    + intros w5 Hinv5 Hev5 Hs5. apply twp_ret. repeat split; auto. congruence.
    + intros. apply twp_ret. auto.
  - intros [] w' (? & ? & ?). auto.
  - intros [] w' [Hinv' Hev']. apply twp_ret. cbv beta. apply twp_ret.
    cbv beta. repeat split; auto. lia.
Qed.

Lemma borrow_left_steady : steady K borrow_left.
Proof.
  unfold borrow_left.
  apply steady_bind; [|intros; apply steady_ret].
  intros w0 H0.
  apply shrink_while with
    (c := fun i r => match last_data r with
                     | Some d => (i <? length (buffer d))%nat
                     | None => false
                     end)
    (V := fun i r => match last_data r with
                     | Some d => (length (buffer d) - i)%nat
                     | None => 0%nat
                     end)
    (J := fun _ _ => True); [| |exact H0|exact I].
  { intros l w Q Hinv HQ. apply cond_last_data; assumption. }
  intros i w Hinv _ Hc.
  last_data_of Hinv d Hl. rewrite Hl in Hc |- *. apply Nat.ltb_lt in Hc.
  read_last d Hl.
  apply twp_bind.
  apply twp_incorporate_at with (h := w) (d := d); auto using evolves_refl.
  { lengths. }
  { intros _. lengths. }
  2:{ intros w' Hinv' Hev' Hch _. apply twp_bind, twp_ret. ret_next. }
  intros w1 Hinv1 Hev1 Hs1.
  apply twp_bind. apply twp_bind.
  apply twp_getitem; [exact Hc|]. intros bi Hbi.
  destruct (byte_val bi =? 0)%nat; [|apply twp_ret; ret_next].
  eapply twp_seq with (Qm := fun (_ : nat) w' => ShrinkInv K w' /\ evolves w w').
  apply shrink_while_at with
    (c := fun (j : nat) (_ : TestRunner) => (0 <? j)%nat)
    (V := fun (j : nat) (_ : TestRunner) => j)
    (J := fun (j : nat) w' => self w' = self w /\ (j <= i)%nat)
    (h := w); auto.
  - intros j w' Q _ HQ. apply twp_ret. exact HQ.
  - intros j w2 Hinv2 [Hs2 Hj] Hj0. apply Nat.ltb_lt in Hj0.
    assert (Hl2 : last_data (self w2) = Some d) by (rewrite Hs2; exact Hl).
    apply twp_bind. apply twp_getitem; [lia|]. intros bj Hbj.
    pose proof (byte_val_bounded bj).
    destruct (0 <? byte_val bj)%nat.
    + apply twp_bind. apply twp_byte_of; [lia|]. intros b _.
      apply twp_bind.
      apply twp_incorporate_at with (h := w2) (d := d);
        auto using evolves_refl.
      { lengths. }
      { intros _. lengths. }
      * intros. apply twp_ret. auto.
      * intros. apply twp_ret. auto.
    + apply twp_ret. repeat split; auto using evolves_refl; lia.
  - intros j w' [Hinv' Hev']. apply twp_ret. cbv beta. apply twp_ret.
    cbv beta. repeat split; auto. lia.
Qed.

Lemma bucket_pairs_lt (b : list nat) (j k : nat) :
  In (j, k) (bucket_pairs b) -> (j < k)%nat.
Proof.
  unfold bucket_pairs. intros H.
  apply in_flat_map in H. destruct H as (j' & _ & H).
  apply in_flat_map in H. destruct H as (k' & _ & H).
  destruct (Nat.ltb_spec j' k') as [Hlt|]; [|destruct H].
  destruct H as [H|[]]. inversion H; subst. exact Hlt.
Qed.

Lemma indices_lt (buf : bytes) (j k : nat) :
  In (j, k) (indices buf) -> (j < k)%nat.
Proof.
  unfold indices. intros H.
  apply in_flat_map in H. destruct H as (c & _ & H).
  destruct (1 <? length (bucket buf c))%nat; [|destruct H].
  eapply bucket_pairs_lt. exact H.
Qed.

Lemma equal_pairs_steady : steady K equal_pairs.
Proof.
  unfold equal_pairs. intros w0 H0.
  last_data_of H0 d0 Hl0. read_last d0 Hl0.
  eapply twp_seq with
    (Qm := fun (_ : unit) w' => ShrinkInv K w' /\ evolves w0 w').
  2:{ intros a w' HQ. apply twp_ret. exact HQ. }
  apply shrink_for; [|exact H0].
  intros [j k] w Hin Hinv. apply indices_lt in Hin.
  last_data_of Hinv d Hl. read_last d Hl.
  destruct (Nat.leb_spec (length (buffer d)) k); [ret_steady|].
  apply twp_bind. apply twp_getitem; [lia|]. intros bj Hbj.
  apply twp_bind. apply twp_getitem; [lia|]. intros bk Hbk.
  destruct (Byte.eqb bj bk) eqn:Heq; [|ret_steady].
  pose proof (byte_val_bounded bj) as Hbound.
  destruct (Nat.eqb_spec (byte_val bj) 0) as [Hc0|Hc0].
  - (* both bytes are zero: the paired borrow *)
    replace (0 <? byte_val bj)%nat with false
      by (symmetry; apply Nat.ltb_ge; lia).
    eapply twp_seq with
      (Qm := fun (_ : unit) w' => ShrinkInv K w' /\ evolves w w').
    2:{ intros a w' HQ. apply twp_bind, twp_ret, twp_ret. exact HQ. }
    destruct (Nat.ltb_spec 0 j); [|ret_steady].
    apply twp_bind. apply twp_getitem; [lia|]. intros bj1 Hbj1.
    pose proof (byte_val_bounded bj1).
    destruct (Nat.ltb_spec 0 (byte_val bj1)); [|ret_steady].
    apply twp_bind. apply twp_getitem; [lia|]. intros bk1 Hbk1.
    pose proof (byte_val_bounded bk1).
    destruct (Nat.ltb_spec 0 (byte_val bk1)); [|ret_steady].
    assert (Hk : (k - 1)%nat <> j).
    { intros Hk. rewrite Hk in Hbk1. assert (bk1 = bj) by congruence.
      subst bk1. lia. }
    apply twp_bind. apply twp_byte_of; [lia|]. intros x _.
    apply twp_bind. apply twp_byte_of; [lia|]. intros y _.
    apply twp_bind.
    apply twp_incorporate_at with (h := w) (d := d); auto using evolves_refl.
    + lengths.
    + intros _. lengths.
    + ret_steady.
    + ret_steady.
  - (* the bytes are positive: lower both *)
    apply twp_bind, twp_ret. cbv beta.
    replace (0 <? byte_val bj)%nat with true
      by (symmetry; apply Nat.ltb_lt; lia).
    eapply twp_seq with
      (Qm := fun (_ : unit) w' => ShrinkInv K w' /\ evolves w w').
    2:{ intros a w' HQ. apply twp_ret. exact HQ. }
    apply twp_bind. apply twp_byte_of; [lia|]. intros bd _.
    apply twp_bind.
    apply twp_incorporate_at with (h := w) (d := d); auto using evolves_refl.
    + lengths.
    + intros _. lengths.
    + ret_steady.
    + intros w1 Hinv1 Hev1 _ Hl1.
      eapply twp_seq with
        (Qm := fun (_ : unit) w' => ShrinkInv K w' /\ evolves w w').
      2:{ intros a w' HQ. apply twp_ret. exact HQ. }
      apply twp_for_each with
        (J := fun (_ : unit) w' =>
           ShrinkInv K w' /\ evolves w w' /\
           exists d', last_data (self w') = Some d' /\
                      length (buffer d') = length (buffer d)).
      * split; [exact Hinv1|]. split; [exact Hev1|].
        eexists. split; [exact Hl1|]. simpl. lengths.
      * intros c [] w2 Hc (Hinv2 & Hev2 & d2 & Hl2 & Hlen2).
        apply in_seq_lt in Hc.
        read_last d2 Hl2.
        apply twp_bind. apply twp_byte_of; [lia|]. intros bd' _.
        apply twp_bind.
        apply twp_incorporate_at with (h := w) (d := d2); auto.
        { lengths. }
        { intros _. lengths. }
        -- intros w3 Hinv3 Hev3 Hs3. apply twp_ret.
           split; [exact Hinv3|]. split; [exact Hev3|].
           exists d2. rewrite Hs3. auto.
        -- intros w3 Hinv3 Hev3 _ Hl3. apply twp_ret.
           split; [exact Hinv3|]. split; [exact Hev3|].
           eexists. split; [exact Hl3|]. simpl. lengths.
      * intros [] w' (? & ? & ?). auto.
Qed.

Lemma order_pairs_steady : steady K order_pairs.
Proof.
  unfold order_pairs. intros w0 H0.
  last_data_of H0 d0 Hl0. read_last d0 Hl0.
  eapply twp_seq with
    (Qm := fun (_ : unit) w' => ShrinkInv K w' /\ evolves w0 w').
  2:{ intros a w' HQ. apply twp_ret. exact HQ. }
  apply shrink_for; [|exact H0].
  intros j w _ Hinv.
  last_data_of Hinv d Hl. read_last d Hl.
  destruct (Nat.leb_spec (length (buffer d)) j); [ret_steady|].
  apply twp_bind. apply twp_getitem; [lia|]. intros bj Hbj.
  destruct (byte_val bj =? 0)%nat; [ret_steady|].
  eapply twp_seq with
    (Qm := fun (_ : unit) w' => ShrinkInv K w' /\ evolves w w').
  2:{ intros a w' HQ. apply twp_ret. exact HQ. }
  apply shrink_for; [|exact Hinv].
  intros k w1 Hk Hinv1. apply in_seq in Hk.
  last_data_of Hinv1 d1 Hl1. read_last d1 Hl1.
  destruct (Nat.leb_spec (length (buffer d1)) k); [ret_steady|].
  apply twp_bind. apply twp_getitem; [lia|]. intros bj1 Hbj1.
  apply twp_bind. apply twp_getitem; [lia|]. intros bk1 Hbk1.
  eapply twp_seq with
    (Qm := fun (_ : unit) w' => ShrinkInv K w' /\ evolves w1 w').
  { destruct (byte_val bk1 <? byte_val bj1)%nat; [|ret_steady].
    apply twp_bind.
    apply twp_incorporate_at with (h := w1) (d := d1);
      auto using evolves_refl.
    - lengths.
    - intros _. lengths.
    - ret_steady.
    - ret_steady. }
  intros [] w2 [Hinv2 Hev2].
  last_data_of Hinv2 d2 Hl2. read_last d2 Hl2.
  destruct (Nat.leb_spec (length (buffer d2)) k); [ret_steady|].
  apply twp_bind. apply twp_getitem; [lia|]. intros bj2 Hbj2.
  apply twp_bind. apply twp_getitem; [lia|]. intros bk2 Hbk2.
  pose proof (byte_val_bounded bj2). pose proof (byte_val_bounded bk2).
  apply twp_bind.
  destruct ((0 <? byte_val bj2)%nat && (0 <? byte_val bk2)%nat);
    [|apply twp_ret; ret_steady].
  apply twp_bind. apply twp_byte_of; [lia|]. intros x _.
  apply twp_bind. apply twp_byte_of; [lia|]. intros y _.
  apply twp_bind.
  apply twp_incorporate_at with (h := w1) (d := d2); auto.
  - lengths.
  - intros _. lengths.
  - intros. apply twp_ret. ret_steady.
  - intros. apply twp_ret. ret_steady.
Qed.

(* ------------------------------------------------------------------ *)
(** ** The outer loop *)

Lemma sweep_total (w : World) :
  ShrinkInv K w ->
  twp sweep
    (fun f w' =>
       ShrinkInv K w' /\ f = Next (changed (self w)) /\
       ((self w' = self w /\
         exists t, trace w' = t ++ EvSweep :: trace w /\ no_replace t) \/
        advanced w w'))
    (ShrinkStop K) w.
Proof.
  intros Hinv. unfold sweep.
  apply twp_bind, twp_emit.
  set (w1 := add_events [EvSweep] w).
  assert (Hs1 : self w1 = self w) by reflexivity.
  assert (Hinv1 : ShrinkInv K w1) by (eapply ShrinkInv_self; eassumption).
  assert (Hend : forall w', evolves w1 w' ->
            (self w' = self w /\
             exists t, trace w' = t ++ EvSweep :: trace w /\ no_replace t) \/
            advanced w w').
  { intros w' [[Hs (t & Ht & Hn)]|Hadv].
    - left. split; [congruence|]. exists t. split; [exact Ht|exact Hn].
    - right. unfold advanced in *. rewrite <- Hs1. exact Hadv. }
  pose proof Hinv1 as (d & Hl & Hst & _).
  read_last d Hl.
  rewrite (proj2 (status_eqb_eq _ _) Hst).
  apply twp_bind, twp_ret. cbv beta.
  apply twp_bind, twp_gets. cbv beta. rewrite Hs1.
  apply twp_bind.
  apply twp_steady_at with (h := w1);
    auto using evolves_refl, delete_intervals_steady.
  intros _ w2 Hinv2 Hev2 _. apply twp_bind.
  apply twp_steady_at with (h := w1); auto using sort_intervals_steady.
  intros _ w3 Hinv3 Hev3 _. apply twp_bind.
  apply twp_steady_at with (h := w1); auto using zero_windows_steady.
  intros _ w4 Hinv4 Hev4 _. apply twp_bind.
  apply twp_steady_at with (h := w1); auto using reduce_bytes_steady.
  intros _ w5 Hinv5 Hev5 _. apply twp_bind.
  apply twp_steady_at with (h := w1); auto using swap_adjacent_steady.
  intros _ w6 Hinv6 Hev6 _.
  apply twp_bind, twp_gets. cbv beta.
  destruct (_ <? _); [apply twp_ret; auto|].
  apply twp_bind.
  apply twp_steady_at with (h := w1); auto using borrow_left_steady.
  intros _ w7 Hinv7 Hev7 _.
  apply twp_bind, twp_gets. cbv beta.
  destruct (_ <? _); [apply twp_ret; auto|].
  apply twp_bind.
  apply twp_steady_at with (h := w1); auto using equal_pairs_steady.
  intros _ w8 Hinv8 Hev8 _.
  apply twp_bind, twp_gets. cbv beta.
  destruct (_ <? _); [apply twp_ret; auto|].
  apply twp_bind.
  apply twp_steady_at with (h := w1); auto using order_pairs_steady.
  intros _ w9 Hinv9 Hev9 _.
  apply twp_ret. auto.
Qed.

(** The shrink phase, entered with no shrink counted yet, terminates: it
    returns after a sweep that accepted nothing (or at once, when
    [max_shrinks] is negative), or it raises [StopShrinking] with the budget
    reached. *)
Lemma shrink_total (w : World) :
  ShrinkInv K w -> shrinks (self w) = 0 ->
  twp shrink
    (fun _ w' =>
       ShrinkInv K w' /\
       (last_sweep_quiet (trace w') \/ max_shrinks (settings (self w')) < 0))
    (ShrinkStop K) w.
Proof.
  intros Hinv Hsh. unfold shrink.
  apply twp_bind, twp_gets. cbv beta.
  set (initial := changed (self w)).
  eapply twp_seq with
    (Qm := fun (_ : Z) w' =>
       ShrinkInv K w' /\
       (last_sweep_quiet (trace w') \/ max_shrinks (settings (self w')) < 0)).
  2:{ intros a w' H. apply twp_ret. exact H. }
  apply twp_while with
    (I := fun cc w' =>
       ShrinkInv K w' /\
       changed (self w') - shrinks (self w') = initial /\
       ((cc = -1 /\ changed (self w') = initial) \/
        cc < changed (self w') \/
        last_sweep_quiet (trace w')))
    (mu := measure (fun cc r =>
             if (changed r <=? initial + max_shrinks (settings r)) &&
                (cc <? changed r)
             then 1%nat else 0%nat)).
  { split; [exact Hinv|]. split; [unfold initial; lia|]. left. auto. }
  intros cc w' (Hinv' & Hdiff & Hcase).
  apply twp_bind, twp_gets. apply twp_bind, twp_gets. apply twp_ret.
  cbv beta.
  destruct ((changed (self w') <=? initial + max_shrinks (settings (self w')))
            && (cc <? changed (self w'))) eqn:Hc.
  - eapply twp_conseq; [apply sweep_total; exact Hinv'| |auto].
    intros f w2 (Hinv2 & -> & Hstep).
    destruct Hstep as [[Hs (t & Ht & Hn)]|Hadv].
    + split.
      * split; [exact Hinv2|]. split; [rewrite Hs; exact Hdiff|].
        right. right. exists t, (trace w'). auto.
      * unfold measure. rewrite Hs, Hc, Z.ltb_irrefl, andb_false_r.
        apply right_slex. lia.
    + split.
      * split; [exact Hinv2|].
        destruct Hadv as (_ & _ & Hlt & Heq).
        split; [lia|]. right. left. exact Hlt.
      * unfold measure. apply left_slex. apply Hadv.
  - split; [exact Hinv'|].
    destruct Hinv' as (d & _ & _ & _ & Hch & Hsh0 & Hbound & _).
    apply andb_false_iff in Hc.
    rewrite Z.leb_gt, Z.ltb_ge in Hc.
    destruct Hcase as [[-> Heq]|[Hlt|Hq]]; [right; lia|right; lia|left; exact Hq].
Qed.

End ShrinkPhase.

(* ================================================================== *)
(** * Fuel *)

Lemma mono_const (A : Type) (m : M A) :
  (forall f1 f2 w, m f1 w = m f2 w) -> mono m.
Proof. intros H f1 f2 w r w' _ Hr _. rewrite <- Hr. symmetry. apply H. Qed.

Lemma mono_ret (A : Type) (a : A) : mono (ret a).
Proof. apply mono_const. reflexivity. Qed.

Lemma mono_raise (A : Type) (e : exn) : mono (@raise A e).
Proof. apply mono_const. reflexivity. Qed.

Lemma mono_gets (A : Type) (f : TestRunner -> A) : mono (gets f).
Proof. apply mono_const. reflexivity. Qed.

Lemma mono_modify (f : TestRunner -> TestRunner) : mono (modify f).
Proof. apply mono_const. reflexivity. Qed.

Lemma mono_emit (e : Event) : mono (emit e).
Proof. apply mono_const. reflexivity. Qed.

Lemma mono_lift_res (A : Type) (r : res A) : mono (lift_res r).
Proof. apply mono_const. reflexivity. Qed.

Lemma mono_random_nat : mono random_nat.
Proof. apply mono_const. reflexivity. Qed.

Lemma mono_bind (A B : Type) (m : M A) (k : A -> M B) :
  mono m -> (forall a, mono (k a)) -> mono (bind m k).
Proof.
  intros Hm Hk f1 f2 w r w' Hf Hr Hne. unfold bind in *.
  destruct (m f1 w) as [[a|e|] w1] eqn:Hm1.
  - rewrite (Hm f1 f2 w (Ok a) w1 Hf Hm1) by discriminate.
    eapply Hk; eassumption.
  - rewrite (Hm f1 f2 w (Raise e) w1 Hf Hm1) by discriminate. exact Hr.
  - inversion Hr; subst. contradiction.
Qed.

Lemma mono_iterate (L : Type) (cond : L -> M bool) (body : L -> M (flow L)) :
  (forall l, mono (cond l)) -> (forall l, mono (body l)) ->
  forall k1 k2 f1 f2 l w r w',
    (k1 <= k2)%nat -> (f1 <= f2)%nat ->
    iterate k1 cond body l f1 w = (r, w') -> r <> OutOfFuel ->
    iterate k2 cond body l f2 w = (r, w').
Proof.
  intros Hc Hb k1.
  induction k1 as [|k1 IH]; intros k2 f1 f2 l w r w' Hk Hf Hr Hne; simpl in Hr.
  { inversion Hr; subst. contradiction. }
  destruct k2 as [|k2]; [lia|]. simpl.
  destruct (cond l f1 w) as [[[|]|e|] w1] eqn:Hc1.
  - rewrite (Hc l f1 f2 w _ w1 Hf Hc1) by discriminate.
    destruct (body l f1 w1) as [[[l'|l']|e|] w2] eqn:Hb1.
    + rewrite (Hb l f1 f2 w1 _ w2 Hf Hb1) by discriminate.
      eapply IH; [| |eassumption|assumption]; lia.
    + rewrite (Hb l f1 f2 w1 _ w2 Hf Hb1) by discriminate. exact Hr.
    + rewrite (Hb l f1 f2 w1 _ w2 Hf Hb1) by discriminate. exact Hr.
    + inversion Hr; subst. contradiction.
  - rewrite (Hc l f1 f2 w _ w1 Hf Hc1) by discriminate. exact Hr.
  - rewrite (Hc l f1 f2 w _ w1 Hf Hc1) by discriminate. exact Hr.
  - inversion Hr; subst. contradiction.
Qed.

Lemma mono_while (L : Type) (cond : L -> M bool) (body : L -> M (flow L)) l :
  (forall l, mono (cond l)) -> (forall l, mono (body l)) ->
  mono (while cond body l).
Proof.
  intros Hc Hb f1 f2 w r w' Hf Hr Hne. unfold while in *.
  eapply mono_iterate; eauto.
Qed.

Lemma mono_for_each (A L : Type) (xs : list A) (body : A -> L -> M (flow L))
    l :
  (forall x l, mono (body x l)) -> mono (for_each xs body l).
Proof.
  intros Hb. revert l. induction xs as [|x xs IH]; intros l; simpl.
  - apply mono_ret.
  - apply mono_bind; [apply Hb|]. intros [l'|l']; [apply IH|apply mono_ret].
Qed.

Lemma mono_except (m : M unit) : mono m -> mono (except_StopShrinking m).
Proof.
  intros Hm f1 f2 w r w' Hf Hr Hne. unfold except_StopShrinking in *.
  destruct (m f1 w) as [[a|e|] w1] eqn:Hm1.
  - rewrite (Hm f1 f2 w _ w1 Hf Hm1) by discriminate. exact Hr.
  - rewrite (Hm f1 f2 w _ w1 Hf Hm1) by discriminate. exact Hr.
  - destruct r; try (inversion Hr; fail). contradiction.
Qed.

Lemma mono_getitem (A : Type) (l : list A) (i : nat) : mono (getitem l i).
Proof.
  apply mono_const. intros. unfold getitem.
  destruct (nth_error l i); reflexivity.
Qed.

Lemma mono_byte_of (n : nat) : mono (byte_of n).
Proof.
  apply mono_const. intros. unfold byte_of.
  destruct (Byte.of_nat n); reflexivity.
Qed.

Lemma mono_zero_bytes (n : Z) : mono (zero_bytes n).
Proof.
  apply mono_const. intros. unfold zero_bytes.
  destruct (n <? 0); reflexivity.
Qed.

Lemma mono_urandom (n : Z) : mono (urandom n).
Proof. apply mono_const. intros. unfold urandom. destruct (n <? 0); reflexivity. Qed.

Ltac mono_step :=
  first
    [ apply mono_ret | apply mono_raise | apply mono_gets | apply mono_modify
    | apply mono_emit | apply mono_lift_res | apply mono_random_nat
    | apply mono_getitem | apply mono_byte_of | apply mono_zero_bytes
    | apply mono_urandom
    | apply mono_bind | apply mono_while | apply mono_for_each
    | apply mono_except
    | match goal with
      | |- mono (if ?b then _ else _) => destruct b
      | |- mono (match ?x with _ => _ end) => destruct x
      | |- mono (let (_, _) := ?x in _) => destruct x
      end
    | assumption ].

Ltac mono_auto := repeat (intros; cbv zeta; mono_step).

Lemma mono_randint (a b : Z) : mono (randint a b).
Proof. unfold randint. mono_auto. Qed.

Lemma mono_choice (A : Type) (l : list A) : mono (choice l).
Proof. unfold choice. mono_auto. Qed.

Lemma mono_get_last_data : mono get_last_data.
Proof. unfold get_last_data. mono_auto. Qed.

Lemma mono_new_buffer : mono new_buffer.
Proof.
  unfold new_buffer, test_function, update_fill_size, get_last_data. mono_auto.
Qed.

Lemma mono_incorporate_new_buffer (buf : bytes) :
  mono (incorporate_new_buffer buf).
Proof.
  unfold incorporate_new_buffer, test_function, consider_new_test_data,
    update_fill_size, get_last_data.
  mono_auto.
Qed.

Lemma mono_mutate_data_to_new_buffer (d : TestData) :
  mono (mutate_data_to_new_buffer d).
Proof.
  unfold mutate_data_to_new_buffer, perturb_bytes, randint, choice.
  mono_auto.
Qed.

Ltac mono_engine :=
  repeat (intros; cbv zeta;
          first [ apply mono_incorporate_new_buffer | apply mono_new_buffer
                | apply mono_get_last_data
                | apply mono_mutate_data_to_new_buffer | mono_step ]).

Lemma mono_shrink : mono shrink.
Proof.
  unfold shrink, sweep, delete_intervals, sort_intervals, zero_windows,
    reduce_bytes, swap_adjacent, borrow_left, equal_pairs, order_pairs.
  mono_engine.
Qed.

Lemma mono_generate : mono generate.
Proof. unfold generate. mono_engine. Qed.

Lemma mono_run : mono run.
Proof.
  unfold run, _run. apply mono_except. apply mono_bind; [apply mono_generate|].
  intros [|]; [apply mono_shrink|apply mono_ret].
Qed.

(* ================================================================== *)
(** * Invariants that hold whatever the fuel *)

Section PartialRules.

Context {A : Type}.
Variable Q : A -> World -> Prop.
Variable E : exn -> World -> Prop.
Variable O : World -> Prop.

Lemma pwp_ret (a : A) w : Q a w -> pwp (ret a) Q E O w.
Proof. intros H fuel r w' Hr. inversion Hr; subst. exact H. Qed.

Lemma pwp_raise (e : exn) w : E e w -> pwp (@raise A e) Q E O w.
Proof. intros H fuel r w' Hr. inversion Hr; subst. exact H. Qed.

Lemma pwp_conseq (m : M A) (Q' : A -> World -> Prop)
    (E' : exn -> World -> Prop) (O' : World -> Prop) w :
  pwp m Q' E' O' w ->
  (forall a w', Q' a w' -> Q a w') ->
  (forall e w', E' e w' -> E e w') ->
  (forall w', O' w' -> O w') ->
  pwp m Q E O w.
Proof.
  intros Hm HQ HE HO fuel r w' Hr. specialize (Hm fuel r w' Hr).
  destruct r; auto.
Qed.

Lemma pwp_bind (B : Type) (m : M B) (k : B -> M A) w :
  pwp m (fun b w' => pwp (k b) Q E O w') E O w -> pwp (bind m k) Q E O w.
Proof.
  intros Hm fuel r w' Hr. unfold bind in Hr.
  destruct (m fuel w) as [[b|e|] w1] eqn:Hm1; specialize (Hm _ _ _ Hm1).
  - exact (Hm fuel r w' Hr).
  - inversion Hr; subst. exact Hm.
  - inversion Hr; subst. exact Hm.
Qed.

End PartialRules.

Lemma pwp_seq (A B : Type) (m : M A) (k : A -> M B)
    (Qm : A -> World -> Prop) (Q : B -> World -> Prop) E O w :
  pwp m Qm E O w ->
  (forall a w', Qm a w' -> pwp (k a) Q E O w') ->
  pwp (bind m k) Q E O w.
Proof.
  intros Hm Hk. apply pwp_bind.
  eapply pwp_conseq; [exact Hm| |auto|auto]. exact Hk.
Qed.

Lemma pwp_gets (A : Type) (f : TestRunner -> A) (Q : A -> World -> Prop)
    E O w :
  Q (f (self w)) w -> pwp (gets f) Q E O w.
Proof. intros H fuel r w' Hr. inversion Hr; subst. exact H. Qed.

Lemma pwp_while (L : Type) (cond : L -> M bool) (body : L -> M (flow L))
    (I : L -> World -> Prop) (Q : L -> World -> Prop)
    (E : exn -> World -> Prop) (O : World -> Prop) l w :
  I l w ->
  (forall l w, I l w -> O w) ->
  (forall l w, I l w ->
     pwp (cond l)
       (fun b w1 =>
          if b then
            pwp (body l)
              (fun f w2 =>
                 match f with
                 | Next l' => I l' w2
                 | Break l' => Q l' w2
                 end) E O w1
          else Q l w1) E O w) ->
  pwp (while cond body l) Q E O w.
Proof.
  intros HI HO Hstep fuel r w' Hr. unfold while in Hr.
  assert (Haux : forall n l w, I l w ->
            iterate n cond body l fuel w = (r, w') ->
            match r with
            | Ok a => Q a w'
            | Raise e => E e w'
            | OutOfFuel => O w'
            end).
  { clear l w HI Hr.
    induction n as [|n IH]; intros l w HI Hr; simpl in Hr.
    { inversion Hr; subst. eapply HO. exact HI. }
    pose proof (Hstep l w HI) as Hc.
    destruct (cond l fuel w) as [[[|]|e|] w1] eqn:Hc1;
      specialize (Hc _ _ _ Hc1).
    - destruct (body l fuel w1) as [[[l'|l']|e|] w2] eqn:Hb1;
        specialize (Hc _ _ _ Hb1).
      + eapply IH; [exact Hc|exact Hr].
      + inversion Hr; subst. exact Hc.
      + inversion Hr; subst. exact Hc.
      + inversion Hr; subst. exact Hc.
    - inversion Hr; subst. exact Hc.
    - inversion Hr; subst. exact Hc.
    - inversion Hr; subst. exact Hc. }
  eapply Haux; eassumption.
Qed.

(** ** Programs that keep an invariant *)

Section Keeps.

Variable I : World -> Prop.
Variable E : exn -> World -> Prop.

Hypothesis I_raise :
  forall e w, e <> StopShrinking -> e <> AssertionError -> I w -> E e w.
Hypothesis I_random :
  forall w n, I w ->
    I {| self := self w; rand_pos := n; trace := trace w |}.

Lemma keeps_ret (A : Type) (a : A) : keeps I E (ret a).
Proof. intros w HI fuel r w' Hr. inversion Hr; subst. exact HI. Qed.

Lemma keeps_raise (A : Type) (e : exn) :
  e <> StopShrinking -> e <> AssertionError -> keeps I E (@raise A e).
Proof.
  intros H1 H2 w HI fuel r w' Hr. inversion Hr; subst. apply I_raise; auto.
Qed.

Lemma keeps_gets (A : Type) (f : TestRunner -> A) : keeps I E (gets f).
Proof. intros w HI fuel r w' Hr. inversion Hr; subst. exact HI. Qed.

Lemma keeps_bind (A B : Type) (m : M A) (k : A -> M B) :
  keeps I E m -> (forall a, keeps I E (k a)) -> keeps I E (bind m k).
Proof.
  intros Hm Hk w HI. apply pwp_bind.
  eapply pwp_conseq; [apply Hm; exact HI| |auto|auto].
  intros a w' HI'. apply Hk. exact HI'.
Qed.

Lemma keeps_while (L : Type) (cond : L -> M bool) (body : L -> M (flow L)) l :
  (forall l, keeps I E (cond l)) -> (forall l, keeps I E (body l)) ->
  keeps I E (while cond body l).
Proof.
  intros Hc Hb w HI. unfold keeps in *.
  apply pwp_while with (I := fun (_ : L) w => I w); auto.
  intros l' w1 HI1.
  eapply pwp_conseq; [apply Hc; exact HI1| |auto|auto].
  intros [|] w2 HI2; [|exact HI2].
  eapply pwp_conseq; [apply Hb; exact HI2| |auto|auto].
  intros [l''|l''] w3 HI3; exact HI3.
Qed.

Lemma keeps_for_each (A L : Type) (xs : list A)
    (body : A -> L -> M (flow L)) l :
  (forall x l, keeps I E (body x l)) -> keeps I E (for_each xs body l).
Proof.
  intros Hb. revert l. induction xs as [|x xs IH]; intros l; simpl.
  - apply keeps_ret.
  - apply keeps_bind; [apply Hb|]. intros [l'|l']; [apply IH|apply keeps_ret].
Qed.

Lemma keeps_getitem (A : Type) (l : list A) (i : nat) :
  keeps I E (getitem l i).
Proof.
  unfold getitem. destruct (nth_error l i);
    [apply keeps_ret|apply keeps_raise; discriminate].
Qed.

Lemma keeps_byte_of (n : nat) : keeps I E (byte_of n).
Proof.
  unfold byte_of. destruct (Byte.of_nat n);
    [apply keeps_ret|apply keeps_raise; discriminate].
Qed.

Lemma keeps_zero_bytes (n : Z) : keeps I E (zero_bytes n).
Proof.
  unfold zero_bytes. destruct (n <? 0);
    [apply keeps_raise; discriminate|apply keeps_ret].
Qed.

Lemma keeps_random_nat : keeps I E random_nat.
Proof.
  intros w HI fuel r w' Hr. inversion Hr; subst. apply I_random. exact HI.
Qed.

Lemma keeps_urandom (n : Z) : keeps I E (urandom n).
Proof.
  unfold urandom. destruct (n <? 0); [apply keeps_raise; discriminate|].
  intros w HI fuel r w' Hr. inversion Hr; subst. apply I_random. exact HI.
Qed.

Lemma keeps_get_last_data : keeps I E get_last_data.
Proof.
  unfold get_last_data. apply keeps_bind; [apply keeps_gets|].
  intros [d|]; [apply keeps_ret|apply keeps_raise; discriminate].
Qed.

Ltac keeps_step :=
  first
    [ apply keeps_ret | apply keeps_gets | apply keeps_getitem
    | apply keeps_byte_of | apply keeps_zero_bytes | apply keeps_random_nat
    | apply keeps_urandom | apply keeps_get_last_data
    | apply keeps_raise; discriminate
    | apply keeps_bind | apply keeps_while | apply keeps_for_each
    | match goal with
      | |- keeps _ _ (if ?b then _ else _) => destruct b
      | |- keeps _ _ (match ?x with _ => _ end) => destruct x
      | |- keeps _ _ (let (_, _) := ?x in _) => destruct x
      end
    | assumption ].

Lemma keeps_randint (a b : Z) : keeps I E (randint a b).
Proof. unfold randint. repeat (intros; cbv zeta; keeps_step). Qed.

Lemma keeps_choice (A : Type) (l : list A) : keeps I E (choice l).
Proof. unfold choice. repeat (intros; cbv zeta; keeps_step). Qed.

Lemma keeps_mutate_data_to_new_buffer (d : TestData) :
  keeps I E (mutate_data_to_new_buffer d).
Proof.
  unfold mutate_data_to_new_buffer, perturb_bytes.
  repeat (intros; cbv zeta;
          first [apply keeps_randint | apply keeps_choice | keeps_step]).
Qed.

(** The shrink phase changes the runner through [incorporate_new_buffer]
    only. *)
Hypothesis I_assert : forall w, I w -> E AssertionError w.
Hypothesis I_sweep : forall w, I w -> I (add_events [EvSweep] w).
Hypothesis I_incorporate :
  forall buf, keeps I E (incorporate_new_buffer buf).

Lemma keeps_shrink : keeps I E shrink.
Proof.
  assert (Hemit : keeps I E (emit EvSweep)).
  { intros w HI fuel r w' Hr. inversion Hr; subst. apply I_sweep. exact HI. }
  assert (Hassert : keeps I E (@raise unit AssertionError)).
  { intros w HI fuel r w' Hr. inversion Hr; subst. apply I_assert. exact HI. }
  unfold shrink, sweep, delete_intervals, sort_intervals, zero_windows,
    reduce_bytes, swap_adjacent, borrow_left, equal_pairs, order_pairs.
  repeat (intros; cbv zeta;
          first [apply I_incorporate | exact Hemit | exact Hassert
                | keeps_step]).
Qed.

End Keeps.

(* ================================================================== *)
(** * The trace of a run *)

Lemma transition_allowed_raise (last data : TestData) (e : exn) :
  transition_allowed last data = Raise e ->
  e = AssertionError /\ status last = INTERESTING /\
  status data = INTERESTING /\
  (length (buffer last) < length (buffer data))%nat.
Proof.
  unfold transition_allowed, status_ltb.
  destruct (Z.ltb_spec (status_value (status last))
              (status_value (status data))); [discriminate|].
  destruct (Z.ltb_spec (status_value (status data))
              (status_value (status last))); [discriminate|].
  assert (Heq : status data = status last) by (apply status_value_inj; lia).
  destruct (status_eqb (status data) INVALID); [discriminate|].
  destruct (status_eqb (status data) OVERRUN); [discriminate|].
  destruct (status_eqb (status data) INTERESTING) eqn:Hi; [|discriminate].
  apply status_eqb_eq in Hi.
  destruct (Nat.leb_spec (length (buffer data)) (length (buffer last)));
    [discriminate|].
  intros H'. inversion H'. repeat split; congruence.
Qed.

Lemma transition_allowed_fuel (last data : TestData) :
  transition_allowed last data <> OutOfFuel.
Proof.
  unfold transition_allowed.
  repeat match goal with
         | |- context [if ?c then _ else _] => destruct c
         end; discriminate.
Qed.

Lemma transition_allowed_below (last data : TestData) (e : exn) :
  status last <> INTERESTING -> transition_allowed last data <> Raise e.
Proof.
  intros Hn H. apply transition_allowed_raise in H. tauto.
Qed.

Lemma incorporate_new_buffer_none (buf : bytes) (fuel : nat) (w : World) :
  last_data (self w) = None ->
  incorporate_new_buffer buf fuel w =
  (Raise AttributeError, add_events [EvPropose buf] w).
Proof.
  intros Hl. unfold incorporate_new_buffer. rewrite bind_emit.
  unfold get_last_data, bind, gets. simpl. rewrite Hl. reflexivity.
Qed.

Lemma considered_ok_cons (e : Event) (t : list Event) :
  considered_ok t ->
  (forall last data, e = EvConsider last data ->
     transition_allowed last data <> Raise AssertionError) ->
  considered_ok (e :: t).
Proof.
  intros Ht He last data [H|H]; [apply He; exact H|apply Ht; exact H].
Qed.

Ltac considered :=
  repeat (apply considered_ok_cons;
          [|let H := fresh in intros ? ? H; try discriminate H]);
  try assumption.

Section TraceInvariant.

Variable s : Settings.

Lemma TraceInv_raise (e : exn) (w : World) :
  e <> StopShrinking -> TraceInv s w -> TraceErr s e w.
Proof.
  intros He (H1 & H2 & H3 & H4 & H5 & H6 & H7).
  unfold TraceErr.
  split; [exact H1|]. split; [exact H2|]. split; [exact H3|].
  split; [exact H4|]. split; [intros _; exact H5|]. split; [lia|].
  intros Hs. contradiction.
Qed.

Lemma TraceInv_random (w : World) (n : nat) :
  TraceInv s w ->
  TraceInv s {| self := self w; rand_pos := n; trace := trace w |}.
Proof. intros H. exact H. Qed.

Lemma TraceInv_sweep (w : World) :
  TraceInv s w -> TraceInv s (add_events [EvSweep] w).
Proof.
  intros (H1 & H2 & H3 & H4 & H5 & H6 & H7).
  repeat split; auto. simpl. considered.
Qed.

Lemma TraceInv_incorporate (buf : bytes) :
  keeps (TraceInv s) (TraceErr s) (incorporate_new_buffer buf).
Proof.
  intros w (H1 & H2 & H3 & H4 & H5 & H6 & H7) fuel r w' Hr.
  destruct (last_data (self w)) as [last|] eqn:Hl.
  2:{ rewrite incorporate_new_buffer_none in Hr by exact Hl.
      inversion Hr; subst. unfold TraceErr. cbn [add_events self trace app].
      split; [reflexivity|]. split; [rewrite ?Hl; exact H2|]. split; [exact H3|].
      split; [exact H4|]. split; [intros _; considered|]. split; [lia|].
      discriminate. }
  rewrite (incorporate_new_buffer_eq buf fuel w Hl) in Hr.
  destruct (bytes_eqb buf (buffer last)).
  { inversion Hr; subst. unfold TraceInv. cbn [add_events self trace app].
    split; [reflexivity|]. split; [rewrite ?Hl; exact H2|]. split; [exact H3|].
    split; [exact H4|]. split; [considered|]. split; assumption. }
  cbv zeta in Hr.
  destruct (transition_allowed last (run_test buf)) as [[|]|e|] eqn:Hta.
  - (* accepted *)
    assert (Htr : trace_ok
              (EvReplace last (run_test buf)
               :: [EvConsider last (run_test buf); EvExecute (run_test buf);
                   EvPropose buf] ++ trace w)).
    { cbn [trace_ok app current installs].
      split; [congruence|]. split; [exact Hta|].
      split; [eexists; reflexivity|exact H4]. }
    assert (Hco : considered_ok
              (EvReplace last (run_test buf)
               :: [EvConsider last (run_test buf); EvExecute (run_test buf);
                   EvPropose buf] ++ trace w)).
    { simpl. considered.
      match goal with H : EvConsider _ _ = EvConsider _ _ |- _ =>
        inversion H; subst end.
      rewrite Hta. discriminate. }
    assert (Hsh : shrinks (accept_runner last (run_test buf) (self w)) =
                  count_shrinks
                    (EvReplace last (run_test buf)
                     :: [EvConsider last (run_test buf);
                         EvExecute (run_test buf); EvPropose buf] ++ trace w)).
    { simpl. destruct (status_eqb (status last) INTERESTING); lia. }
    assert (Hle : shrinks (self w) <=
                  shrinks (accept_runner last (run_test buf) (self w)) <=
                  shrinks (self w) + 1).
    { simpl. destruct (status_eqb (status last) INTERESTING); lia. }
    destruct (Z.leb_spec
                (max_shrinks
                   (settings (accept_runner last (run_test buf) (self w))))
                (shrinks (accept_runner last (run_test buf) (self w))))
      as [Hge|Hlt]; inversion Hr; subst; simpl in Hge || simpl in Hlt.
    + unfold TraceErr. cbn [self trace].
      split; [reflexivity|]. split; [reflexivity|]. split; [exact Hsh|].
      split; [exact Htr|]. split; [intros _; exact Hco|].
      split; [lia|]. intros _. split; [exact Hge|].
      do 3 eexists. split; reflexivity.
    + unfold TraceInv. cbn [self trace].
      split; [reflexivity|]. split; [reflexivity|]. split; [exact Hsh|].
      split; [exact Htr|]. split; [exact Hco|]. split; [lia|].
      left. exact Hlt.
  - (* rejected *)
    inversion Hr; subst. unfold TraceInv. cbn [add_events self trace app].
    split; [reflexivity|]. split; [rewrite ?Hl; exact H2|]. split; [exact H3|].
    split; [exact H4|]. split; [|split; assumption].
    considered.
    match goal with H : EvConsider _ _ = EvConsider _ _ |- _ =>
      inversion H; subst end.
    rewrite Hta. discriminate.
  - (* the assertion *)
    pose proof (transition_allowed_raise _ _ Hta) as (-> & _).
    inversion Hr; subst. unfold TraceErr. cbn [add_events self trace app].
    split; [reflexivity|]. split; [rewrite ?Hl; exact H2|]. split; [exact H3|].
    split; [exact H4|]. split; [intros Hne; contradiction|].
    split; [lia|]. discriminate.
  - exfalso. eapply transition_allowed_fuel. exact Hta.
Qed.

Lemma TraceInv_shrink : keeps (TraceInv s) (TraceErr s) shrink.
Proof.
  apply keeps_shrink.
  - intros e w H1 _ H. apply TraceInv_raise; assumption.
  - apply TraceInv_random.
  - intros w H. apply TraceInv_raise; [discriminate|exact H].
  - apply TraceInv_sweep.
  - apply TraceInv_incorporate.
Qed.

End TraceInvariant.

(* ================================================================== *)
(** * The generation phase *)

Lemma new_buffer_eq (fuel : nat) (w : World) :
  new_buffer fuel w =
  let fill := fill_size (self w) in
  let size := buffer_size (settings (self w)) in
  if fill <? 0 then (Raise ValueError, w)
  else
    let rnd := map (fun k => byte_of_mod (tape (rand_pos w + k)))
                   (seq 0 (Z.to_nat fill)) in
    let pos := (rand_pos w + Z.to_nat fill)%nat in
    if size - fill <? 0 then
      (Raise ValueError,
       {| self := self w; rand_pos := pos; trace := trace w |})
    else
      let data := run_test (rnd ++ repeat x00 (Z.to_nat (size - fill))) in
      (Ok tt,
       {| self :=
            with_fill_size
              (Z.min (Z.max fill (Z.of_nat (index data) * 2)) size)
              (with_last_data data (self w));
          rand_pos := pos;
          trace := EvFresh data :: EvExecute data :: trace w |}).
Proof.
  unfold new_buffer. rewrite !bind_gets. cbv zeta.
  unfold urandom, zero_bytes.
  destruct (fill_size (self w) <? 0); [reflexivity|].
  unfold bind at 1.
  destruct (buffer_size (settings (self w)) - fill_size (self w) <? 0);
    [reflexivity|].
  reflexivity.
Qed.

Lemma pwp_get_last_data (Q : TestData -> World -> Prop) E O w :
  (forall d, last_data (self w) = Some d -> Q d w) ->
  (last_data (self w) = None -> E AttributeError w) ->
  pwp get_last_data Q E O w.
Proof.
  intros HS HN fuel r w' Hr. unfold get_last_data, bind, gets in Hr.
  destruct (last_data (self w)) as [d|]; inversion Hr; subst; auto.
Qed.

Section Generation.

Variable s : Settings.

Lemma GenInv_init : GenInv s (World_init s).
Proof.
  unfold GenInv, TraceInv, World_init, TestRunner_init. simpl.
  repeat split; auto; try lia; try discriminate.
  intros last data [].
Qed.

Lemma TraceErr_weaken (e : exn) (w : World) :
  TraceInv s w -> e <> StopShrinking -> e <> AssertionError -> GenErr s e w.
Proof.
  intros H H1 H2. split; [apply TraceInv_raise; assumption|exact H2].
Qed.

Lemma new_buffer_generation (w : World) :
  GenInv s w -> searching w ->
  pwp new_buffer (fun _ => GenInv s) (GenErr s) (GenInv s) w.
Proof.
  intros (HT & Hsh & Hch & Hfrom) Hsearch fuel r w' Hr.
  pose proof HT as (H1 & H2 & H3 & H4 & H5 & H6 & H7).
  rewrite new_buffer_eq in Hr. cbv zeta in Hr.
  destruct (fill_size (self w) <? 0).
  { inversion Hr; subst r w'. apply TraceErr_weaken; auto; discriminate. }
  destruct (_ <? 0).
  { inversion Hr; subst r w'. apply TraceErr_weaken; auto; discriminate. }
  inversion Hr; subst r w'. clear Hr.
  unfold GenInv, TraceInv. cbn [self trace with_fill_size with_last_data
    settings last_data shrinks changed current installs count_shrinks trace_ok].
  split; [|split; [exact Hsh|split; [exact Hch|]]].
  - split; [exact H1|]. split; [reflexivity|]. split; [exact H3|].
    split; [|split; [|split; assumption]].
    + split; [|split; [eexists; reflexivity|exact H4]].
      intros d Hd. apply Hsearch. congruence.
    + considered.
  - intros d Hd. inversion Hd. eexists. reflexivity.
Qed.

Lemma incorporate_generation (buf : bytes) (w : World) :
  GenInv s w -> searching w ->
  pwp (incorporate_new_buffer buf) (fun _ => GenInv s) (GenErr s) (GenInv s) w.
Proof.
  intros HG Hsearch fuel r w' Hr.
  pose proof HG as (HT & Hsh & Hch & Hfrom).
  pose proof (TraceInv_incorporate buf HT fuel Hr) as Hkeep.
  destruct (last_data (self w)) as [last|] eqn:Hl.
  2:{ rewrite incorporate_new_buffer_none in Hr by exact Hl.
      inversion Hr; subst r w'. split; [exact Hkeep|discriminate]. }
  assert (Hni : status last <> INTERESTING) by (apply Hsearch; exact Hl).
  rewrite (incorporate_new_buffer_eq buf fuel w Hl) in Hr.
  assert (Hsame : forall t, GenInv s w -> TraceInv s (add_events t w) ->
                            GenInv s (add_events t w)).
  { intros t (_ & ? & ? & ?) HT'. split; [exact HT'|]. simpl.
    rewrite Hl. auto. }
  destruct (bytes_eqb buf (buffer last)).
  { inversion Hr; subst r w'. apply Hsame; [exact HG|exact Hkeep]. }
  cbv zeta in Hr.
  destruct (transition_allowed last (run_test buf)) as [[|]|e|] eqn:Hta.
  - assert (Hs' : shrinks (accept_runner last (run_test buf) (self w)) = 0).
    { simpl. destruct (status_eqb (status last) INTERESTING) eqn:Hst;
        [apply status_eqb_eq in Hst; contradiction|exact Hsh]. }
    destruct (_ <=? _); inversion Hr; subst r w'.
    + split; [exact Hkeep|discriminate].
    + split; [exact Hkeep|]. cbn [self].
      split; [exact Hs'|]. split; [simpl; lia|].
      intros d Hd. inversion Hd. eexists. reflexivity.
  - inversion Hr; subst r w'. apply Hsame; [exact HG|exact Hkeep].
  - exfalso. eapply transition_allowed_below; eassumption.
  - exfalso. eapply transition_allowed_fuel. exact Hta.
Qed.

Lemma mutate_generation (d : TestData) (w : World) :
  GenInv s w -> searching w ->
  pwp (mutate_data_to_new_buffer d)
    (fun _ w' => GenInv s w' /\ searching w') (GenErr s)
    (GenInv s) w.
Proof.
  intros HG Hsearch.
  eapply pwp_conseq;
    [apply (@keeps_mutate_data_to_new_buffer
              (fun w' => GenInv s w' /\ searching w')
              (fun e w' => GenErr s e w'))| | |].
  - intros e w' H1 H2 [(HT & _) _]. apply TraceErr_weaken; assumption.
  - intros w' n H. exact H.
  - split; assumption.
  - auto.
  - auto.
  - intros w' [H _]. exact H.
Qed.

(** The first loop of [_run]: it keeps the invariant, never trips the
    acceptor's assertion, and leaves with [true] only on an INTERESTING
    [last_data]. *)
Lemma generate_spec :
  pwp generate
    (fun found w' =>
       GenInv s w' /\
       (found = true ->
        exists d, last_data (self w') = Some d /\ status d = INTERESTING))
    (GenErr s) (GenInv s) (World_init s).
Proof.
  unfold generate.
  eapply pwp_seq with (Qm := fun (_ : unit) => GenInv s).
  { apply new_buffer_generation; [apply GenInv_init|].
    intros d Hd. discriminate. }
  intros u w1 HG1.
  eapply pwp_seq with
    (Qm := fun (st : Z * Z * bool) w' =>
       GenInv s w' /\
       (snd st = false ->
        exists d, last_data (self w') = Some d /\ status d = INTERESTING)).
  2:{ intros st w' [HG Hst]. apply pwp_ret. split; [exact HG|].
      intros Hn. apply Hst. destruct (snd st); [discriminate|reflexivity]. }
  apply pwp_while with
    (I := fun (st : Z * Z * bool) w' => GenInv s w' /\ snd st = false).
  { split; [exact HG1|reflexivity]. }
  { intros st w' [HG _]. exact HG. }
  intros [[mutations_ generation] returned] w [HG Hret]. simpl in Hret.
  subst returned.
  assert (Hnone : last_data (self w) = None -> GenErr s AttributeError w).
  { intros _. apply TraceErr_weaken; try discriminate. apply HG. }
  apply pwp_bind. apply pwp_get_last_data; [|exact Hnone].
  intros d Hl. apply pwp_ret.
  destruct (status_eqb (status d) INTERESTING) eqn:Hst; simpl.
  { apply status_eqb_eq in Hst. split; [exact HG|]. intros _. eauto. }
  assert (Hsearch : searching w).
  { intros d' Hd'. rewrite Hl in Hd'. inversion Hd'; subst d'.
    intros Hi. apply status_eqb_eq in Hi. congruence. }
  apply pwp_bind, pwp_gets. cbv beta.
  destruct (_ <=? mutations_).
  - cbv zeta. apply pwp_bind, pwp_gets. cbv beta.
    destruct (_ <=? generation + 1).
    { apply pwp_ret. split; [exact HG|]. simpl. discriminate. }
    apply pwp_bind. apply pwp_get_last_data; [|exact Hnone].
    intros d2 Hl2.
    eapply pwp_seq; [apply mutate_generation; assumption|].
    intros buf w3 [HG3 Hs3].
    eapply pwp_seq; [apply incorporate_generation; assumption|].
    intros ok w4 HG4. apply pwp_ret. split; [exact HG4|reflexivity].
  - eapply pwp_seq; [apply new_buffer_generation; assumption|].
    intros u' w3 HG3. apply pwp_ret. split; [exact HG3|reflexivity].
Qed.

End Generation.

(* ================================================================== *)
(** * Whole runs *)

Lemma trace_ok_app (t2 t1 : list Event) : trace_ok (t2 ++ t1) -> trace_ok t1.
Proof.
  induction t2 as [|e t2 IH]; simpl; [auto|].
  destruct e; intros H; apply IH; try exact H; apply H.
Qed.

Lemma _run_trace (s : Settings) :
  pwp _run (fun _ => TraceInv s) (TraceErr s) (TraceInv s) (World_init s).
Proof.
  unfold _run.
  eapply pwp_seq with (Qm := fun (_ : bool) => TraceInv s).
  { eapply pwp_conseq; [apply generate_spec| | |].
    - intros a w' [H _]. apply H.
    - intros e w' [H _]. exact H.
    - intros w' H. apply H. }
  intros [|] w' HT.
  - apply TraceInv_shrink. exact HT.
  - apply pwp_ret. exact HT.
Qed.

Lemma TraceInv_err (s : Settings) (w : World) :
  TraceInv s w -> TraceErr s ValueError w.
Proof. apply TraceInv_raise. discriminate. Qed.

(** What holds of the runner and its trace after [run], whatever the fuel
    and whatever the result. *)
Lemma run_trace (s : Settings) (fuel : nat) (r : res unit) (w' : World) :
  run fuel (World_init s) = (r, w') ->
  r <> Raise StopShrinking /\
  settings (self w') = s /\
  last_data (self w') = current (trace w') /\
  shrinks (self w') = count_shrinks (trace w') /\
  trace_ok (trace w') /\
  0 <= shrinks (self w') <= Z.max (max_shrinks s) 1.
Proof.
  unfold run, except_StopShrinking. intros Hr.
  destruct (_run fuel (World_init s)) as [r1 w1] eqn:Hrun.
  pose proof (@_run_trace s fuel r1 w1 Hrun) as H.
  assert (Hw : TraceErr s ValueError w1 \/ exists e, TraceErr s e w1).
  { destruct r1; [left; apply TraceInv_err; exact H|right; eauto|
                  left; apply TraceInv_err; exact H]. }
  assert (Hall : settings (self w1) = s /\
                 last_data (self w1) = current (trace w1) /\
                 shrinks (self w1) = count_shrinks (trace w1) /\
                 trace_ok (trace w1) /\
                 0 <= shrinks (self w1) <= Z.max (max_shrinks s) 1).
  { destruct Hw as [Hw|[e Hw]]; destruct Hw as (? & ? & ? & ? & _ & ? & _);
      auto. }
  destruct r1 as [[]|[]|]; inversion Hr; subst r w';
    (split; [discriminate|exact Hall]).
Qed.

(** Every replacement of [last_data] through [incorporate_new_buffer] comes
    right after the candidate was executed and the acceptor was asked about
    it and the then current [last_data] and said yes, so the status does
    not decrease across it; a replacement through [new_buffer] comes right
    after the candidate was executed. *)
Lemma replacements_in_a_run (s : Settings) (fuel : nat) :
  let t := trace (snd (run fuel (World_init s))) in
  (forall t2 t1 last data,
     t = t2 ++ EvReplace last data :: t1 ->
     (exists t0, t1 = EvConsider last data :: EvExecute data :: t0) /\
     current t1 = Some last /\
     transition_allowed last data = Ok true /\
     status_value (status last) <= status_value (status data)) /\
  (forall t2 t1 data,
     t = t2 ++ EvFresh data :: t1 ->
     exists t0, t1 = EvExecute data :: t0).
Proof.
  cbv zeta.
  destruct (run fuel (World_init s)) as [r w'] eqn:Hr.
  apply run_trace in Hr. destruct Hr as (_ & _ & _ & _ & Hok & _).
  simpl snd. split.
  - intros t2 t1 last data Ht. rewrite Ht in Hok.
    apply trace_ok_app in Hok. destruct Hok as (Hc & Hta & Hex & _).
    repeat split; auto. apply transition_allowed_true. exact Hta.
  - intros t2 t1 data Ht. rewrite Ht in Hok.
    apply trace_ok_app in Hok. destruct Hok as (_ & Hex & _). exact Hex.
Qed.

(** For [max_shrinks >= 1], whatever the fuel, the accepted replacements
    of an INTERESTING [last_data] counted in the trace are the [shrinks]
    counter and never exceed [max_shrinks]; [run] never lets
    [StopShrinking] through; and when [_run] raises it, [run] returns
    normally in the very same world, where the count equals [max_shrinks]
    and [last_data] is the candidate accepted by the newest event. *)
Lemma shrink_budget_when_stopped (s : Settings) (fuel : nat) :
  1 <= max_shrinks s ->
  let rw := run fuel (World_init s) in
  count_shrinks (trace (snd rw)) <= max_shrinks s /\
  shrinks (self (snd rw)) = count_shrinks (trace (snd rw)) /\
  fst rw <> Raise StopShrinking /\
  (forall w1, _run fuel (World_init s) = (Raise StopShrinking, w1) ->
     rw = (Ok tt, w1) /\
     count_shrinks (trace w1) = max_shrinks s /\
     exists last data t,
       trace w1 = EvReplace last data :: t /\
       last_data (self w1) = Some data).
Proof.
  intros Hmax. cbv zeta.
  destruct (run fuel (World_init s)) as [r w'] eqn:Hr.
  pose proof (@run_trace s fuel r w' Hr) as (Hne & _ & _ & Hcount & _ & Hle).
  simpl fst. simpl snd.
  split; [lia|]. split; [exact Hcount|]. split; [exact Hne|].
  intros w1 Hrun.
  pose proof (@_run_trace s fuel _ w1 Hrun) as HE. simpl in HE.
  destruct HE as (_ & _ & Hc1 & _ & _ & Hle1 & Hstop).
  destruct (Hstop eq_refl) as (Hge & Hhead).
  unfold run, except_StopShrinking in Hr. rewrite Hrun in Hr.
  split; [congruence|]. split; [lia|exact Hhead].
Qed.

Lemma interesting_stays (t2 t1 : list Event) (d0 : TestData) :
  trace_ok (t2 ++ t1) -> current t1 = Some d0 -> status d0 = INTERESTING ->
  exists d, current (t2 ++ t1) = Some d /\ status d = INTERESTING.
Proof.
  intros Hok Hc Hs. induction t2 as [|e t2 IH]; simpl in *; [eauto|].
  destruct e; simpl; try (apply IH; exact Hok).
  - destruct Hok as (Hcur & Hta & _ & Hok).
    destruct (IH Hok) as (d & Hd & Hsd).
    assert (d = last) by congruence. subst d.
    exists data. split; [reflexivity|].
    apply (transition_allowed_true _ _ Hta). exact Hsd.
  - destruct Hok as (Hnot & _ & Hok).
    destruct (IH Hok) as (d & Hd & Hsd).
    exfalso. eapply Hnot; eassumption.
Qed.

(** C5: once an INTERESTING candidate is [last_data] (the trace up to [t1]
    makes [d0] the current one), every later event that replaces
    [last_data] is a replacement through the acceptor of an INTERESTING
    [last] by an INTERESTING [data] that is strictly better in the order
    of the specification: its tuple (cost, number of intervals, buffer
    length, buffer bytes) is lexicographically smaller; [new_buffer] never
    replaces it again. *)
Theorem interesting_only_shrinks (s : Settings) (fuel : nat)
    (t3 t2 t1 : list Event) (ev : Event) (d0 : TestData) :
  trace (snd (run fuel (World_init s))) = t3 ++ ev :: t2 ++ t1 ->
  current t1 = Some d0 -> status d0 = INTERESTING ->
  match ev with
  | EvReplace last data =>
      current (t2 ++ t1) = Some last /\
      status last = INTERESTING /\
      status data = INTERESTING /\
      strictly_better data last
  | EvFresh _ => False
  | _ => True
  end.
Proof.
  intros Ht Hc Hs.
  destruct (run fuel (World_init s)) as [r w'] eqn:Hr.
  apply run_trace in Hr. destruct Hr as (_ & _ & _ & _ & Hok & _).
  simpl snd in Ht. rewrite Ht in Hok. apply trace_ok_app in Hok.
  destruct ev; try exact I.
  - destruct Hok as (Hcur & Hta & _ & Hok).
    destruct (interesting_stays t2 t1 Hok Hc Hs) as (d & Hd & Hsd).
    assert (d = last) by congruence. subst d.
    split; [exact Hcur|]. split; [exact Hsd|].
    destruct (transition_allowed_true _ _ Hta) as [_ Hi].
    destruct (Hi Hsd) as (? & _ & ?). split; assumption.
  - destruct Hok as (Hnot & _ & Hok).
    destruct (interesting_stays t2 t1 Hok Hc Hs) as (d & Hd & Hsd).
    eapply Hnot; eassumption.
Qed.

Lemma transition_allowed_asserts (last data : TestData) :
  status last = INTERESTING -> status data = INTERESTING ->
  (length (buffer last) < length (buffer data))%nat ->
  transition_allowed last data = Raise AssertionError.
Proof.
  intros Hl Hd Hlen. unfold transition_allowed, status_ltb.
  rewrite Hl, Hd. simpl.
  destruct (Nat.leb_spec (length (buffer data)) (length (buffer last)));
    [lia|reflexivity].
Qed.

Lemma accepted_since_events (w0 w : World) (t : list Event) :
  accepted_since w0 w ->
  (forall last data,
     In (EvReplace last data) t -> transition_allowed last data = Ok true) ->
  accepted_since w0 (add_events t w).
Proof.
  intros (t0 & Ht & Hall) Hnew. exists (t ++ t0). split.
  - simpl. rewrite Ht, app_assoc. reflexivity.
  - intros last data Hin. apply in_app_or in Hin.
    destruct Hin; [apply Hnew|apply Hall]; assumption.
Qed.

Lemma accepted_since_incorporate (w0 : World) (buf : bytes) :
  keeps (accepted_since w0) (fun _ => accepted_since w0)
    (incorporate_new_buffer buf).
Proof.
  intros w Hacc fuel r w' Hr.
  assert (Hplain : forall t,
            (forall last data, ~ In (EvReplace last data) t) ->
            accepted_since w0 (add_events t w)).
  { intros t Hno. apply accepted_since_events; [exact Hacc|].
    intros last data Hin. exfalso. eapply Hno. exact Hin. }
  assert (Hseen : forall x y z last data,
            ~ In (EvReplace last data)
                 [EvConsider x y; EvExecute y; EvPropose z]).
  { intros x y z last data [H|[H|[H|[]]]]; discriminate. }
  assert (Hprop : forall z last data, ~ In (EvReplace last data) [EvPropose z]).
  { intros z last data [H|[]]; discriminate. }
  destruct (last_data (self w)) as [last|] eqn:Hl.
  2:{ rewrite incorporate_new_buffer_none in Hr by exact Hl.
      inversion Hr; subst. apply Hplain, Hprop. }
  rewrite (incorporate_new_buffer_eq buf fuel w Hl) in Hr.
  destruct (bytes_eqb buf (buffer last)).
  { inversion Hr; subst. apply Hplain, Hprop. }
  cbv zeta in Hr.
  destruct (transition_allowed last (run_test buf)) as [[|]|e|] eqn:Hta.
  - assert (Hnew : accepted_since w0
              {| self := accept_runner last (run_test buf) (self w);
                 rand_pos := rand_pos w;
                 trace := EvReplace last (run_test buf)
                          :: [EvConsider last (run_test buf);
                              EvExecute (run_test buf); EvPropose buf] ++
                             trace w |}).
    { destruct Hacc as (t0 & Ht & Hall).
      exists (EvReplace last (run_test buf)
              :: [EvConsider last (run_test buf); EvExecute (run_test buf);
                  EvPropose buf] ++ t0).
      split; [simpl; rewrite Ht; reflexivity|].
      intros l d [H|[H|[H|[H|H]]]]; try discriminate.
      - inversion H; subst. exact Hta.
      - apply Hall. exact H. }
    destruct (_ <=? _); inversion Hr; subst; exact Hnew.
  - inversion Hr; subst. apply Hplain, Hseen.
  - inversion Hr; subst. apply Hplain, Hseen.
  - inversion Hr; subst. apply Hplain, Hseen.
Qed.

Lemma accepted_since_shrink (w0 : World) :
  keeps (accepted_since w0) (fun _ => accepted_since w0) shrink.
Proof.
  apply keeps_shrink.
  - intros e w _ _ H. exact H.
  - intros w n H. exact H.
  - intros w H. exact H.
  - intros w H. apply accepted_since_events with (t := [EvSweep]) in H;
      [exact H|].
    intros last data [Hin|[]]. discriminate.
  - apply accepted_since_incorporate.
Qed.

Lemma accepted_since_decrease (w0 w : World) :
  accepted_since w0 w ->
  exists t, trace w = t ++ trace w0 /\ replacements_decrease t.
Proof.
  intros (t & Ht & Hall). exists t. split; [exact Ht|].
  intros last data Hin Hs.
  destruct (transition_allowed_true _ _ (Hall _ _ Hin)) as [_ Hi].
  destruct (Hi Hs) as (? & _ & ?). split; assumption.
Qed.

Section WellFormedCallback.

(** Modelled from the spec: the interval integrity of [TestData]
    ([0 <= start <= end] for each recorded interval). *)
Hypothesis intervals_ordered :
  forall b u v, In (u, v) (ex_intervals (callback b)) -> (u <= v)%nat.

Lemma ShrinkInv_enter (s : Settings) (K : Z) (w : World) (d : TestData) :
  GenInv s w -> last_data (self w) = Some d -> status d = INTERESTING ->
  ((forall b, ex_intervals (callback b) = []) ->
   K <= Z.of_nat (length (buffer d))) ->
  ShrinkInv K w /\ shrinks (self w) = 0.
Proof.
  intros (HT & Hsh & Hch & Hfrom) Hl Hs HK.
  split; [|exact Hsh]. exists d.
  split; [exact Hl|]. split; [exact Hs|]. split; [apply Hfrom; exact Hl|].
  split; [exact Hch|]. split; [lia|]. split; [right; exact Hsh|].
  intros Hno. specialize (HK Hno). lia.
Qed.

(** Whatever the fuel, the shrink phase ends normally, by
    [StopShrinking], or for lack of fuel. *)
Lemma shrink_result (K : Z) (w : World) (fuel : nat) (r : res unit)
    (w' : World) :
  ShrinkInv K w -> shrinks (self w) = 0 ->
  shrink fuel w = (r, w') ->
  r = OutOfFuel \/
  (r = Ok tt /\ ShrinkInv K w') \/
  (r = Raise StopShrinking /\ ShrinkStop K StopShrinking w').
Proof.
  intros Hinv Hsh Hr.
  destruct (shrink_total intervals_ordered Hinv Hsh)
    as (n & r0 & w0 & Hrun & Hpost).
  destruct r as [[]|e|]; [right|right|left; reflexivity].
  - pose proof (@mono_shrink fuel (Nat.max fuel n) w _ w'
                  (Nat.le_max_l fuel n) Hr) as Hm.
    rewrite Hrun in Hm by lia.
    assert (Hne : Ok tt <> @OutOfFuel unit) by discriminate.
    specialize (Hm Hne). inversion Hm; subst.
    left. split; [reflexivity|apply Hpost].
  - pose proof (@mono_shrink fuel (Nat.max fuel n) w _ w'
                  (Nat.le_max_l fuel n) Hr) as Hm.
    rewrite Hrun in Hm by lia.
    assert (Hne : Raise e <> @OutOfFuel unit) by discriminate.
    specialize (Hm Hne). inversion Hm; subst.
    right. destruct Hpost as [-> Hp]. split; [reflexivity|].
    split; [reflexivity|exact Hp].
Qed.

Lemma _run_no_assertion (s : Settings) (fuel : nat) (r : res unit)
    (w' : World) :
  _run fuel (World_init s) = (r, w') -> r <> Raise AssertionError.
Proof.
  unfold _run, bind. intros Hr.
  destruct (generate fuel (World_init s)) as [rg w1] eqn:Hg.
  pose proof (@generate_spec s fuel rg w1 Hg) as Hspec.
  destruct rg as [[|]|e|].
  - destruct Hspec as [HG Hfound]. destruct (Hfound eq_refl) as (d & Hl & Hs).
    destruct (@ShrinkInv_enter s 0 w1 d HG Hl Hs) as [Hinv Hsh]; [intros; lia|].
    destruct (shrink_result fuel Hinv Hsh Hr) as [->|[[-> _]|[-> _]]];
      discriminate.
  - inversion Hr; subst. discriminate.
  - inversion Hr; subst. destruct Hspec as [_ Hne]. congruence.
  - inversion Hr; subst. discriminate.
Qed.

(** C4: in every run (whatever the fuel), the assertion of the acceptor
    never fails, and whenever the acceptor was asked about two INTERESTING
    [TestData], the candidate's buffer was no longer than the current
    one. *)
Theorem acceptor_assertion_never_fails (s : Settings) (fuel : nat) :
  let rw := run fuel (World_init s) in
  fst rw <> Raise AssertionError /\
  forall last data,
    In (EvConsider last data) (trace (snd rw)) ->
    status last = INTERESTING -> status data = INTERESTING ->
    (length (buffer data) <= length (buffer last))%nat.
Proof.
  cbv zeta. unfold run, except_StopShrinking.
  destruct (_run fuel (World_init s)) as [r1 w1] eqn:Hrun.
  pose proof (@_run_no_assertion s fuel r1 w1 Hrun) as Hne.
  pose proof (@_run_trace s fuel r1 w1 Hrun) as HT.
  assert (Hco : considered_ok (trace w1)).
  { destruct r1 as [a|e|]; [apply HT| |apply HT].
    destruct HT as (_ & _ & _ & _ & Hc & _). apply Hc. congruence. }
  assert (Hlen : forall last data,
             In (EvConsider last data) (trace w1) ->
             status last = INTERESTING -> status data = INTERESTING ->
             (length (buffer data) <= length (buffer last))%nat).
  { intros last data Hin Hl Hd.
    destruct (Nat.leb_spec (length (buffer data)) (length (buffer last)))
      as [Hle|Hgt]; [exact Hle|].
    exfalso. apply (Hco last data Hin).
    apply transition_allowed_asserts; assumption. }
  destruct r1 as [a|[]|]; simpl; (split; [congruence || discriminate|exact Hlen]).
Qed.

(** C6: the shrink phase, entered on an INTERESTING [last_data] with no
    shrink counted yet, terminates: with enough fuel it returns after an
    outer sweep that accepted nothing (or at once, when [max_shrinks] is
    negative), or it raises [StopShrinking] when the accepted transitions
    reach [max_shrinks].  Every replacement of an INTERESTING [last_data]
    it made strictly decreased the interest key, and the order on interest
    keys is well-founded. *)
Theorem shrink_phase_terminates (w : World) (b0 : bytes) :
  last_data (self w) = Some (run_test b0) ->
  status (run_test b0) = INTERESTING ->
  shrinks (self w) = 0 ->
  0 <= changed (self w) ->
  well_founded interest_lt /\
  exists n r w',
    (forall fuel, (n <= fuel)%nat -> shrink fuel w = (r, w')) /\
    (exists t, trace w' = t ++ trace w /\ replacements_decrease t) /\
    ((r = Ok tt /\
      (last_sweep_quiet (trace w') \/ max_shrinks (settings (self w')) < 0)) \/
     (r = Raise StopShrinking /\
      max_shrinks (settings (self w')) <= shrinks (self w'))).
Proof.
  intros Hl Hs Hsh Hch.
  split; [apply interest_lt_well_founded|].
  assert (Hinv : ShrinkInv 0 w).
  { exists (run_test b0). split; [exact Hl|]. split; [exact Hs|].
    split; [eexists; reflexivity|]. split; [exact Hch|]. split; [lia|].
    split; [right; exact Hsh|]. intros _. lia. }
  destruct (shrink_total intervals_ordered Hinv Hsh)
    as (n & r & w' & Hrun & Hpost).
  exists n, r, w'. split; [exact Hrun|]. split.
  { apply accepted_since_decrease.
    assert (H0 : accepted_since w w).
    { exists []. split; [reflexivity|]. intros last data []. }
    pose proof (@accepted_since_shrink w w H0 n r w' (Hrun n (le_n n))) as Hk.
    destruct r; exact Hk. }
  destruct r as [[]|e|]; [left|right|contradiction].
  - split; [reflexivity|apply Hpost].
  - destruct Hpost as [-> (d & _ & _ & Hge & _)]. split; [reflexivity|exact Hge].
Qed.

End WellFormedCallback.

(* ------------------------------------------------------------------ *)
(** ** A callback under which every execution is INTERESTING *)

Section AlwaysInteresting.

Hypothesis always_interesting :
  forall b, ex_status (callback b) = INTERESTING.
Hypothesis no_intervals : forall b, ex_intervals (callback b) = [].

Lemma generate_first_interesting :
  exists w1 d,
    (forall fuel, (1 <= fuel)%nat ->
       generate fuel (World_init default_settings) = (Ok true, w1)) /\
    trace w1 = [EvFresh d; EvExecute d] /\
    last_data (self w1) = Some d /\
    status d = INTERESTING /\
    Z.of_nat (length (buffer d)) = 8192.
Proof.
  eexists. eexists. split; [|split; [|split; [|split]]].
  - intros fuel Hf. destruct fuel as [|fuel]; [lia|].
    unfold generate, bind. rewrite new_buffer_eq. cbv zeta.
    change (fill_size (self (World_init default_settings)) <? 0) with false.
    change (buffer_size (settings (self (World_init default_settings))) -
            fill_size (self (World_init default_settings)) <? 0) with false.
    cbv iota. unfold while. cbn [iterate].
    unfold get_last_data, bind, gets, ret.
    cbn [self last_data with_fill_size with_last_data].
    unfold run_test at 1. cbn [status].
    rewrite always_interesting.
    change (status_eqb INTERESTING INTERESTING) with true.
    cbn [negb snd]. reflexivity.
  - reflexivity.
  - reflexivity.
  - apply always_interesting.
  - cbn [buffer run_test].
    rewrite length_app, length_map, length_seq, repeat_length.
    change (fill_size (self (World_init default_settings))) with 8.
    change (buffer_size (settings (self (World_init default_settings))))
      with 8192.
    lia.
Qed.

(** With the default settings the first candidate has 8192 bytes, every
    accepted shrink removes at most one byte, and the budget allows 2000 of
    them. *)
Lemma always_interesting_run :
  exists n w1 d w' d',
    (forall fuel, (n <= fuel)%nat ->
       generate fuel (World_init default_settings) = (Ok true, w1) /\
       run fuel (World_init default_settings) = (Ok tt, w')) /\
    trace w1 = [EvFresh d; EvExecute d] /\
    status d = INTERESTING /\
    Z.of_nat (length (buffer d)) = 8192 /\
    last_data (self w') = Some d' /\
    status d' = INTERESTING /\
    6192 <= Z.of_nat (length (buffer d')).
Proof.
  destruct generate_first_interesting as (w1 & d & Hgen & Htr & Hl & Hs & Hlen).
  assert (Hord : forall b u v,
             In (u, v) (ex_intervals (callback b)) -> (u <= v)%nat).
  { intros b u v Hin. rewrite no_intervals in Hin. destruct Hin. }
  pose proof (@generate_spec default_settings 1%nat _ _ (Hgen 1%nat (le_n 1%nat)))
    as [HG _].
  destruct (@ShrinkInv_enter default_settings 8192 w1 d HG Hl Hs)
    as [Hinv Hsh]; [intros; lia|].
  destruct (shrink_total Hord Hinv Hsh) as (n & r & w' & Hrun & Hpost).
  assert (Hfinal : forall fuel, (Nat.max 1 n <= fuel)%nat ->
            _run fuel (World_init default_settings) = (r, w')).
  { intros fuel Hf. unfold _run, bind. rewrite Hgen by lia. apply Hrun. lia. }
  assert (Hset : settings (self w') = default_settings).
  { pose proof (Hfinal _ (le_n _)) as Hr.
    pose proof (@_run_trace default_settings _ _ _ Hr) as HT.
    destruct r; apply HT. }
  assert (Hd' : exists d', last_data (self w') = Some d' /\
                           status d' = INTERESTING /\
                           6192 <= Z.of_nat (length (buffer d')) /\
                           (r = Ok tt \/ r = Raise StopShrinking)).
  { destruct r as [[]|e|]; [| |contradiction].
    - destruct Hpost as [(d' & Hl' & Hs' & _ & _ & Hsh0 & Hb & HK) _].
      exists d'. rewrite Hset in Hb. simpl in Hb.
      specialize (HK no_intervals). repeat split; auto. lia.
    - destruct Hpost as [-> (d' & Hl' & Hs' & _ & Hle & HK)].
      exists d'. rewrite Hset in Hle. simpl in Hle.
      specialize (HK no_intervals). repeat split; auto. lia. }
  destruct Hd' as (d' & Hl' & Hs' & Hlen' & Hr).
  exists (Nat.max 1 n), w1, d, w', d'.
  split; [|repeat split; assumption].
  intros fuel Hf. split; [apply Hgen; lia|].
  unfold run, except_StopShrinking. rewrite (Hfinal fuel Hf).
  destruct Hr as [->| ->]; reflexivity.
Qed.

(** Under a callback that makes every execution INTERESTING and records no
    intervals, run with the default settings, the first candidate is
    INTERESTING and has 8192 bytes, and what [find_interesting_buffer]
    returns has at least 6192 bytes. *)
Lemma always_interesting_lower_bound :
  exists n, forall fuel, (n <= fuel)%nat ->
    exists w1 d buf,
      generate fuel (World_init default_settings) = (Ok true, w1) /\
      trace w1 = [EvFresh d; EvExecute d] /\
      status d = INTERESTING /\
      Z.of_nat (length (buffer d)) = 8192 /\
      find_interesting_buffer default_settings fuel = Ok (Some buf) /\
      6192 <= Z.of_nat (length buf).
Proof.
  destruct always_interesting_run
    as (n & w1 & d & w' & d' & Hrun & Htr & Hs & Hlen & Hl' & Hs' & Hlen').
  exists n. intros fuel Hf. destruct (Hrun fuel Hf) as [Hg Hr].
  exists w1, d, (buffer d').
  repeat split; auto.
  unfold find_interesting_buffer. rewrite Hr, Hl', Hs'. reflexivity.
Qed.

End AlwaysInteresting.

(* ================================================================== *)
(** * Further properties of the acceptor and of the interest key *)

Lemma bytes_lt_irrefl (a : bytes) : ~ bytes_lt a a.
Proof.
  induction a as [|x a IH]; intros H; inversion H; subst; [lia|auto].
Qed.

Lemma bytes_lt_trans (a b c : bytes) :
  bytes_lt a b -> bytes_lt b c -> bytes_lt a c.
Proof.
  intros Hab. revert c.
  induction Hab as [y b|x y a b Hxy|x a b Hab IH]; intros c Hbc;
    inversion Hbc; subst.
  - constructor.
  - constructor.
  - apply bytes_lt_head. lia.
  - apply bytes_lt_head. assumption.
  - apply bytes_lt_head. assumption.
  - apply bytes_lt_tail. apply IH. assumption.
Qed.

Lemma bytes_lt_total (a b : bytes) : bytes_lt a b \/ a = b \/ bytes_lt b a.
Proof.
  revert b. induction a as [|x a IH]; intros [|y b].
  - right. left. reflexivity.
  - left. constructor.
  - right. right. constructor.
  - destruct (Nat.lt_trichotomy (byte_val x) (byte_val y)) as [H|[H|H]].
    + left. apply bytes_lt_head. exact H.
    + apply byte_val_inj in H. subst y.
      destruct (IH b) as [H|[H|H]].
      * left. apply bytes_lt_tail. exact H.
      * right. left. congruence.
      * right. right. apply bytes_lt_tail. exact H.
    + right. right. apply bytes_lt_head. exact H.
Qed.

Lemma key_lt_irrefl (k : Key) : ~ key_lt k k.
Proof.
  destruct k as [[[c n] l] b]. unfold key_lt.
  intros [H|[_ [H|[_ [H|[_ H]]]]]]; try lia.
  exact (@bytes_lt_irrefl _ H).
Qed.

Lemma key_lt_trans (k1 k2 k3 : Key) :
  key_lt k1 k2 -> key_lt k2 k3 -> key_lt k1 k3.
Proof.
  destruct k1 as [[[c1 n1] l1] b1], k2 as [[[c2 n2] l2] b2],
    k3 as [[[c3 n3] l3] b3].
  unfold key_lt. intros H12 H23.
  destruct H12 as [H|[-> [H|[-> [H|[-> H]]]]]];
    destruct H23 as [H'|[<- [H'|[<- [H'|[<- H']]]]]];
    try (left; lia);
    try (right; split; [reflexivity|left; lia]);
    try (right; split; [reflexivity|right; split; [reflexivity|left; lia]]).
  right. split; [reflexivity|]. right. split; [reflexivity|].
  right. split; [reflexivity|]. eapply bytes_lt_trans; eassumption.
Qed.

Lemma key_lt_total (k1 k2 : Key) : key_lt k1 k2 \/ k1 = k2 \/ key_lt k2 k1.
Proof.
  destruct k1 as [[[c1 n1] l1] b1], k2 as [[[c2 n2] l2] b2].
  unfold key_lt.
  destruct (Nat.lt_trichotomy c1 c2) as [H|[->|H]]; [auto| |auto].
  destruct (Nat.lt_trichotomy n1 n2) as [H|[->|H]]; [auto| |auto 6].
  destruct (Nat.lt_trichotomy l1 l2) as [H|[->|H]]; [auto 8| |auto 8].
  destruct (bytes_lt_total b1 b2) as [H|[->|H]]; auto 10.
Qed.

Lemma key_ltb_true (k1 k2 : Key) : key_ltb k1 k2 = true -> key_lt k1 k2.
Proof.
  destruct k1 as [[[c1 n1] l1] b1], k2 as [[[c2 n2] l2] b2].
  unfold key_ltb, key_lt.
  destruct (Nat.eqb_spec c1 c2) as [->|Hc]; cbn [negb].
  2:{ intros H. apply Nat.ltb_lt in H. left. exact H. }
  destruct (Nat.eqb_spec n1 n2) as [->|Hn]; cbn [negb].
  2:{ intros H. apply Nat.ltb_lt in H. right. split; [reflexivity|].
      left. exact H. }
  destruct (Nat.eqb_spec l1 l2) as [->|Hl]; cbn [negb].
  2:{ intros H. apply Nat.ltb_lt in H. right. split; [reflexivity|].
      right. split; [reflexivity|]. left. exact H. }
  intros H. apply bytes_ltb_lt in H. right. split; [reflexivity|].
  right. split; [reflexivity|]. right. split; [reflexivity|exact H].
Qed.

Lemma key_lt_true (k1 k2 : Key) : key_lt k1 k2 -> key_ltb k1 k2 = true.
Proof.
  intros H. destruct (key_ltb k1 k2) eqn:Hb; [reflexivity|exfalso].
  destruct (key_lt_total k1 k2) as [H'|[->|H']].
  - clear H. revert Hb H'.
    destruct k1 as [[[c1 n1] l1] b1], k2 as [[[c2 n2] l2] b2].
    unfold key_ltb, key_lt.
    destruct (Nat.eqb_spec c1 c2) as [->|Hc]; cbn [negb].
    2:{ intros Hb [H|[H _]]; [|contradiction].
        apply Nat.ltb_ge in Hb. lia. }
    destruct (Nat.eqb_spec n1 n2) as [->|Hn]; cbn [negb].
    2:{ intros Hb [H|[_ [H|[H _]]]]; [lia| |contradiction].
        apply Nat.ltb_ge in Hb. lia. }
    destruct (Nat.eqb_spec l1 l2) as [->|Hl]; cbn [negb].
    2:{ intros Hb [H|[_ [H|[_ [H|[H _]]]]]]; [lia|lia| |contradiction].
        apply Nat.ltb_ge in Hb. lia. }
    intros Hb [H|[_ [H|[_ [H|[_ H]]]]]]; try lia.
    apply bytes_ltb_lt in H. congruence.
  - exact (@key_lt_irrefl _ H).
  - exact (@key_lt_irrefl _ (@key_lt_trans _ _ _ H H')).
Qed.

(** X1: the comparison of interest keys ([<] on the tuples built by
    [interest_key]) is a strict total order: no key is below itself, the
    comparison is transitive, and two different keys are comparable. *)
Theorem interest_key_strict_total_order :
  (forall k, key_ltb k k = false) /\
  (forall k1 k2 k3,
     key_ltb k1 k2 = true -> key_ltb k2 k3 = true -> key_ltb k1 k3 = true) /\
  (forall k1 k2, key_ltb k1 k2 = true \/ k1 = k2 \/ key_ltb k2 k1 = true).
Proof.
  split; [|split].
  - intros k. destruct (key_ltb k k) eqn:H; [|reflexivity].
    apply key_ltb_true in H. exfalso. exact (@key_lt_irrefl _ H).
  - intros k1 k2 k3 H12 H23. apply key_lt_true.
    apply key_ltb_true in H12. apply key_ltb_true in H23.
    eapply key_lt_trans; eassumption.
  - intros k1 k2.
    destruct (key_lt_total k1 k2) as [H|[H|H]];
      [left; apply key_lt_true; exact H|right; left; exact H
      |right; right; apply key_lt_true; exact H].
Qed.

(** X2: [consider_new_test_data] raises exactly in two cases: an
    [AssertionError] when its assertion fails, that is when [last_data]
    and the candidate are both INTERESTING and the candidate has the
    longer buffer; and an [AttributeError] when there is no [last_data]
    yet ([self.last_data] is [None]).  It raises nothing else, it always
    returns or raises, and it leaves the runner as it was. *)
Theorem acceptor_raises_exactly (data : TestData) (fuel : nat) (w : World) :
  (fst (consider_new_test_data data fuel w) = Raise AssertionError <->
   exists last,
     last_data (self w) = Some last /\
     status last = INTERESTING /\ status data = INTERESTING /\
     (length (buffer last) < length (buffer data))%nat) /\
  (fst (consider_new_test_data data fuel w) = Raise AttributeError <->
   last_data (self w) = None) /\
  (forall e, fst (consider_new_test_data data fuel w) = Raise e ->
             e = AssertionError \/ e = AttributeError) /\
  fst (consider_new_test_data data fuel w) <> OutOfFuel /\
  self (snd (consider_new_test_data data fuel w)) = self w.
Proof.
  unfold consider_new_test_data, get_last_data, bind, gets, emit, lift_res.
  destruct (last_data (self w)) as [last|] eqn:Hl; cbn [fst snd raise ret].
  - split; [split|].
    + intros H. apply transition_allowed_raise in H.
      exists last. split; [reflexivity|]. tauto.
    + intros (last' & Hl' & Hs & Hd & Hlen). inversion Hl'; subst last'.
      apply transition_allowed_asserts; assumption.
    + split; [split; intros H; [|discriminate]|].
      * apply transition_allowed_raise in H. destruct H; discriminate.
      * split; [|split; [apply transition_allowed_fuel|reflexivity]].
        intros e H. apply transition_allowed_raise in H. left. apply H.
  - split; [split|].
    + discriminate.
    + intros (last & Hl' & _). discriminate.
    + split; [split; reflexivity|].
      split; [|split; [discriminate|reflexivity]].
      intros e H. inversion H. right. reflexivity.
Qed.

(** X3: the acceptor allows a replacement and the replacement back only
    between two [TestData] of one status that is not INTERESTING (and, for
    INVALID and OVERRUN, of one index): among INTERESTING candidates it
    never goes back. *)
Theorem acceptor_both_ways (a b : TestData) :
  transition_allowed a b = Ok true ->
  transition_allowed b a = Ok true ->
  status a = status b /\
  status a <> INTERESTING /\
  (status a <> VALID -> index a = index b).
Proof.
  unfold transition_allowed, status_ltb.
  destruct (Z.ltb_spec (status_value (status a)) (status_value (status b)))
    as [Hlt|Hge].
  { destruct (Z.ltb_spec (status_value (status b)) (status_value (status a)));
      [lia|discriminate]. }
  destruct (Z.ltb_spec (status_value (status b)) (status_value (status a)))
    as [Hlt'|Hge']; [discriminate|].
  assert (Heq : status a = status b) by (apply status_value_inj; lia).
  rewrite <- Heq. intros Hab Hba. split; [reflexivity|].
  revert Hab Hba.
  destruct (status a); cbn [status_eqb status_value Z.eqb Pos.eqb];
    intros Hab Hba.
  - split; [discriminate|]. intros _.
    inversion Hab as [H1]; inversion Hba as [H2].
    apply Nat.leb_le in H1; apply Nat.leb_le in H2. lia.
  - split; [discriminate|]. intros _.
    inversion Hab as [H1]; inversion Hba as [H2].
    apply Nat.leb_le in H1; apply Nat.leb_le in H2. lia.
  - split; [discriminate|]. intros H. contradiction.
  - exfalso.
    destruct (length (buffer b) <=? length (buffer a))%nat; [|discriminate].
    destruct (length (buffer a) <=? length (buffer b))%nat; [|discriminate].
    inversion Hab as [H1]; inversion Hba as [H2].
    apply (@key_ltb_true (interest_key b) (interest_key a)) in H1.
    apply (@key_ltb_true (interest_key a) (interest_key b)) in H2.
    exact (@key_lt_irrefl _ (@key_lt_trans _ _ _ H1 H2)).
Qed.

(* ================================================================== *)
(** * Invariants of whole runs *)

(** What [incorporate_new_buffer] can do to the world: leave the runner
    alone (the candidate was the current buffer, was rejected, or could not
    be compared), or replace [last_data] by the executed candidate. *)
Lemma incorporate_cases (buf : bytes) (fuel : nat) (w : World)
    (r : res bool) (w' : World) :
  incorporate_new_buffer buf fuel w = (r, w') ->
  rand_pos w' = rand_pos w /\
  ((self w' = self w /\ r <> Ok true /\ r <> Raise StopShrinking /\
    exists t, trace w' = t ++ trace w /\ no_replace t /\
              forall d, ~ In (EvFresh d) t) \/
   (exists last,
      last_data (self w) = Some last /\
      transition_allowed last (run_test buf) = Ok true /\
      self w' = accept_runner last (run_test buf) (self w) /\
      trace w' = EvReplace last (run_test buf)
                 :: EvConsider last (run_test buf)
                 :: EvExecute (run_test buf) :: EvPropose buf :: trace w /\
      ((r = Ok true /\ shrinks (self w') < max_shrinks (settings (self w'))) \/
       (r = Raise StopShrinking /\
        max_shrinks (settings (self w')) <= shrinks (self w'))))).
Proof.
  intros Hr.
  assert (Hseen : forall x y z,
            no_replace [EvConsider x y; EvExecute y; EvPropose z] /\
            forall d, ~ In (EvFresh d)
                        [EvConsider x y; EvExecute y; EvPropose z]).
  { intros x y z. split.
    - intros a b [H|[H|[H|[]]]]; discriminate.
    - intros d [H|[H|[H|[]]]]; discriminate. }
  assert (Hprop : forall z,
            no_replace [EvPropose z] /\
            forall d, ~ In (EvFresh d) [EvPropose z]).
  { intros z. split.
    - intros a b [H|[]]; discriminate.
    - intros d [H|[]]; discriminate. }
  assert (Hplain : forall (r0 : res bool) t,
            r0 <> Ok true -> r0 <> Raise StopShrinking ->
            (no_replace t /\ forall d, ~ In (EvFresh d) t) ->
            (r0, add_events t w) = (r, w') ->
            rand_pos w' = rand_pos w /\
            ((self w' = self w /\ r <> Ok true /\ r <> Raise StopShrinking /\
              exists t, trace w' = t ++ trace w /\ no_replace t /\
                        forall d, ~ In (EvFresh d) t) \/
             (exists last,
                last_data (self w) = Some last /\
                transition_allowed last (run_test buf) = Ok true /\
                self w' = accept_runner last (run_test buf) (self w) /\
                trace w' = EvReplace last (run_test buf)
                           :: EvConsider last (run_test buf)
                           :: EvExecute (run_test buf) :: EvPropose buf
                           :: trace w /\
                ((r = Ok true /\
                  shrinks (self w') < max_shrinks (settings (self w'))) \/
                 (r = Raise StopShrinking /\
                  max_shrinks (settings (self w')) <= shrinks (self w')))))).
  { intros r0 t H1 H2 [H3 H4] Heq. inversion Heq; subst r w'.
    split; [reflexivity|]. left. repeat split; auto.
    exists t. repeat split; auto. }
  destruct (last_data (self w)) as [last|] eqn:Hl.
  2:{ rewrite incorporate_new_buffer_none in Hr by exact Hl.
      eapply Hplain; [| | |exact Hr]; try discriminate. apply Hprop. }
  rewrite (incorporate_new_buffer_eq buf fuel w Hl) in Hr.
  destruct (bytes_eqb buf (buffer last)).
  { eapply Hplain; [| | |exact Hr]; try discriminate. apply Hprop. }
  cbv zeta in Hr.
  destruct (transition_allowed last (run_test buf)) as [[|]|e|] eqn:Hta.
  - destruct (Z.leb_spec
                (max_shrinks
                   (settings (accept_runner last (run_test buf) (self w))))
                (shrinks (accept_runner last (run_test buf) (self w))))
      as [Hge|Hlt]; inversion Hr; subst r w'; (split; [reflexivity|]);
      right; exists last; repeat split; auto.
  - eapply Hplain; [| | |exact Hr]; try discriminate. apply Hseen.
  - pose proof (transition_allowed_raise _ _ Hta) as (-> & _).
    eapply Hplain; [| | |exact Hr]; try discriminate. apply Hseen.
  - eapply Hplain; [| | |exact Hr]; try discriminate. apply Hseen.
Qed.

(** X4: [incorporate_new_buffer] returns [True] only after it made the
    executed candidate [last_data] and added one to [changed]; when it
    returns [False] the runner is as it was; and when it raises
    [StopShrinking] the candidate has been kept as [last_data] all the
    same. *)
Theorem incorporate_outcomes (buf : bytes) (fuel : nat) (w : World)
    (r : res bool) (w' : World) :
  incorporate_new_buffer buf fuel w = (r, w') ->
  (r = Ok false -> self w' = self w) /\
  (r = Ok true \/ r = Raise StopShrinking ->
   last_data (self w') = Some (run_test buf) /\
   changed (self w') = changed (self w) + 1) /\
  (r = Ok true -> shrinks (self w') < max_shrinks (settings (self w'))) /\
  (r = Raise StopShrinking ->
   max_shrinks (settings (self w')) <= shrinks (self w')).
Proof.
  intros Hr. destruct (incorporate_cases _ _ _ Hr) as [_ Hc].
  destruct Hc as [(Hs & Hn1 & Hn2 & _)|(last & _ & _ & Hs & _ & Hres)].
  - repeat split; auto; intros; try congruence;
      match goal with H : _ \/ _ |- _ => destruct H; congruence end.
  - split; [intros ->; destruct Hres as [[? _]|[? _]]; discriminate|].
    split; [intros _; rewrite Hs; split; reflexivity|].
    split; intros ->; destruct Hres as [[? ?]|[? ?]];
      try discriminate; assumption.
Qed.

Ltac keeps_auto l :=
  repeat (intros; cbv zeta;
    first
      [ l | apply keeps_ret | apply keeps_gets
      | apply keeps_getitem; l | apply keeps_byte_of; l
      | apply keeps_zero_bytes; l
      | apply keeps_random_nat; l | apply keeps_urandom; l
      | apply keeps_get_last_data; l
      | apply keeps_mutate_data_to_new_buffer; l
      | apply keeps_bind | apply keeps_while | apply keeps_for_each
      | match goal with
        | |- keeps _ _ (if ?b then _ else _) => destruct b
        | |- keeps _ _ (match ?x with _ => _ end) => destruct x
        | |- keeps _ _ (let (_, _) := ?x in _) => destruct x
        end ]).

Section KeepsRun.

Variable I : World -> Prop.
Variable E : exn -> World -> Prop.

Hypothesis I_raise :
  forall e w, e <> StopShrinking -> e <> AssertionError -> I w -> E e w.
Hypothesis I_random :
  forall w n, I w ->
    I {| self := self w; rand_pos := n; trace := trace w |}.
Hypothesis I_assert : forall w, I w -> E AssertionError w.
Hypothesis I_sweep : forall w, I w -> I (add_events [EvSweep] w).
Hypothesis I_incorporate :
  forall buf, keeps I E (incorporate_new_buffer buf).
Hypothesis I_new_buffer : keeps I E new_buffer.

Lemma keeps_generate : keeps I E generate.
Proof.
  unfold generate.
  keeps_auto ltac:(first [ apply I_incorporate | apply I_new_buffer
                         | assumption ]).
Qed.

Lemma keeps__run : keeps I E _run.
Proof.
  unfold _run. apply keeps_bind; [apply keeps_generate|].
  intros [|]; [|apply keeps_ret].
  apply keeps_shrink; assumption.
Qed.

(** After [run], the invariant holds or an exception left its mark. *)
Lemma keeps_run (fuel : nat) (w : World) (r : res unit) (w' : World) :
  I w -> run fuel w = (r, w') ->
  I w' \/ exists e, E e w'.
Proof.
  intros HI Hr. unfold run, except_StopShrinking in Hr.
  destruct (_run fuel w) as [r1 w1] eqn:Hrun.
  pose proof (@keeps__run w HI fuel r1 w1 Hrun) as H.
  destruct r1 as [a|[]|]; inversion Hr; subst r w'; eauto.
Qed.

End KeepsRun.

Lemma count_replaced_quiet (t t0 : list Event) :
  no_replace t -> count_replaced (t ++ t0) = count_replaced t0.
Proof.
  intros Hn. induction t as [|e t IH]; [reflexivity|].
  assert (Ht : no_replace t).
  { intros a b Hin. apply (Hn a b). right. exact Hin. }
  destruct e; simpl; auto.
  exfalso. eapply Hn. left. reflexivity.
Qed.

Section RunInvariant.

Variable s : Settings.

Lemma RunInv_init : RunInv s (World_init s).
Proof.
  unfold RunInv, World_init, TestRunner_init. simpl.
  repeat split; try lia; try discriminate; intros _ [].
Qed.

Lemma RunInv_incorporate (buf : bytes) :
  keeps (RunInv s) (fun _ => RunInv s) (incorporate_new_buffer buf).
Proof.
  intros w HI fuel r w' Hr.
  assert (H : RunInv s w').
  { destruct (incorporate_cases _ _ _ Hr) as [_ Hc].
    destruct HI as (Hs & Hd & Hf & Hfresh & Hch & Hsh).
    destruct Hc as [(Hself & _ & _ & t & Ht & Hnr & Hnf)
                   |(last & Hl & _ & Hself & Ht & _)];
      unfold RunInv; rewrite Hself, Ht.
    - rewrite count_replaced_quiet by exact Hnr.
      repeat split; auto; try lia.
      intros data Hin. apply in_app_or in Hin.
      destruct Hin as [Hin|Hin]; [destruct (Hnf _ Hin)|auto].
    - unfold accept_runner; cbn [settings last_data changed shrinks fill_size
                                 count_replaced].
      rewrite Hs.
      split; [reflexivity|].
      split; [intros d Hdd; inversion Hdd; reflexivity|].
      split; [lia|].
      split.
      { intros data [Hin|[Hin|[Hin|[Hin|Hin]]]]; try discriminate. auto. }
      split; [lia|].
      destruct (status_eqb (status last) INTERESTING); lia. }
  destruct r; exact H.
Qed.

Lemma RunInv_new_buffer :
  keeps (RunInv s) (fun _ => RunInv s) new_buffer.
Proof.
  intros w HI fuel r w' Hr. rewrite new_buffer_eq in Hr. cbv zeta in Hr.
  destruct HI as (Hs & Hd & Hf & Hfresh & Hch & Hsh).
  destruct (Z.ltb_spec (fill_size (self w)) 0) as [Hneg|Hpos].
  { inversion Hr; subst r w'. repeat split; auto; lia. }
  rewrite Hs in Hr.
  destruct (Z.ltb_spec (buffer_size s - fill_size (self w)) 0)
    as [Hneg'|Hpos']; [lia|].
  inversion Hr; subst r w'. unfold RunInv.
  cbn [self trace settings last_data changed shrinks fill_size
       with_fill_size with_last_data count_replaced].
  split; [exact Hs|].
  split; [intros d Hdd; inversion Hdd; reflexivity|].
  split; [lia|].
  split.
  { intros data [Hin|[Hin|Hin]]; try discriminate; auto.
    inversion Hin. cbn [run_test buffer].
    rewrite length_app, length_map, length_seq, repeat_length. lia. }
  split; [exact Hch|exact Hsh].
Qed.

(** Whatever the fuel and however it ends, [run] leaves [RunInv]. *)
Lemma RunInv_run (fuel : nat) : RunInv s (snd (run fuel (World_init s))).
Proof.
  destruct (run fuel (World_init s)) as [r w'] eqn:Hr.
  assert (Hrandom : forall w n, RunInv s w ->
            RunInv s {| self := self w; rand_pos := n; trace := trace w |}).
  { intros w n H. exact H. }
  assert (Hsweep : forall w, RunInv s w -> RunInv s (add_events [EvSweep] w)).
  { intros w (H1 & H2 & H3 & H4 & H5 & H6).
    unfold RunInv, add_events; cbn [self trace app count_replaced].
    repeat split; auto; try lia.
    intros data [Hin|Hin]; [discriminate|auto]. }
  destruct (@keeps_run (RunInv s) (fun _ => RunInv s)
              (fun _ _ _ _ H => H) Hrandom (fun _ H => H) Hsweep
              RunInv_incorporate RunInv_new_buffer
              fuel (World_init s) r w' RunInv_init Hr) as [H|[_ H]];
    exact H.
Qed.

End RunInvariant.

(** X5: a buffer returned by [find_interesting_buffer] is one the test
    function marks INTERESTING when run on it. *)
Theorem find_interesting_buffer_sound (s : Settings) (fuel : nat)
    (buf : bytes) :
  find_interesting_buffer s fuel = Ok (Some buf) ->
  ex_status (callback buf) = INTERESTING.
Proof.
  unfold find_interesting_buffer. intros H.
  pose proof (RunInv_run s fuel) as (_ & Hd & _).
  destruct (run fuel (World_init s)) as [[[]| |] w]; try discriminate.
  cbn [snd] in Hd.
  destruct (last_data (self w)) as [d|]; [|discriminate].
  destruct (status_eqb (status d) INTERESTING) eqn:Hs; [|discriminate].
  inversion H; subst buf. apply status_eqb_eq in Hs.
  rewrite (Hd d eq_refl) in Hs. exact Hs.
Qed.

(** X6: every buffer [new_buffer] hands to the test function has exactly
    [settings.buffer_size] bytes. *)
Theorem new_buffer_has_buffer_size (s : Settings) (fuel : nat)
    (data : TestData) :
  In (EvFresh data) (trace (snd (run fuel (World_init s)))) ->
  Z.of_nat (length (buffer data)) = buffer_size s.
Proof.
  pose proof (RunInv_run s fuel) as (_ & _ & _ & H & _). apply H.
Qed.

(** X7: [fill_size] never leaves the range from its first value,
    [min(8, buffer_size)], to [buffer_size]. *)
Theorem fill_size_in_range (s : Settings) (fuel : nat) :
  Z.min 8 (buffer_size s) <=
    fill_size (self (snd (run fuel (World_init s)))) <= buffer_size s.
Proof.
  pose proof (RunInv_run s fuel) as (_ & _ & H & _). exact H.
Qed.

(** X8: [changed] is the number of candidates [incorporate_new_buffer]
    accepted, and [shrinks] never exceeds it. *)
Theorem changed_counts_accepted (s : Settings) (fuel : nat) :
  changed (self (snd (run fuel (World_init s)))) =
    count_replaced (trace (snd (run fuel (World_init s)))) /\
  0 <= shrinks (self (snd (run fuel (World_init s)))) <=
    changed (self (snd (run fuel (World_init s)))).
Proof.
  pose proof (RunInv_run s fuel) as (_ & _ & _ & _ & H1 & H2). auto.
Qed.

(** X9: with a negative [buffer_size], [run] raises [ValueError] before
    the test function is ever called, whatever the other settings. *)
Theorem negative_buffer_size_raises (s : Settings) (fuel : nat) :
  buffer_size s < 0 ->
  run fuel (World_init s) = (Raise ValueError, World_init s) /\
  find_interesting_buffer s fuel = Raise ValueError.
Proof.
  intros Hneg.
  assert (Hrun : run fuel (World_init s) = (Raise ValueError, World_init s)).
  { unfold run, except_StopShrinking, _run, generate.
    unfold bind at 1. unfold bind at 1. unfold bind at 1.
    rewrite new_buffer_eq. cbv zeta.
    cbn [self World_init TestRunner_init fill_size].
    destruct (Z.ltb_spec (Z.min 8 (buffer_size s)) 0); [reflexivity|lia]. }
  split; [exact Hrun|].
  unfold find_interesting_buffer. rewrite Hrun. reflexivity.
Qed.

Lemma interesting_descends (t2 t1 : list Event) (d0 : TestData) :
  trace_ok (t2 ++ t1) -> current t1 = Some d0 -> status d0 = INTERESTING ->
  exists d, current (t2 ++ t1) = Some d /\ status d = INTERESTING /\
            (length (buffer d) <= length (buffer d0))%nat /\
            (d = d0 \/ key_lt (interest_key d) (interest_key d0)).
Proof.
  intros Hok Hc Hs. induction t2 as [|e t2 IH]; cbn [app] in *.
  { exists d0. auto. }
  destruct e; cbn [trace_ok current installs] in *;
    try (apply IH; exact Hok).
  - destruct Hok as (Hcur & Hta & _ & Hok).
    destruct (IH Hok) as (d & Hd & Hsd & Hlen & Hkey).
    assert (d = last) by congruence. subst d.
    destruct (transition_allowed_true _ _ Hta) as (_ & Hint).
    destruct (Hint Hsd) as (Hsdata & Hl & Hk).
    exists data. split; [reflexivity|]. split; [exact Hsdata|].
    split; [lia|]. right. destruct Hkey as [->|Hkey]; [exact Hk|].
    eapply key_lt_trans; eassumption.
  - destruct Hok as (Hnot & _ & Hok).
    destruct (IH Hok) as (d & Hd & Hsd & _).
    exfalso. eapply Hnot; eassumption.
Qed.

(** X10: from the moment an INTERESTING [d0] is [last_data], whatever
    [run] leaves as [last_data] is INTERESTING, is no longer than [d0], and
    is [d0] itself or has a strictly smaller interest key. *)
Theorem final_no_worse_than_first (s : Settings) (fuel : nat)
    (t2 t1 : list Event) (d0 : TestData) :
  trace (snd (run fuel (World_init s))) = t2 ++ t1 ->
  current t1 = Some d0 -> status d0 = INTERESTING ->
  exists d,
    last_data (self (snd (run fuel (World_init s)))) = Some d /\
    status d = INTERESTING /\
    (length (buffer d) <= length (buffer d0))%nat /\
    (d = d0 \/ key_lt (interest_key d) (interest_key d0)).
Proof.
  intros Ht Hc Hs.
  destruct (run fuel (World_init s)) as [r w'] eqn:Hr.
  apply run_trace in Hr. destruct Hr as (_ & _ & Hcur & _ & Hok & _).
  cbn [snd] in *. rewrite Hcur, Ht. rewrite Ht in Hok.
  apply interesting_descends; assumption.
Qed.

(** The mutator draws random numbers and does nothing else. *)
Lemma mutate_frame (d : TestData) (w : World) :
  pwp (mutate_data_to_new_buffer d)
    (fun _ w1 => self w1 = self w /\ trace w1 = trace w)
    (fun e w1 => (self w1 = self w /\ trace w1 = trace w) /\
                 e <> StopShrinking /\ e <> AssertionError)
    (fun w1 => self w1 = self w /\ trace w1 = trace w) w.
Proof.
  exact (@keeps_mutate_data_to_new_buffer
           (fun w1 => self w1 = self w /\ trace w1 = trace w)
           (fun e w1 => (self w1 = self w /\ trace w1 = trace w) /\
                        e <> StopShrinking /\ e <> AssertionError)
           (fun e w1 H1 H2 H => conj H (conj H1 H2))
           (fun w1 n H => H)
           d w (conj eq_refl eq_refl)).
Qed.

(** X11: [mutate_data_to_new_buffer] only draws random numbers: it leaves
    the runner and everything it recorded as they were, and it raises
    neither [StopShrinking] nor [AssertionError]. *)
Theorem mutate_leaves_runner_alone (d : TestData) (fuel : nat) (w : World)
    (r : res bytes) (w' : World) :
  mutate_data_to_new_buffer d fuel w = (r, w') ->
  self w' = self w /\ trace w' = trace w /\
  r <> Raise StopShrinking /\ r <> Raise AssertionError.
Proof.
  intros Hr. pose proof (@mutate_frame d w fuel r w' Hr) as H.
  destruct r as [b|e|].
  - destruct H. repeat split; auto; discriminate.
  - destruct H as ((H1 & H2) & H3 & H4).
    repeat split; auto; congruence.
  - destruct H. repeat split; auto; discriminate.
Qed.

(* ================================================================== *)
(** * The pairs of equal bytes *)

Lemma In_enumerate_from (A : Type) (l : list A) (s i : nat) (x : A) :
  In (i, x) (combine (seq s (length l)) l) <->
  (s <= i)%nat /\ nth_error l (i - s) = Some x.
Proof.
  revert s. induction l as [|a l IH]; intros s; cbn [length seq combine].
  - split; [intros []|]. intros [_ H]. destruct (i - s)%nat; discriminate.
  - cbn [In]. rewrite IH. split.
    + intros [H|[Hle H]].
      * inversion H; subst. split; [lia|]. rewrite Nat.sub_diag. reflexivity.
      * split; [lia|]. replace (i - s)%nat with (S (i - S s)) by lia.
        exact H.
    + intros [Hle H]. destruct (Nat.eq_dec i s) as [->|Hne].
      * rewrite Nat.sub_diag in H. inversion H. left. reflexivity.
      * right. split; [lia|].
        replace (i - s)%nat with (S (i - S s)) in H by lia. exact H.
Qed.

Lemma In_enumerate (A : Type) (l : list A) (i : nat) (x : A) :
  In (i, x) (enumerate l) <-> nth_error l i = Some x.
Proof.
  unfold enumerate. rewrite In_enumerate_from, Nat.sub_0_r.
  split; [intros [_ H]; exact H|intros H; split; [lia|exact H]].
Qed.

Lemma In_bucket (buf : bytes) (c i : nat) :
  In i (bucket buf c) <->
  exists x, nth_error buf i = Some x /\ byte_val x = c.
Proof.
  unfold bucket. rewrite in_map_iff. split.
  - intros ([i' x] & Hi & Hin). cbn [fst] in Hi. subst i'.
    apply filter_In in Hin. destruct Hin as [Hin Hc]. cbn [snd] in Hc.
    apply In_enumerate in Hin. apply Nat.eqb_eq in Hc. eauto.
  - intros (x & Hn & Hc). exists (i, x). split; [reflexivity|].
    apply filter_In. split; [apply In_enumerate; exact Hn|].
    cbn [snd]. apply Nat.eqb_eq. exact Hc.
Qed.

Lemma In_bucket_pairs (b : list nat) (j k : nat) :
  In (j, k) (bucket_pairs b) <-> In j b /\ In k b /\ (j < k)%nat.
Proof.
  unfold bucket_pairs. rewrite in_flat_map. split.
  - intros (j' & Hj & H). apply in_flat_map in H.
    destruct H as (k' & Hk & H).
    destruct (Nat.ltb_spec j' k') as [Hlt|]; [|destruct H].
    destruct H as [H|[]]. inversion H; subst. auto.
  - intros (Hj & Hk & Hlt). exists j. split; [exact Hj|].
    apply in_flat_map. exists k. split; [exact Hk|].
    apply Nat.ltb_lt in Hlt. rewrite Hlt. left. reflexivity.
Qed.

(** X12: the pairs the equal-bytes pass walks through are exactly the
    pairs of positions [j < k] of the buffer that hold the same byte. *)
Theorem indices_are_the_equal_pairs (buf : bytes) (j k : nat) :
  In (j, k) (indices buf) <->
  (j < k)%nat /\
  exists x, nth_error buf j = Some x /\ nth_error buf k = Some x.
Proof.
  unfold indices. rewrite in_flat_map. split.
  - intros (c & _ & H).
    destruct (1 <? length (bucket buf c))%nat; [|destruct H].
    apply In_bucket_pairs in H. destruct H as (Hj & Hk & Hlt).
    apply In_bucket in Hj. apply In_bucket in Hk.
    destruct Hj as (x & Hx & Hcx). destruct Hk as (y & Hy & Hcy).
    split; [exact Hlt|]. exists x. split; [exact Hx|].
    rewrite Hy. f_equal. apply byte_val_inj. congruence.
  - intros (Hlt & x & Hj & Hk). exists (byte_val x).
    split; [apply in_seq; pose proof (byte_val_bounded x); lia|].
    assert (Hbj : In j (bucket buf (byte_val x))) by (apply In_bucket; eauto).
    assert (Hbk : In k (bucket buf (byte_val x))) by (apply In_bucket; eauto).
    assert (Hlen : (1 < length (bucket buf (byte_val x)))%nat).
    { destruct (bucket buf (byte_val x)) as [|a [|a' b]];
        cbn [length]; try lia; [destruct Hbj|].
      destruct Hbj as [<-|[]]. destruct Hbk as [<-|[]]. lia. }
    apply Nat.ltb_lt in Hlen. rewrite Hlen.
    apply In_bucket_pairs. auto.
Qed.

(* ================================================================== *)
(** * The mutator *)

Lemma twp_randint (a b : Z) (Q : Z -> World -> Prop) E w :
  a <= b ->
  (forall x w', a <= x <= b -> self w' = self w -> trace w' = trace w ->
                Q x w') ->
  twp (randint a b) Q E w.
Proof.
  intros Hab H. unfold randint. destruct (Z.ltb_spec b a); [lia|].
  eexists 0%nat, (Ok _), _. split; [reflexivity|].
  apply H; simpl; try reflexivity.
  pose proof (Z.mod_pos_bound (Z.of_nat (tape (rand_pos w))) (b - a + 1)).
  lia.
Qed.

Lemma perturb_bytes_total (buf : bytes) (w : World) :
  twp (perturb_bytes buf)
    (fun _ w' => self w' = self w /\ trace w' = trace w)
    (fun _ _ => False) w.
Proof.
  unfold perturb_bytes.
  apply twp_for_each with
    (J := fun (_ : bytes) w' => self w' = self w /\ trace w' = trace w);
    [auto| |auto].
  intros [i c] result w1 _ [Hs1 Ht1].
  apply twp_bind. apply twp_randint; [lia|]. intros t w2 _ Hs2 Ht2.
  destruct (t =? 0); [apply twp_ret; split; congruence|].
  destruct (t =? 1); [|apply twp_ret; split; congruence].
  apply twp_bind. apply twp_randint; [lia|]. intros r w3 Hr Hs3 Ht3.
  apply twp_bind. apply twp_byte_of.
  { pose proof (byte_val_bounded c). lia. }
  intros b _. apply twp_ret. split; congruence.
Qed.

(** With at most one interval the mutator takes its window branch, where
    every random range is well formed. *)
Lemma mutate_few_intervals_twp (d : TestData) (w : World) :
  (length (intervals d) <= 1)%nat ->
  twp (mutate_data_to_new_buffer d)
    (fun buf w' =>
       self w' = self w /\ trace w' = trace w /\
       length buf =
         if (Nat.min (length (buffer d)) (index d) <=? 1)%nat
         then Nat.min (length (buffer d)) (index d)
         else length (buffer d))
    (fun _ _ => False) w.
Proof.
  intros Hint. unfold mutate_data_to_new_buffer. cbv zeta.
  destruct (Z.eqb_spec (Z.min (Z.of_nat (length (buffer d)))
                              (Z.of_nat (index d))) 0) as [H0|H0].
  { apply twp_ret. split; [reflexivity|]. split; [reflexivity|].
    replace (Nat.min (length (buffer d)) (index d)) with 0%nat by lia.
    reflexivity. }
  destruct (Z.eqb_spec (Z.min (Z.of_nat (length (buffer d)))
                              (Z.of_nat (index d))) 1) as [H1|H1].
  { apply twp_urandom; [lia|]. intros bs w' Hl Hs Ht.
    split; [exact Hs|]. split; [exact Ht|].
    replace (Nat.min (length (buffer d)) (index d)) with 1%nat by lia.
    exact Hl. }
  replace (Nat.min (length (buffer d)) (index d) <=? 1)%nat with false
    by (symmetry; apply Nat.leb_gt; lia).
  eapply twp_seq with
    (Qm := fun (_ : bytes) w' => self w' = self w /\ trace w' = trace w).
  { destruct (status_eqb (status d) OVERRUN);
      [apply perturb_bytes_total|apply twp_ret; auto]. }
  intros _ w1 [Hs1 Ht1].
  apply twp_bind. apply twp_urandom; [lia|]. intros pr w2 Hlen Hs2 Ht2.
  apply twp_bind. apply twp_getitem; [rewrite Hlen; simpl; lia|].
  intros probe _.
  replace (Z.of_nat (length (intervals d)) <=? 1) with true
    by (symmetry; apply Z.leb_le; lia).
  rewrite !orb_true_r.
  apply twp_bind. apply twp_randint; [lia|]. intros coin w3 _ Hs3 Ht3.
  rewrite orb_true_r.
  apply twp_bind.
  apply twp_bind. apply twp_randint; [lia|]. intros u w4 Hu Hs4 Ht4.
  apply twp_bind. apply twp_randint; [lia|]. intros v w5 Hv Hs5 Ht5.
  apply twp_ret. cbv beta iota.
  apply twp_bind. apply twp_randint; [lia|]. intros c w6 _ Hs6 Ht6.
  eapply twp_seq with
    (Qm := fun (replace : bytes) w' =>
             self w' = self w /\ trace w' = trace w /\
             length replace = Z.to_nat (v - u)).
  { destruct (c =? 0).
    { apply twp_ret. rewrite repeat_length. repeat split; congruence. }
    destruct (c =? 1).
    { apply twp_ret. rewrite repeat_length. repeat split; congruence. }
    apply twp_urandom; [lia|]. intros bs w' Hl Hs Ht.
    repeat split; congruence. }
  intros replace w7 (Hs7 & Ht7 & Hl7). apply twp_ret.
  split; [exact Hs7|]. split; [exact Ht7|].
  rewrite !length_app, length_firstn, length_skipn, Hl7. lia.
Qed.

(** X13: for a [data] with at most one interval the mutator always
    returns, without an exception and without touching the runner; what it
    returns has [min(len(data.buffer), data.index)] bytes when that is 0 or
    1, and as many bytes as [data.buffer] otherwise. *)
Theorem mutate_few_intervals_total (d : TestData) (w : World) :
  (length (intervals d) <= 1)%nat ->
  exists n buf w',
    (forall fuel, (n <= fuel)%nat ->
       mutate_data_to_new_buffer d fuel w = (Ok buf, w')) /\
    self w' = self w /\ trace w' = trace w /\
    length buf =
      if (Nat.min (length (buffer d)) (index d) <=? 1)%nat
      then Nat.min (length (buffer d)) (index d)
      else length (buffer d).
Proof.
  intros Hint.
  destruct (@mutate_few_intervals_twp d w Hint)
    as (n & r & w' & Hrun & Hpost).
  destruct r as [buf|e|]; [|destruct Hpost|destruct Hpost].
  exists n, buf, w'. split; [exact Hrun|exact Hpost].
Qed.

Lemma pwp_randint (a b : Z) (Q : Z -> World -> Prop) E O w :
  a <= b ->
  (forall x w', a <= x <= b -> self w' = self w -> trace w' = trace w ->
                Q x w') ->
  pwp (randint a b) Q E O w.
Proof.
  intros Hab H fuel r w' Hr. unfold randint in Hr.
  destruct (Z.ltb_spec b a); [lia|].
  inversion Hr; subst r w'. apply H; simpl; try reflexivity.
  pose proof (Z.mod_pos_bound (Z.of_nat (tape (rand_pos w))) (b - a + 1)).
  lia.
Qed.

Lemma pwp_getitem (A : Type) (l : list A) (i : nat)
    (Q : A -> World -> Prop) E O w :
  (i < length l)%nat ->
  (forall x, nth_error l i = Some x -> Q x w) ->
  pwp (getitem l i) Q E O w.
Proof.
  intros Hi H. unfold getitem.
  destruct (nth_error l i) as [x|] eqn:Hn.
  - apply pwp_ret. auto.
  - apply nth_error_None in Hn. lia.
Qed.

Lemma interval_eqb_refl (a : nat * nat) : interval_eqb a a = true.
Proof. unfold interval_eqb. rewrite !Nat.eqb_refl. reflexivity. Qed.

(** X14: when [data] lists at least two intervals that are all the same
    and the mutator's probe byte is above 100, the mutator's
    [while int1 == int2] loop never ends: no amount of fuel gives a
    result. *)
Theorem mutate_equal_intervals_never_returns (d : TestData) (fuel : nat)
    (w : World) :
  (2 <= Nat.min (length (buffer d)) (index d))%nat ->
  status d <> OVERRUN ->
  (2 <= length (intervals d))%nat ->
  (forall a b, In a (intervals d) -> In b (intervals d) -> a = b) ->
  (100 < byte_val (byte_of_mod (tape (rand_pos w))))%nat ->
  fst (mutate_data_to_new_buffer d fuel w) = OutOfFuel.
Proof.
  intros Hn Hst Hlen Hall Hprobe.
  assert (H : pwp (mutate_data_to_new_buffer d)
                (fun _ _ => False) (fun _ _ => False) (fun _ => True) w).
  { unfold mutate_data_to_new_buffer. cbv zeta.
    destruct (Z.eqb_spec (Z.min (Z.of_nat (length (buffer d)))
                                (Z.of_nat (index d))) 0); [lia|].
    destruct (Z.eqb_spec (Z.min (Z.of_nat (length (buffer d)))
                                (Z.of_nat (index d))) 1); [lia|].
    destruct (status_eqb (status d) OVERRUN) eqn:Hs;
      [apply status_eqb_eq in Hs; contradiction|].
    apply pwp_bind, pwp_ret. apply pwp_bind.
    intros fuel1 r1 w1 Hr1. unfold urandom in Hr1. cbn in Hr1.
    inversion Hr1; subst r1 w1. clear Hr1.
    rewrite Nat.add_0_r. apply pwp_bind, pwp_ret.
    replace (byte_val (byte_of_mod (tape (rand_pos w))) <=? 100)%nat
      with false by (symmetry; apply Nat.leb_gt; lia).
    replace (Z.of_nat (length (intervals d)) <=? 1) with false
      by (symmetry; apply Z.leb_gt; lia).
    cbn [orb].
    eapply pwp_seq with (Qm := fun _ _ => False); [|intros _ _ []].
    apply pwp_while with
      (I := fun (ints : option (nat * nat) * option (nat * nat))
                (_ : World) =>
              ints = (None, None) \/
              exists a, ints = (Some a, Some a)).
    { left. reflexivity. }
    { intros _ _ _. exact I. }
    intros ints w1 Hints.
    assert (Hbody :
      pwp (i <- randint 0 (Z.of_nat (length (intervals d)) - 2) ;;
           int1 <- getitem (intervals d) (Z.to_nat i) ;;
           j <- randint (i + 1) (Z.of_nat (length (intervals d)) - 1) ;;
           int2 <- getitem (intervals d) (Z.to_nat j) ;;
           ret (Next (Some int1, Some int2)))
        (fun f (_ : World) =>
           match f with
           | Next l' => l' = (None, None) \/ exists a, l' = (Some a, Some a)
           | Break _ => False
           end) (fun _ _ => False) (fun _ => True) w1).
    { apply pwp_bind, pwp_randint; [lia|]. intros i w2 Hi _ _.
      apply pwp_bind, pwp_getitem; [lia|]. intros int1 H1.
      apply pwp_bind, pwp_randint; [lia|]. intros j w3 Hj _ _.
      apply pwp_bind, pwp_getitem; [lia|]. intros int2 H2.
      apply pwp_ret. right. exists int1.
      apply nth_error_In in H1. apply nth_error_In in H2.
      rewrite (Hall int2 int1 H2 H1). reflexivity. }
    destruct Hints as [->|[a ->]]; apply pwp_ret;
      [|rewrite interval_eqb_refl]; exact Hbody. }
  specialize (H fuel).
  destruct (mutate_data_to_new_buffer d fuel w) as [r w'].
  specialize (H r w' eq_refl). destruct r; [destruct H|destruct H|reflexivity].
Qed.

(* ================================================================== *)
(** * How often the generation phase calls the test function *)

Lemma pwp_any (A : Type) (m : M A) (P : World -> Prop) (w : World) :
  (forall fuel r w', m fuel w = (r, w') -> P w') ->
  pwp m (fun _ => P) (fun _ => P) P w.
Proof. intros H fuel r w' Hr. destruct r; eapply H; exact Hr. Qed.

Lemma incorporate_executes_once (buf : bytes) (fuel : nat) (w : World)
    (r : res bool) (w' : World) :
  incorporate_new_buffer buf fuel w = (r, w') ->
  settings (self w') = settings (self w) /\
  count_executed (trace w) <= count_executed (trace w')
    <= count_executed (trace w) + 1.
Proof.
  intros Hr. destruct (last_data (self w)) as [last|] eqn:Hl.
  2:{ rewrite incorporate_new_buffer_none in Hr by exact Hl.
      inversion Hr; subst r w'. cbn [trace add_events app count_executed self settings accept_runner]; split; [reflexivity|lia]. }
  rewrite (incorporate_new_buffer_eq buf fuel w Hl) in Hr.
  destruct (bytes_eqb buf (buffer last)).
  { inversion Hr; subst r w'. cbn [trace add_events app count_executed self settings accept_runner]; split; [reflexivity|lia]. }
  cbv zeta in Hr.
  destruct (transition_allowed last (run_test buf)) as [[|]|e|];
    inversion Hr; subst r w'; cbn [trace add_events app count_executed self settings accept_runner]; (split; [reflexivity|lia]).
Qed.

Lemma new_buffer_executes_once (fuel : nat) (w : World) (r : res unit)
    (w' : World) :
  new_buffer fuel w = (r, w') ->
  settings (self w') = settings (self w) /\
  count_executed (trace w) <= count_executed (trace w')
    <= count_executed (trace w) + 1.
Proof.
  intros Hr. rewrite new_buffer_eq in Hr. cbv zeta in Hr.
  destruct (fill_size (self w) <? 0).
  { inversion Hr; subst r w'. split; [reflexivity|lia]. }
  destruct (_ <? 0).
  { inversion Hr; subst r w'. cbn [trace add_events app count_executed self settings accept_runner]; split; [reflexivity|lia]. }
  inversion Hr; subst r w'. cbn [trace add_events app count_executed self settings accept_runner]; split; [reflexivity|lia].
Qed.

Section SearchBudget.

Variable s : Settings.
Hypothesis mutations_positive : 1 <= mutations s.
Hypothesis generations_positive : 1 <= generations s.

Lemma generate_budget :
  pwp generate (fun _ => within_budget s) (fun _ => within_budget s)
    (within_budget s) (World_init s).
Proof.
  unfold generate.
  eapply pwp_seq with
    (Qm := fun (_ : unit) w =>
             settings (self w) = s /\ count_executed (trace w) <= 1).
  { eapply pwp_conseq.
    - apply pwp_any with
        (P := fun w => settings (self w) = s /\
                       count_executed (trace w) <= 1).
      intros fuel r w' Hr. apply new_buffer_executes_once in Hr.
      simpl in Hr. destruct Hr as [Hs Hc]. split; [exact Hs|lia].
    - auto.
    - intros e w' [Hs Hc]. split; [exact Hs|nia].
    - intros w' [Hs Hc]. split; [exact Hs|nia]. }
  intros _ w1 [Hs1 Hc1].
  eapply pwp_seq with (Qm := fun (_ : Z * Z * bool) => within_budget s);
    [|intros st w' H; apply pwp_ret; exact H].
  apply pwp_while with
    (I := fun (st : Z * Z * bool) w =>
            settings (self w) = s /\
            0 <= fst (fst st) <= mutations s /\
            0 <= snd (fst st) < generations s /\
            count_executed (trace w) <=
              1 + snd (fst st) * mutations s + fst (fst st)).
  { cbn [fst snd]. repeat split; auto; lia. }
  { intros st w (Hs & Hm & Hg & Hc). split; [exact Hs|nia]. }
  intros [[m g] returned] w (Hs & Hm & Hg & Hc). cbn [fst snd] in *.
  assert (Hin : within_budget s w) by (split; [exact Hs|nia]).
  apply pwp_bind. apply pwp_get_last_data; [|intros _; exact Hin].
  intros d Hl. apply pwp_ret.
  destruct (negb (status_eqb (status d) INTERESTING)); [|exact Hin].
  apply pwp_bind, pwp_gets. cbv beta. rewrite Hs.
  destruct (Z.leb_spec (mutations s) m) as [Hfull|Hroom].
  - cbv zeta. apply pwp_bind, pwp_gets. cbv beta. rewrite Hs.
    destruct (Z.leb_spec (generations s) (g + 1)) as [Hlast|Hmore].
    { apply pwp_ret. exact Hin. }
    apply pwp_bind. apply pwp_get_last_data; [|intros _; exact Hin].
    intros d2 Hl2.
    eapply pwp_seq with
      (Qm := fun (_ : bytes) w1 => self w1 = self w /\ trace w1 = trace w).
    { eapply pwp_conseq; [apply mutate_frame|auto| |].
      - intros e w' [[Hs' Ht'] _]. unfold within_budget.
        rewrite Hs', Ht'. exact Hin.
      - intros w' [Hs' Ht']. unfold within_budget.
        rewrite Hs', Ht'. exact Hin. }
    intros buf w3 [Hs3 Ht3].
    eapply pwp_seq with
      (Qm := fun (_ : bool) w4 =>
               settings (self w4) = s /\
               count_executed (trace w4) <= count_executed (trace w) + 1).
    { eapply pwp_conseq.
      - apply pwp_any with
          (P := fun w4 => settings (self w4) = s /\
                  count_executed (trace w4) <= count_executed (trace w) + 1).
        intros fuel r w' Hr. apply incorporate_executes_once in Hr.
        rewrite Hs3, Ht3 in Hr. destruct Hr as [Hs4 Hc4].
        split; [congruence|lia].
      - auto.
      - intros e w' [Hs' Hc']. split; [exact Hs'|nia].
      - intros w' [Hs' Hc']. split; [exact Hs'|nia]. }
    intros ok w4 [Hs4 Hc4]. apply pwp_ret. cbn [fst snd].
    split; [exact Hs4|]. split; [lia|]. split; [lia|]. nia.
  - eapply pwp_seq with
      (Qm := fun (_ : unit) w4 =>
               settings (self w4) = s /\
               count_executed (trace w4) <= count_executed (trace w) + 1).
    { eapply pwp_conseq.
      - apply pwp_any with
          (P := fun w4 => settings (self w4) = s /\
                  count_executed (trace w4) <= count_executed (trace w) + 1).
        intros fuel r w' Hr. apply new_buffer_executes_once in Hr.
        destruct Hr as [Hs4 Hc4]. split; [congruence|lia].
      - auto.
      - intros e w' [Hs' Hc']. split; [exact Hs'|nia].
      - intros w' [Hs' Hc']. split; [exact Hs'|nia]. }
    intros u w4 [Hs4 Hc4]. apply pwp_ret. cbn [fst snd].
    split; [exact Hs4|]. split; [lia|]. split; [lia|]. lia.
Qed.

(** X15: when [find_interesting_buffer] comes back with nothing, the test
    function was called at most [1 + generations * mutations] times. *)
Theorem fruitless_search_budget (fuel : nat) :
  find_interesting_buffer s fuel = Ok None ->
  count_executed (trace (snd (run fuel (World_init s)))) <=
    1 + generations s * mutations s.
Proof.
  intros Hfind. unfold find_interesting_buffer in Hfind.
  destruct (run fuel (World_init s)) as [r w'] eqn:Hrun. cbn [snd].
  pose proof (@run_trace s fuel r w' Hrun) as (_ & _ & Hcur & _ & Hok & _).
  unfold run, except_StopShrinking, _run, bind in Hrun.
  destruct (generate fuel (World_init s)) as [r1 w1] eqn:Hgen.
  pose proof (@generate_budget fuel r1 w1 Hgen) as Hb.
  pose proof (@generate_spec s fuel r1 w1 Hgen) as Hspec.
  destruct r1 as [[|]|e|].
  - (* an INTERESTING buffer was found: the result cannot be nothing *)
    exfalso. destruct Hspec as [HG Hfound].
    destruct (Hfound eq_refl) as (d1 & Hd1 & Hst1).
    destruct HG as ((_ & Hcur1 & _) & _).
    assert (Hsince : accepted_since w1 w').
    { destruct (shrink fuel w1) as [r2 w2] eqn:Hsh.
      assert (H0 : accepted_since w1 w1).
      { exists []. split; [reflexivity|]. intros last data []. }
      pose proof (@accepted_since_shrink w1 w1 H0 fuel r2 w2 Hsh) as H.
      assert (w2 = w') by (destruct r2 as [|[]|]; congruence). subst w2.
      destruct r2; exact H. }
    destruct Hsince as (t & Ht & _).
    rewrite Ht in Hok, Hcur. rewrite Hd1 in Hcur1. symmetry in Hcur1.
    destruct (interesting_stays _ _ Hok Hcur1 Hst1) as (d & Hd & Hsd).
    rewrite Hd in Hcur. rewrite Hcur in Hfind.
    destruct r as [[]| |]; try discriminate.
    apply status_eqb_eq in Hsd. rewrite Hsd in Hfind. discriminate.
  - inversion Hrun; subst r w'. apply Hb.
  - assert (w1 = w') by (destruct e; congruence). subst w1. apply Hb.
  - inversion Hrun; subst r w'. discriminate.
Qed.

End SearchBudget.

(* ================================================================== *)
(** * A search that finds nothing *)

Section FruitlessSearch.

Variable s : Settings.
Hypothesis size_nonneg : 0 <= buffer_size s.
Hypothesis never_interesting :
  forall buf, ex_status (callback buf) <> INTERESTING.
Hypothesis few_intervals :
  forall buf, (length (ex_intervals (callback buf)) <= 1)%nat.





End FruitlessSearch.

(* ================================================================== *)
(** * The result of a finished shrink phase *)

Lemma pwp_emit (e : Event) (Q : unit -> World -> Prop) E O w :
  Q tt (add_events [e] w) -> pwp (emit e) Q E O w.
Proof. intros H fuel r w' Hr. inversion Hr; subst. exact H. Qed.

Lemma keeps_pwp (P : World -> Prop) (A : Type) (m : M A) (w : World) :
  keeps P (fun _ _ => True) m -> P w ->
  pwp m (fun _ => P) (fun _ _ => True) (fun _ => True) w.
Proof.
  intros Hk Hw. eapply pwp_conseq; [apply Hk; exact Hw|auto|auto|auto].
Qed.

Section KeepsPasses.

Variable Inv : World -> Prop.
Variable E : exn -> World -> Prop.

Hypothesis Inv_raise :
  forall e w, e <> StopShrinking -> e <> AssertionError -> Inv w -> E e w.
Hypothesis Inv_random :
  forall w n, Inv w ->
    Inv {| self := self w; rand_pos := n; trace := trace w |}.
Hypothesis Inv_incorporate :
  forall buf, keeps Inv E (incorporate_new_buffer buf).

Ltac pass := keeps_auto ltac:(first [apply Inv_incorporate | assumption]).

Lemma keeps_delete_intervals : keeps Inv E delete_intervals.
Proof. unfold delete_intervals. pass. Qed.

Lemma keeps_sort_intervals : keeps Inv E sort_intervals.
Proof. unfold sort_intervals. pass. Qed.

Lemma keeps_zero_windows : keeps Inv E zero_windows.
Proof. unfold zero_windows. pass. Qed.

Lemma keeps_lower_byte (buf : bytes) (i : nat) :
  keeps Inv E
    (bi <- getitem buf i ;;
     for_each (seq 0 (byte_val bi))
       (fun c _ =>
          bc <- byte_of c ;;
          ok1 <- incorporate_new_buffer
                   (firstn i buf ++ [bc] ++ skipn (i + 1) buf) ;;
          if ok1 then ret (Break tt)
          else
            tail <- urandom (Z.of_nat (length buf) - Z.of_nat i - 1) ;;
            ok2 <- incorporate_new_buffer (firstn i buf ++ [bc] ++ tail) ;;
            if ok2 then ret (Break tt) else ret (Next tt))
       tt ;;
     ret tt).
Proof. pass. Qed.

Lemma keeps_swap_adjacent : keeps Inv E swap_adjacent.
Proof. unfold swap_adjacent. pass. Qed.

Lemma keeps_borrow_left : keeps Inv E borrow_left.
Proof. unfold borrow_left. pass. Qed.

Lemma keeps_equal_pairs : keeps Inv E equal_pairs.
Proof. unfold equal_pairs. pass. Qed.

Lemma keeps_order_pairs : keeps Inv E order_pairs.
Proof. unfold order_pairs. pass. Qed.

End KeepsPasses.

Lemma pwp_byte_of (n : nat) (Q : byte -> World -> Prop) E O w :
  (forall b, byte_val b = n -> Q b w) ->
  E ValueError w ->
  pwp (byte_of n) Q E O w.
Proof.
  intros H He. unfold byte_of.
  destruct (Byte.of_nat n) as [b|] eqn:Hb.
  - apply pwp_ret. apply H. apply Byte.to_of_nat. exact Hb.
  - apply pwp_raise. exact He.
Qed.

Lemma pwp_urandom (n : Z) (Q : bytes -> World -> Prop) E O w :
  (forall bs w', self w' = self w -> trace w' = trace w -> Q bs w') ->
  E ValueError w ->
  pwp (urandom n) Q E O w.
Proof.
  intros H He fuel r w' Hr. unfold urandom in Hr.
  destruct (n <? 0); inversion Hr; subst r w'; [exact He|].
  apply H; reflexivity.
Qed.

(** The rule of [for] with an invariant that knows how many elements have
    been dealt with. *)
Lemma pwp_for_each_indexed (A L : Type) (xs : list A)
    (body : A -> L -> M (flow L)) (J : nat -> L -> World -> Prop)
    (Q : L -> World -> Prop) E O l w :
  J 0%nat l w ->
  (forall k x l w, nth_error xs k = Some x -> J k l w ->
     pwp (body x l)
       (fun f w' =>
          match f with
          | Next l' => J (S k) l' w'
          | Break l' => Q l' w'
          end) E O w) ->
  (forall l w, J (length xs) l w -> Q l w) ->
  pwp (for_each xs body l) Q E O w.
Proof.
  revert J l w. induction xs as [|x xs IH]; intros J l w H0 Hbody Hend.
  - apply pwp_ret. apply Hend. exact H0.
  - cbn [for_each]. apply pwp_bind.
    eapply pwp_conseq; [apply (Hbody 0%nat x l w eq_refl H0)| |auto|auto].
    intros [l'|l'] w' H; [|apply pwp_ret; exact H].
    apply IH with (J := fun k => J (S k)); [exact H| |exact Hend].
    intros k y l1 w1 Hy. apply (Hbody (S k)). exact Hy.
Qed.

Lemma replaced_byte_differs (buf : bytes) (i : nat) (x v : byte) :
  nth_error buf i = Some x -> v <> x ->
  firstn i buf ++ [v] ++ skipn (i + 1) buf <> buf.
Proof.
  intros Hx Hv Heq.
  assert (Hi : (i < length buf)%nat)
    by (apply nth_error_Some; congruence).
  assert (Hn : nth_error (firstn i buf ++ [v] ++ skipn (i + 1) buf) i
               = Some v).
  { rewrite nth_error_app2 by (rewrite length_firstn; lia).
    rewrite length_firstn.
    replace (i - Nat.min i (length buf))%nat with 0%nat by lia.
    reflexivity. }
  rewrite Heq, Hx in Hn. congruence.
Qed.

Section LocalMinimum.

Variable s : Settings.
Variable initial : Z.
Variable w0 : World.

Lemma sweep_progress_left (P : Prop) (w : World) :
  ShrinkAux s initial w -> changed (self w0) < changed (self w) ->
  sweep_progress s initial w0 P w.
Proof. intros Haux Hlt. split; [exact Haux|left; exact Hlt]. Qed.

Lemma sweep_progress_changed (P : Prop) (w : World) :
  sweep_progress s initial w0 P w -> changed (self w0) <= changed (self w).
Proof. intros [_ [H|[H _]]]; [lia|rewrite H; lia]. Qed.

Lemma sweep_progress_weaken (P P' : Prop) (w : World) :
  (P -> P') ->
  sweep_progress s initial w0 P w -> sweep_progress s initial w0 P' w.
Proof.
  intros HP [Haux [H|[H1 H2]]]; (split; [exact Haux|]); [left|right]; auto.
Qed.

Lemma sweep_progress_self (P : Prop) (w w' : World) :
  self w' = self w ->
  sweep_progress s initial w0 P w -> sweep_progress s initial w0 P w'.
Proof.
  intros Hs H. unfold sweep_progress, ShrinkAux. rewrite Hs. exact H.
Qed.

Lemma progress_incorporate (P : Prop) (buf : bytes) :
  keeps (sweep_progress s initial w0 P) (fun _ _ => True)
    (incorporate_new_buffer buf).
Proof.
  intros w HI fuel r w' Hr.
  destruct (incorporate_cases _ _ _ Hr) as [_ Hc].
  destruct Hc as [(Hself & _)|(last & Hl & Hta & Hself & _ & Hres)].
  - assert (H : sweep_progress s initial w0 P w')
      by (apply (@sweep_progress_self _ _ _ Hself); exact HI).
    destruct r; [exact H|exact I|exact H].
  - pose proof (sweep_progress_changed HI) as Hle.
    destruct HI as [(Hs & (d & Hd & Hst) & Hdiff & Hsh0 & Hbud) _].
    replace d with last in * by congruence.
    destruct Hres as [[-> Hlt]|[-> _]]; [|exact I].
    apply sweep_progress_left.
    + unfold ShrinkAux. rewrite Hself in *. unfold accept_runner in *.
      cbn [settings last_data changed shrinks] in *.
      assert (Hi : status_eqb (status last) INTERESTING = true)
        by (apply status_eqb_eq; exact Hst).
      rewrite Hi in *. rewrite Hs in *.
      split; [reflexivity|]. split.
      { eexists. split; [reflexivity|].
        apply (transition_allowed_true _ _ Hta). exact Hst. }
      split; [lia|]. split; [lia|]. left. exact Hlt.
    + rewrite Hself. cbn [accept_runner changed]. lia.
Qed.

(** What the result of [incorporate_new_buffer] tells: with [True] a
    candidate was accepted; with [False] the runner is as it was, and the
    acceptor said no if the candidate was not the current buffer. *)
Lemma progress_incorporate_result (P : Prop) (buf : bytes) (w : World)
    (d : TestData) :
  sweep_progress s initial w0 P w ->
  last_data (self w) = Some d ->
  pwp (incorporate_new_buffer buf)
    (fun ok w' =>
       sweep_progress s initial w0 P w' /\
       (ok = true -> changed (self w0) < changed (self w')) /\
       (ok = false ->
        self w' = self w /\
        (buf <> buffer d ->
         transition_allowed d (run_test buf) = Ok false)))
    (fun _ _ => True) (fun _ => True) w.
Proof.
  intros HI Hd fuel r w' Hr.
  pose proof (@progress_incorporate P buf w HI fuel r w' Hr) as Hkeep.
  pose proof (sweep_progress_changed HI) as Hle.
  rewrite (incorporate_new_buffer_eq buf fuel w Hd) in Hr.
  destruct (bytes_eqb buf (buffer d)) eqn:Heq.
  { apply bytes_eqb_eq in Heq. inversion Hr; subst r w'.
    split; [exact Hkeep|]. split; [discriminate|]. intros _.
    split; [reflexivity|]. intros Hne. contradiction. }
  cbv zeta in Hr.
  destruct (transition_allowed d (run_test buf)) as [[|]|e|] eqn:Hta.
  - destruct (_ <=? _); inversion Hr; subst r w'; [exact I|].
    split; [exact Hkeep|]. split; [|discriminate].
    intros _. cbn [self accept_runner changed]. lia.
  - inversion Hr; subst r w'. split; [exact Hkeep|].
    split; [discriminate|]. intros _. split; reflexivity.
  - inversion Hr; subst r w'. exact I.
  - inversion Hr; subst r w'. exact I.
Qed.

(** The lowering of the byte at [i], after its deletion was turned down:
    without an acceptance every smaller value has been turned down too. *)
Lemma lower_byte_rejects (i : nat) (d : TestData) (w : World) :
  (i < length (buffer d))%nat ->
  sweep_progress s initial w0
    (last_data (self w0) = Some d /\ bytes_reduced d i /\
     transition_allowed d
       (run_test (firstn i (buffer d) ++ skipn (i + 1) (buffer d)))
     = Ok false) w ->
  pwp (bi <- getitem (buffer d) i ;;
       for_each (seq 0 (byte_val bi))
         (fun c _ =>
            bc <- byte_of c ;;
            ok1 <- incorporate_new_buffer
                     (firstn i (buffer d) ++ [bc] ++
                      skipn (i + 1) (buffer d)) ;;
            if ok1 then ret (Break tt)
            else
              tail <- urandom (Z.of_nat (length (buffer d)) - Z.of_nat i - 1) ;;
              ok2 <- incorporate_new_buffer
                       (firstn i (buffer d) ++ [bc] ++ tail) ;;
              if ok2 then ret (Break tt) else ret (Next tt))
         tt ;;
       ret tt)
    (fun _ =>
       sweep_progress s initial w0
         (last_data (self w0) = Some d /\ bytes_reduced d (i + 1)))
    (fun _ _ => True) (fun _ => True) w.
Proof.
  intros Hi HI.
  apply pwp_bind, pwp_getitem; [exact Hi|]. intros bi Hbi.
  eapply pwp_seq with
    (Qm := fun (_ : unit) =>
             sweep_progress s initial w0
               (last_data (self w0) = Some d /\ bytes_reduced d (i + 1)));
    [|intros u w' H; apply pwp_ret; exact H].
  apply pwp_for_each_indexed with
    (J := fun (k : nat) (_ : unit) w1 =>
            sweep_progress s initial w0
              (last_data (self w0) = Some d /\ bytes_reduced d i /\
               transition_allowed d
                 (run_test (firstn i (buffer d) ++ skipn (i + 1) (buffer d)))
               = Ok false /\
               forall v, (byte_val v < k)%nat ->
                 transition_allowed d
                   (run_test (firstn i (buffer d) ++ [v] ++
                              skipn (i + 1) (buffer d))) = Ok false) w1).
  - eapply sweep_progress_weaken; [|exact HI].
    intros (H1 & H2 & H3). repeat split; try assumption; try apply H2.
    intros v Hv. lia.
  - intros k c [] w1 Hnth HJ.
    assert (Hk : (k < byte_val bi)%nat /\ c = k).
    { assert (Hlt : (k < length (seq 0 (byte_val bi)))%nat)
        by (apply nth_error_Some; congruence).
      rewrite length_seq in Hlt. split; [exact Hlt|].
      apply nth_error_nth with (d := 0%nat) in Hnth.
      rewrite seq_nth in Hnth by exact Hlt. lia. }
    destruct Hk as [Hk ->].
    apply pwp_bind, pwp_byte_of; [|exact I]. intros bc Hbc.
    pose proof HJ as [(_ & (d1 & Hd1 & _) & _) _].
    eapply pwp_seq; [apply (progress_incorporate_result _ HJ Hd1)|].
    intros ok1 w2 (H2 & Htrue & Hfalse). cbv beta.
    destruct ok1.
    { apply pwp_ret. apply sweep_progress_left; [apply H2|auto]. }
    destruct (Hfalse eq_refl) as [Hself2 Hrej2].
    apply pwp_bind. apply pwp_urandom; [|exact I].
    intros tail w3 Hself3 _.
    assert (H3 : sweep_progress s initial w0
                   (last_data (self w0) = Some d /\ bytes_reduced d i /\
                    transition_allowed d
                      (run_test (firstn i (buffer d) ++
                                 skipn (i + 1) (buffer d))) = Ok false /\
                    forall v, (byte_val v < k)%nat ->
                      transition_allowed d
                        (run_test (firstn i (buffer d) ++ [v] ++
                                   skipn (i + 1) (buffer d))) = Ok false) w3).
    { apply (@sweep_progress_self _ w1 w3);
        [rewrite Hself3; exact Hself2|exact HJ]. }
    assert (Hd3 : last_data (self w3) = Some d1)
      by (rewrite Hself3, Hself2; exact Hd1).
    eapply pwp_seq; [apply (progress_incorporate_result _ H3 Hd3)|].
    intros ok2 w4 (H4 & Htrue4 & Hfalse4). cbv beta.
    destruct ok2; apply pwp_ret.
    { apply sweep_progress_left; [apply H4|auto]. }
    destruct (Hfalse4 eq_refl) as [Hself4 _].
    destruct H4 as [Haux4 [Hlt4|[Hs4 (HP1 & HP2 & HP3 & HP4)]]];
      [apply sweep_progress_left; assumption|].
    split; [exact Haux4|]. right. split; [exact Hs4|].
    split; [exact HP1|]. split; [exact HP2|]. split; [exact HP3|].
    intros v Hv.
    destruct (Nat.eq_dec (byte_val v) k) as [Hvk|Hvk]; [|apply HP4; lia].
    assert (v = bc) by (apply byte_val_inj; congruence). subst v.
    assert (d1 = d).
    { rewrite Hself4, Hself3, Hself2 in Hs4. rewrite Hs4, HP1 in Hd1.
      congruence. }
    subst d1. apply Hrej2.
    apply (@replaced_byte_differs _ _ bi); [exact Hbi|].
    intros ->. lia.
  - intros [] w1 HJ. rewrite length_seq in HJ.
    eapply sweep_progress_weaken; [|exact HJ].
    intros (H1 & [Hdel Hlow] & Hdi & Hall). split; [exact H1|]. split.
    + intros j Hj. destruct (Nat.eq_dec j i) as [->|Hne];
        [exact Hdi|apply Hdel; lia].
    + intros j x v Hj Hx Hv. destruct (Nat.eq_dec j i) as [->|Hne].
      * apply Hall. rewrite Hbi in Hx. inversion Hx; subst x. exact Hv.
      * apply (Hlow j x v); [lia|exact Hx|exact Hv].
Qed.

Lemma reduce_bytes_rejects (w : World) :
  sweep_progress s initial w0 True w ->
  pwp reduce_bytes
    (fun _ => sweep_progress s initial w0 (locally_minimal w0))
    (fun _ _ => True) (fun _ => True) w.
Proof.
  intros HI. unfold reduce_bytes.
  eapply pwp_seq with
    (Qm := fun (_ : nat) => sweep_progress s initial w0 (locally_minimal w0));
    [|intros i w' H; apply pwp_ret; exact H].
  apply pwp_while with
    (I := fun (i : nat) w1 =>
            sweep_progress s initial w0
              (forall d, last_data (self w0) = Some d -> bytes_reduced d i)
              w1).
  { eapply sweep_progress_weaken; [|exact HI].
    intros _ d _. split; [intros j Hj; lia|intros j x v Hj; lia]. }
  { intros _ _ _. exact I. }
  intros i w1 H1.
  pose proof H1 as [Haux Hprog].
  apply pwp_bind. apply pwp_get_last_data; [|intros _; exact I].
  intros d Hd. apply pwp_ret.
  destruct (Nat.ltb_spec i (length (buffer d))) as [Hi|Hi].
  - apply pwp_bind. apply pwp_get_last_data; [|intros _; exact I].
    intros d' Hd'. replace d' with d by congruence. cbv zeta.
    eapply pwp_seq; [apply (progress_incorporate_result _ H1 Hd)|].
    intros ok w2 (H2 & Htrue & Hfalse). cbv beta.
    eapply pwp_seq with
      (Qm := fun (_ : unit) =>
               sweep_progress s initial w0
                 (forall d, last_data (self w0) = Some d ->
                            bytes_reduced d (i + 1))).
    2:{ intros u w3 H3. apply pwp_ret. exact H3. }
    destruct ok.
    + apply pwp_ret. apply sweep_progress_left; [apply H2|auto].
    + destruct (Hfalse eq_refl) as [Hself Hta].
      assert (Hne : firstn i (buffer d) ++ skipn (i + 1) (buffer d)
                    <> buffer d).
      { intros Heq. apply (f_equal (@length byte)) in Heq.
        rewrite length_app, length_firstn, length_skipn in Heq. lia. }
      specialize (Hta Hne).
      eapply pwp_conseq; [apply (@lower_byte_rejects i d w2 Hi)| |auto|auto].
      * destruct H2 as [Haux2 [Hlt|[Hs0 Hred]]];
          [apply sweep_progress_left; assumption|].
        split; [exact Haux2|]. right. split; [exact Hs0|].
        assert (Hd0 : last_data (self w0) = Some d)
          by (rewrite <- Hs0, Hself; exact Hd).
        split; [exact Hd0|]. split; [apply Hred; exact Hd0|exact Hta].
      * intros u w3 H3. eapply sweep_progress_weaken; [|exact H3].
        intros [Hd0 Hred] d0 Hd0'. replace d0 with d by congruence.
        exact Hred.
  - destruct Hprog as [Hlt|[Hs0 Hred]];
      [apply sweep_progress_left; assumption|].
    split; [exact Haux|]. right. split; [exact Hs0|].
    intros d0 Hd0.
    assert (d0 = d) by (rewrite <- Hs0, Hd in Hd0; congruence). subst d0.
    destruct (Hred d Hd0) as [Hdel Hlow].
    split; [intros j Hj; apply Hdel; lia|].
    intros j x v Hj Hx Hv. apply (Hlow j x v); [lia|exact Hx|exact Hv].
Qed.

End LocalMinimum.

Section ShrinkMinimal.

Variable s : Settings.
Variable initial : Z.
Hypothesis budget_nonneg : 0 <= max_shrinks s.

Lemma sweep_minimal (w : World) :
  ShrinkAux s initial w ->
  pwp sweep
    (fun f w' =>
       match f with
       | Next cc =>
           ShrinkAux s initial w' /\
           (cc < changed (self w') \/
            (cc = changed (self w') /\ locally_minimal w'))
       | Break _ => False
       end)
    (fun _ _ => True) (fun _ => True) w.
Proof.
  intros Haux. unfold sweep.
  apply pwp_bind, pwp_emit.
  set (w0 := add_events [EvSweep] w).
  apply pwp_bind. apply pwp_get_last_data; [|intros _; exact I].
  intros d Hd.
  apply pwp_bind.
  destruct (status_eqb (status d) INTERESTING);
    [apply pwp_ret|apply pwp_raise; exact I].
  apply pwp_bind, pwp_gets. cbv beta.
  assert (H0 : sweep_progress s initial w0 True w0).
  { split; [exact Haux|]. right. split; [reflexivity|exact I]. }
  assert (Hfinish : forall w1,
            sweep_progress s initial w0 (locally_minimal w0) w1 ->
            ShrinkAux s initial w1 /\
            (changed (self w0) < changed (self w1) \/
             (changed (self w0) = changed (self w1) /\ locally_minimal w1))).
  { intros w1 [Haux1 [Hlt|[Hself Hmin]]]; (split; [exact Haux1|]);
      [left; exact Hlt|right].
    split; [rewrite Hself; reflexivity|].
    unfold locally_minimal. rewrite Hself. exact Hmin. }
  eapply pwp_seq with (Qm := fun (_ : unit) => sweep_progress s initial w0 True).
  { apply keeps_pwp; [|exact H0].
    apply keeps_delete_intervals;
      first [intros buf; apply progress_incorporate
            |intros ? ? H; exact H|intros; exact I]. }
  intros _ w1 H1.
  eapply pwp_seq with (Qm := fun (_ : unit) => sweep_progress s initial w0 True).
  { apply keeps_pwp; [|exact H1].
    apply keeps_sort_intervals;
      first [intros buf; apply progress_incorporate
            |intros ? ? H; exact H|intros; exact I]. }
  intros _ w2 H2.
  eapply pwp_seq with (Qm := fun (_ : unit) => sweep_progress s initial w0 True).
  { apply keeps_pwp; [|exact H2].
    apply keeps_zero_windows;
      first [intros buf; apply progress_incorporate
            |intros ? ? H; exact H|intros; exact I]. }
  intros _ w3 H3.
  eapply pwp_seq; [apply reduce_bytes_rejects; exact H3|].
  intros u4 w4 H4. cbv beta in H4.
  eapply pwp_seq with
    (Qm := fun (_ : unit) =>
             sweep_progress s initial w0 (locally_minimal w0)).
  { apply keeps_pwp; [|exact H4].
    apply keeps_swap_adjacent;
      first [intros buf; apply progress_incorporate
            |intros ? ? H; exact H|intros; exact I]. }
  intros _ w5 H5.
  apply pwp_bind, pwp_gets. cbv beta.
  destruct (_ <? _); [apply pwp_ret; apply Hfinish; exact H5|].
  eapply pwp_seq with
    (Qm := fun (_ : unit) =>
             sweep_progress s initial w0 (locally_minimal w0)).
  { apply keeps_pwp; [|exact H5].
    apply keeps_borrow_left;
      first [intros buf; apply progress_incorporate
            |intros ? ? H; exact H|intros; exact I]. }
  intros _ w6 H6.
  apply pwp_bind, pwp_gets. cbv beta.
  destruct (_ <? _); [apply pwp_ret; apply Hfinish; exact H6|].
  eapply pwp_seq with
    (Qm := fun (_ : unit) =>
             sweep_progress s initial w0 (locally_minimal w0)).
  { apply keeps_pwp; [|exact H6].
    apply keeps_equal_pairs;
      first [intros buf; apply progress_incorporate
            |intros ? ? H; exact H|intros; exact I]. }
  intros _ w7 H7.
  apply pwp_bind, pwp_gets. cbv beta.
  destruct (_ <? _); [apply pwp_ret; apply Hfinish; exact H7|].
  eapply pwp_seq with
    (Qm := fun (_ : unit) =>
             sweep_progress s initial w0 (locally_minimal w0)).
  { apply keeps_pwp; [|exact H7].
    apply keeps_order_pairs;
      first [intros buf; apply progress_incorporate
            |intros ? ? H; exact H|intros; exact I]. }
  intros _ w8 H8. apply pwp_ret. apply Hfinish. exact H8.
Qed.

Lemma shrink_minimal (w : World) :
  ShrinkAux s initial w -> changed (self w) = initial ->
  0 <= changed (self w) ->
  pwp shrink (fun _ => locally_minimal) (fun _ _ => True) (fun _ => True) w.
Proof.
  intros Haux Hinit Hpos. unfold shrink.
  apply pwp_bind, pwp_gets. cbv beta. rewrite Hinit.
  eapply pwp_seq with (Qm := fun (_ : Z) => locally_minimal);
    [|intros cc w' H; apply pwp_ret; exact H].
  apply pwp_while with
    (I := fun (cc : Z) w' =>
            ShrinkAux s initial w' /\
            (cc < changed (self w') \/
             (cc = changed (self w') /\ locally_minimal w'))).
  { split; [exact Haux|]. left. lia. }
  { intros _ _ _. exact I. }
  intros cc w1 [Haux1 Hprog].
  apply pwp_bind, pwp_gets. cbv beta.
  apply pwp_bind, pwp_gets. cbv beta. apply pwp_ret.
  destruct Haux1 as (Hs & Hd & Hdiff & Hsh0 & Hbud).
  rewrite Hs.
  replace (changed (self w1) <=? initial + max_shrinks s) with true
    by (symmetry; apply Z.leb_le; lia).
  cbn [andb].
  destruct (Z.ltb_spec cc (changed (self w1))) as [Hlt|Hge].
  - eapply pwp_conseq;
      [apply sweep_minimal; repeat split; assumption| |auto|auto].
    intros [cc'|cc'] w2 H; [exact H|destruct H].
  - destruct Hprog as [Hlt|[_ Hmin]]; [lia|exact Hmin].
Qed.

End ShrinkMinimal.

(** When the generation phase gives up, [last_data] is not INTERESTING. *)
Lemma generate_gives_up (w : World) :
  pwp generate (fun found w' => found = false -> searching w')
    (fun _ _ => True) (fun _ => True) w.
Proof.
  assert (Hany : forall (A : Type) (m : M A) (Q : A -> World -> Prop) w1,
            (forall a w', Q a w') ->
            pwp m Q (fun _ _ => True) (fun _ => True) w1).
  { intros A m Q w1 HQ fuel r w' _. destruct r; [apply HQ|exact I|exact I]. }
  unfold generate.
  apply pwp_bind. apply Hany. intros _ w1.
  eapply pwp_seq with
    (Qm := fun (st : Z * Z * bool) w' => snd st = true -> searching w').
  2:{ intros st w' H. apply pwp_ret. intros Hf. apply H.
      destruct (snd st); [reflexivity|discriminate]. }
  apply pwp_while with
    (I := fun (st : Z * Z * bool) (_ : World) => snd st = false).
  { reflexivity. }
  { intros _ _ _. exact I. }
  intros [[m g] returned] w2 Hret. cbn [snd] in Hret. subst returned.
  apply pwp_bind. apply pwp_get_last_data; [|intros _; exact I].
  intros d Hd. apply pwp_ret.
  destruct (status_eqb (status d) INTERESTING) eqn:Hst; cbn [negb];
    [discriminate|].
  apply pwp_bind, pwp_gets. cbv beta.
  destruct (_ <=? m).
  - cbv zeta. apply pwp_bind, pwp_gets. cbv beta.
    destruct (_ <=? g + 1).
    { apply pwp_ret. intros _ d' Hd' Hi.
      replace d' with d in * by congruence.
      apply status_eqb_eq in Hi. congruence. }
    apply pwp_bind. apply Hany. intros d2 w3.
    apply pwp_bind. apply Hany. intros buf w4.
    apply pwp_bind. apply Hany. intros ok w5.
    apply pwp_ret. reflexivity.
  - apply pwp_bind. apply Hany. intros u w3.
    apply pwp_ret. reflexivity.
Qed.

Lemma rejected_not_smaller (d c : TestData) :
  status d = INTERESTING -> transition_allowed d c = Ok false ->
  status c <> INTERESTING \/ ~ key_lt (interest_key c) (interest_key d).
Proof.
  intros Hst. unfold transition_allowed, status_ltb. rewrite Hst.
  destruct (status c) eqn:Hc; try (intros _; left; discriminate).
  cbn [status_value status_eqb Z.ltb Z.eqb Z.compare Pos.compare
       Pos.compare_cont Pos.eqb].
  destruct (_ <=? _)%nat; [|discriminate].
  intros H. right. intros Hk. apply key_lt_true in Hk. congruence.
Qed.

(** When [_run] ends by itself on an INTERESTING [last_data], the last
    sweep of the shrink phase accepted nothing. *)
Lemma run_locally_minimal (s : Settings) (fuel : nat) (w' : World)
    (d : TestData) :
  0 <= max_shrinks s ->
  _run fuel (World_init s) = (Ok tt, w') ->
  last_data (self w') = Some d -> status d = INTERESTING ->
  bytes_reduced d (length (buffer d)).
Proof.
  intros Hmax Hrun Hd Hst. unfold _run, bind in Hrun.
  destruct (generate fuel (World_init s)) as [r1 w1] eqn:Hgen.
  pose proof (@generate_spec s fuel r1 w1 Hgen) as Hspec.
  pose proof (@generate_gives_up (World_init s) fuel r1 w1 Hgen) as Hgive.
  destruct r1 as [[|]|e|]; try discriminate.
  - destruct Hspec as [((Hs & _) & Hsh & Hch & _) Hfound].
    destruct (Hfound eq_refl) as (d1 & Hd1 & Hst1).
    assert (Haux : ShrinkAux s (changed (self w1)) w1).
    { unfold ShrinkAux. rewrite Hsh.
      split; [exact Hs|]. split; [eauto|]. split; [lia|].
      split; [lia|]. right. reflexivity. }
    exact (@shrink_minimal s (changed (self w1)) Hmax w1 Haux eq_refl
             Hch fuel (Ok tt) w' Hrun d Hd).
  - inversion Hrun; subst w'. exfalso. exact (Hgive eq_refl d Hd Hst).
Qed.

(** X17: when [_run] ends by itself (the shrink budget was not used up)
    on an INTERESTING [last_data], no byte of its buffer can be deleted:
    the buffer without that byte is not INTERESTING for the test function,
    or its interest key is not smaller. *)
Theorem result_is_deletion_minimal (s : Settings) (fuel : nat) (w' : World)
    (d : TestData) (i : nat) :
  0 <= max_shrinks s ->
  _run fuel (World_init s) = (Ok tt, w') ->
  last_data (self w') = Some d -> status d = INTERESTING ->
  (i < length (buffer d))%nat ->
  status (run_test (firstn i (buffer d) ++ skipn (i + 1) (buffer d)))
    <> INTERESTING \/
  ~ key_lt
      (interest_key
         (run_test (firstn i (buffer d) ++ skipn (i + 1) (buffer d))))
      (interest_key d).
Proof.
  intros Hmax Hrun Hd Hst Hi.
  destruct (@run_locally_minimal s fuel w' d Hmax Hrun Hd Hst) as [Hdel _].
  apply rejected_not_smaller; [exact Hst|]. apply Hdel. exact Hi.
Qed.

(** X18: when [_run] ends by itself (the shrink budget was not used up)
    on an INTERESTING [last_data], no byte of its buffer can be lowered:
    the buffer with a smaller value in the place of one byte is not
    INTERESTING for the test function, or its interest key is not
    smaller. *)
Theorem result_is_lowering_minimal (s : Settings) (fuel : nat) (w' : World)
    (d : TestData) (i : nat) (x v : byte) :
  0 <= max_shrinks s ->
  _run fuel (World_init s) = (Ok tt, w') ->
  last_data (self w') = Some d -> status d = INTERESTING ->
  nth_error (buffer d) i = Some x -> (byte_val v < byte_val x)%nat ->
  status (run_test (firstn i (buffer d) ++ [v] ++ skipn (i + 1) (buffer d)))
    <> INTERESTING \/
  ~ key_lt
      (interest_key
         (run_test (firstn i (buffer d) ++ [v] ++ skipn (i + 1) (buffer d))))
      (interest_key d).
Proof.
  intros Hmax Hrun Hd Hst Hx Hv.
  destruct (@run_locally_minimal s fuel w' d Hmax Hrun Hd Hst) as [_ Hlow].
  apply rejected_not_smaller; [exact Hst|].
  apply (Hlow i x v); [|exact Hx|exact Hv].
  apply nth_error_Some. congruence.
Qed.

(* ================================================================== *)
(** * The candidates of a run *)

(** [_run] after its first [new_buffer]. *)
Lemma _run_unfold (fuel : nat) (w : World) :
  _run fuel w =
  match new_buffer fuel w with
  | (Ok _, w1) =>
      (found <-
         (st <- while
            (fun _ : Z * Z * bool =>
               d <- get_last_data ;;
               ret (negb (status_eqb (status d) INTERESTING)))
            (fun st =>
               let '(mutations_, generation, _) := st in
               mx <- gets (fun r => mutations (settings r)) ;;
               if mx <=? mutations_ then
                 let generation := generation + 1 in
                 gx <- gets (fun r => generations (settings r)) ;;
                 if gx <=? generation
                 then ret (Break (mutations_, generation, true))
                 else
                   let mutations_ := 0 in
                   d <- get_last_data ;;
                   buf <- mutate_data_to_new_buffer d ;;
                   incorporate_new_buffer buf ;;
                   ret (Next (mutations_ + 1, generation, false))
               else
                 new_buffer ;;
                 ret (Next (mutations_ + 1, generation, false)))
            (0, 0, false) ;;
          ret (negb (snd st))) ;;
       if found then shrink else ret tt) fuel w1
  | (Raise e, w1) => (Raise e, w1)
  | (OutOfFuel, w1) => (OutOfFuel, w1)
  end.
Proof.
  unfold _run, generate. unfold bind at 1 2.
  destruct (new_buffer fuel w) as [[[]|e|] w1]; reflexivity.
Qed.

Lemma CandInv_new_buffer (w : World) :
  last_data (self w) = current (trace w) -> history (trace w) ->
  pwp new_buffer (fun _ => CandInv)
    (fun _ w' => last_data (self w') = current (trace w') /\
                 history (trace w') /\ trace w' = trace w)
    (fun _ => True) w.
Proof.
  intros Hc Hh fuel r w' Hr. rewrite new_buffer_eq in Hr. cbv zeta in Hr.
  destruct (fill_size (self w) <? 0).
  { inversion Hr; subst r w'. auto. }
  destruct (_ <? 0).
  { inversion Hr; subst r w'. cbn [self trace]. auto. }
  inversion Hr; subst r w'. unfold CandInv.
  cbn [self trace last_data with_fill_size with_last_data current installs].
  split; [eauto|]. split; [reflexivity|]. apply history_fresh. exact Hh.
Qed.

Lemma CandInv_incorporate (buf : bytes) :
  keeps CandInv (fun _ => CandInv) (incorporate_new_buffer buf).
Proof.
  intros w HI fuel r w' Hr.
  assert (H : CandInv w').
  { destruct HI as ((last & Hl) & Hc & Hh).
    rewrite (incorporate_new_buffer_eq buf fuel w Hl) in Hr.
    rewrite Hl in Hc. symmetry in Hc.
    destruct (bytes_eqb buf (buffer last)) eqn:Heq.
    { apply bytes_eqb_eq in Heq. inversion Hr; subst r w'.
      unfold CandInv. cbn [add_events self trace app current installs].
      split; [eauto|]. split; [congruence|].
      eapply history_dropped; eassumption. }
    assert (Hne : buf <> buffer last).
    { intros ->. rewrite bytes_eqb_refl in Heq. discriminate. }
    cbv zeta in Hr.
    assert (Hrej : transition_allowed last (run_test buf) <> Ok true ->
              CandInv
                (add_events
                   [EvConsider last (run_test buf); EvExecute (run_test buf);
                    EvPropose buf] w)).
    { intros Hno. unfold CandInv.
      cbn [add_events self trace app current installs].
      split; [eauto|]. split; [congruence|].
      eapply history_rejected; eassumption. }
    destruct (transition_allowed last (run_test buf)) as [[|]|e|] eqn:Hta.
    - assert (w' = {| self := accept_runner last (run_test buf) (self w);
                      rand_pos := rand_pos w;
                      trace := EvReplace last (run_test buf)
                               :: [EvConsider last (run_test buf);
                                   EvExecute (run_test buf); EvPropose buf]
                               ++ trace w |})
        by (destruct (_ <=? _); inversion Hr; reflexivity).
      subst w'. unfold CandInv.
      cbn [self trace app accept_runner last_data current installs].
      split; [eauto|]. split; [reflexivity|].
      eapply history_accepted; eassumption.
    - inversion Hr; subst r w'. apply Hrej. discriminate.
    - inversion Hr; subst r w'. apply Hrej. discriminate.
    - inversion Hr; subst r w'. apply Hrej. discriminate. }
  destruct r; exact H.
Qed.

Lemma CandInv_rest :
  keeps CandInv (fun _ => CandInv)
    (found <-
       (st <- while
          (fun _ : Z * Z * bool =>
             d <- get_last_data ;;
             ret (negb (status_eqb (status d) INTERESTING)))
          (fun st =>
             let '(mutations_, generation, _) := st in
             mx <- gets (fun r => mutations (settings r)) ;;
             if mx <=? mutations_ then
               let generation := generation + 1 in
               gx <- gets (fun r => generations (settings r)) ;;
               if gx <=? generation
               then ret (Break (mutations_, generation, true))
               else
                 let mutations_ := 0 in
                 d <- get_last_data ;;
                 buf <- mutate_data_to_new_buffer d ;;
                 incorporate_new_buffer buf ;;
                 ret (Next (mutations_ + 1, generation, false))
             else
               new_buffer ;;
               ret (Next (mutations_ + 1, generation, false)))
          (0, 0, false) ;;
        ret (negb (snd st))) ;;
     if found then shrink else ret tt).
Proof.
  assert (Hnew : keeps CandInv (fun _ => CandInv) new_buffer).
  { intros w (Hd & Hc & Hh) fuel r w' Hr.
    pose proof (@CandInv_new_buffer w Hc Hh fuel r w' Hr) as H.
    destruct r as [a|e|]; [exact H| |].
    - destruct H as (Hc' & Hh' & Ht). split; [|split; assumption].
      rewrite new_buffer_eq in Hr. cbv zeta in Hr.
      destruct (fill_size (self w) <? 0); [inversion Hr; subst; exact Hd|].
      destruct (_ <? 0); inversion Hr; subst. exact Hd.
    - rewrite new_buffer_eq in Hr. cbv zeta in Hr.
      destruct (fill_size (self w) <? 0); [discriminate|].
      destruct (_ <? 0); discriminate. }
  assert (Hrandom : forall w n, CandInv w ->
            CandInv {| self := self w; rand_pos := n; trace := trace w |})
    by (intros w n H; exact H).
  assert (Hsweep : forall w, CandInv w -> CandInv (add_events [EvSweep] w)).
  { intros w (Hd & Hc & Hh). split; [exact Hd|].
    split; [exact Hc|]. apply history_sweep. exact Hh. }
  apply keeps_bind.
  - keeps_auto ltac:(first [ apply CandInv_incorporate | exact Hnew
                           | exact Hrandom | solve [intros; assumption] ]).
  - intros [|]; [|apply keeps_ret].
    apply keeps_shrink;
      first [ intros buf; apply CandInv_incorporate | exact Hrandom
            | exact Hsweep | solve [intros; assumption] ].
Qed.

(** C1 (as amended): the trace of every run is a history: each new random
    candidate ([new_buffer]) is executed and becomes [last_data] without
    the acceptor being asked; each candidate of [incorporate_new_buffer]
    (the mutated candidates of the generation phase and the candidates of
    the shrink passes) is dropped unexecuted when it is the buffer of
    [last_data], and is otherwise executed and then submitted to the
    acceptor, becoming [last_data] exactly when the acceptor accepts it.
    So [last_data] is what the trace tells, and across a replacement
    through the acceptor the status does not decrease. *)
Theorem candidates_in_a_run (s : Settings) (fuel : nat) :
  let w := snd (run fuel (World_init s)) in
  history (trace w) /\
  last_data (self w) = current (trace w) /\
  (forall t2 t1 last data,
     trace w = t2 ++ EvReplace last data :: t1 ->
     current t1 = Some last /\
     transition_allowed last data = Ok true /\
     status_value (status last) <= status_value (status data)) /\
  (forall t2 t1 data,
     trace w = t2 ++ EvFresh data :: t1 ->
     exists t0, t1 = EvExecute data :: t0).
Proof.
  cbv zeta.
  pose proof (replacements_in_a_run s fuel) as [Hrep Hfresh].
  cbv zeta in Hrep, Hfresh.
  assert (Hh : history (trace (snd (run fuel (World_init s)))) /\
               last_data (self (snd (run fuel (World_init s)))) =
               current (trace (snd (run fuel (World_init s))))).
  { unfold run, except_StopShrinking. rewrite _run_unfold.
    destruct (new_buffer fuel (World_init s)) as [r1 w1] eqn:Hnew.
    pose proof (@CandInv_new_buffer (World_init s) eq_refl history_nil
                  fuel r1 w1 Hnew) as H1.
    destruct r1 as [[]|e|].
    - match goal with
      | |- context [?m fuel w1] =>
          destruct (m fuel w1) as [r2 w2] eqn:Hrest
      end.
      pose proof (@CandInv_rest w1 H1 fuel r2 w2 Hrest) as H2.
      assert (H : CandInv w2) by (destruct r2; exact H2).
      destruct H as (_ & Hc & Hh).
      destruct r2 as [a|[]|]; cbn [snd]; auto.
    - destruct H1 as (Hc & Hh & _). destruct e; cbn [snd]; auto.
    - rewrite new_buffer_eq in Hnew. cbv zeta in Hnew.
      destruct (fill_size (self (World_init s)) <? 0); [discriminate|].
      destruct (_ <? 0); discriminate. }
  destruct Hh as [Hh Hc].
  split; [exact Hh|]. split; [exact Hc|]. split; [|exact Hfresh].
  intros t2 t1 last data Ht.
  destruct (Hrep t2 t1 last data Ht) as (_ & H1 & H2 & H3). auto.
Qed.

(* ================================================================== *)
(** * The shrink budget *)





(* ================================================================== *)
(** * The default run of a test that is always INTERESTING *)

Lemma firstn_repeat (A : Type) (x : A) (n i : nat) :
  firstn i (repeat x n) = repeat x (Nat.min i n).
Proof.
  revert i. induction n as [|n IH]; intros [|i];
    cbn [repeat firstn Nat.min]; try reflexivity.
  f_equal. apply IH.
Qed.

Lemma skipn_repeat (A : Type) (x : A) (n i : nat) :
  skipn i (repeat x n) = repeat x (n - i).
Proof.
  revert i. induction n as [|n IH]; intros [|i];
    cbn [repeat skipn Nat.sub]; try reflexivity.
  apply IH.
Qed.

Lemma bytes_ltb_zeros (b : bytes) :
  bytes_ltb (repeat x00 (length b)) b =
  negb (bytes_eqb (repeat x00 (length b)) b).
Proof.
  induction b as [|x b IH]; cbn [length repeat bytes_ltb bytes_eqb];
    [reflexivity|].
  destruct (Byte.eqb x00 x) eqn:Hx; cbn [andb negb]; [exact IH|].
  apply Nat.ltb_lt.
  destruct (Nat.eq_dec (byte_val x) 0) as [H0|H0];
    [|change (byte_val x00) with 0%nat; lia].
  exfalso. assert (Heq : x00 = x) by (apply byte_val_inj; rewrite H0; reflexivity).
  apply byte_eqb_eq in Heq. congruence.
Qed.

Section DefaultRun.

Hypothesis always_interesting :
  forall b, ex_status (callback b) = INTERESTING.
Hypothesis no_intervals : forall b, ex_intervals (callback b) = [].
Hypothesis no_cost : forall b, ex_cost (callback b) = 0%nat.

(** The acceptor between two results of this callback. *)
Lemma always_transition (cur cand : bytes) :
  transition_allowed (run_test cur) (run_test cand) =
  if (length cand <=? length cur)%nat then
    Ok (if negb (length cand =? length cur)%nat
        then (length cand <? length cur)%nat
        else bytes_ltb cand cur)
  else Raise AssertionError.
Proof.
  unfold transition_allowed, status_ltb, status_eqb, interest_key, key_ltb,
    run_test.
  cbn [status buffer cost intervals].
  rewrite !always_interesting, !no_intervals, !no_cost.
  reflexivity.
Qed.

Lemma shorter_accepted (cur cand : bytes) :
  (length cand < length cur)%nat ->
  transition_allowed (run_test cur) (run_test cand) = Ok true.
Proof.
  intros H. rewrite always_transition.
  replace (length cand <=? length cur)%nat with true
    by (symmetry; apply Nat.leb_le; lia).
  replace (length cand =? length cur)%nat with false
    by (symmetry; apply Nat.eqb_neq; lia).
  cbn [negb]. f_equal. apply Nat.ltb_lt. exact H.
Qed.

Lemma incorporate_accepts (cur buf : bytes) (k : Z) (w : World) :
  at_buffer cur k w -> buf <> cur ->
  transition_allowed (run_test cur) (run_test buf) = Ok true ->
  twp (incorporate_new_buffer buf)
    (fun ok w' => ok = true /\ at_buffer buf (k + 1) w' /\ k + 1 < 2000)
    (fun e w' => e = StopShrinking /\ at_buffer buf (k + 1) w' /\
                 2000 <= k + 1) w.
Proof.
  intros (Hs & Hl & Hk & Hc) Hne Hta.
  pose proof (fun fuel => incorporate_new_buffer_eq buf fuel w Hl) as Heq.
  assert (Hb : bytes_eqb buf (buffer (run_test cur)) = false).
  { destruct (bytes_eqb buf (buffer (run_test cur))) eqn:Hb; [|reflexivity].
    apply bytes_eqb_eq in Hb. contradiction. }
  rewrite Hb in Heq. cbv zeta in Heq. rewrite Hta in Heq.
  assert (Hst : status_eqb (status (run_test cur)) INTERESTING = true).
  { apply status_eqb_eq. apply always_interesting. }
  assert (Hat : forall rp t,
            at_buffer buf (k + 1)
              {| self := accept_runner (run_test cur) (run_test buf) (self w);
                 rand_pos := rp; trace := t |}).
  { intros rp t. unfold at_buffer, accept_runner.
    cbn [self settings last_data shrinks changed]. rewrite Hst.
    repeat split; auto; lia. }
  assert (Hsh : shrinks (accept_runner (run_test cur) (run_test buf) (self w))
                = k + 1).
  { unfold accept_runner. cbn [shrinks]. rewrite Hst. lia. }
  assert (Hmx : max_shrinks
                  (settings (accept_runner (run_test cur) (run_test buf)
                               (self w))) = 2000).
  { unfold accept_runner. cbn [settings]. rewrite Hs. reflexivity. }
  rewrite Hsh, Hmx in Heq.
  exists 0%nat.
  destruct (Z.leb_spec 2000 (k + 1)) as [Hge|Hlt].
  - eexists (Raise StopShrinking), _. split; [intros; apply Heq|].
    split; [reflexivity|]. split; [apply Hat|exact Hge].
  - eexists (Ok true), _. split; [intros; apply Heq|].
    split; [reflexivity|]. split; [apply Hat|exact Hlt].
Qed.

Lemma incorporate_drops (E : exn -> World -> Prop) (cur : bytes) (k : Z)
    (w : World) :
  at_buffer cur k w ->
  twp (incorporate_new_buffer cur)
    (fun ok w' => ok = false /\ at_buffer cur k w') E w.
Proof.
  intros Hat. pose proof Hat as (Hs & Hl & Hk & Hc).
  pose proof (fun fuel => incorporate_new_buffer_eq cur fuel w Hl) as Heq.
  cbn [run_test buffer] in Heq. rewrite bytes_eqb_refl in Heq.
  exists 0%nat. eexists (Ok false), _. split; [intros; apply Heq|].
  split; [reflexivity|exact Hat].
Qed.

(** Without intervals the two interval passes do nothing. *)
Lemma delete_intervals_nothing (E : exn -> World -> Prop) (w : World)
    (d : TestData) :
  last_data (self w) = Some d -> intervals d = [] ->
  0 <= changed (self w) ->
  twp delete_intervals (fun _ w' => w' = w) E w.
Proof.
  intros Hl Hi Hc. unfold delete_intervals.
  eapply twp_seq with (Qm := fun (_ : Z) w' => w' = w);
    [|intros a w' ->; apply twp_ret; reflexivity].
  apply twp_while with
    (I := fun (icc : Z) w' =>
            w' = w /\ (icc = -1 \/ icc = changed (self w)))
    (mu := fun (icc : Z) (_ : World) =>
             (if icc <? changed (self w) then 1%nat else 0%nat, 0%nat)).
  { split; [reflexivity|left; reflexivity]. }
  intros icc w1 [-> Hicc].
  apply twp_bind, twp_gets. cbv beta. apply twp_ret.
  destruct (Z.ltb_spec icc (changed (self w))) as [Hlt|Hge]; [|reflexivity].
  apply twp_bind, twp_gets. cbv beta.
  eapply twp_seq with (Qm := fun (_ : nat) w' => w' = w).
  { apply twp_while with
      (I := fun (_ : nat) w' => w' = w)
      (mu := fun (_ : nat) (_ : World) => (0%nat, 0%nat)); [reflexivity|].
    intros i w2 ->.
    apply twp_bind. eapply twp_get_last_data; [exact Hl|].
    apply twp_ret. rewrite Hi. cbn [length].
    replace (i <? 0)%nat with false by (symmetry; apply Nat.ltb_ge; lia).
    reflexivity. }
  intros i w2 ->. apply twp_ret.
  split; [split; [reflexivity|right; reflexivity]|].
  rewrite Z.ltb_irrefl. apply left_slex. lia.
Qed.

Lemma sort_intervals_nothing (E : exn -> World -> Prop) (w : World)
    (d : TestData) :
  last_data (self w) = Some d -> intervals d = [] ->
  twp sort_intervals (fun _ w' => w' = w) E w.
Proof.
  intros Hl Hi. unfold sort_intervals.
  eapply twp_seq with (Qm := fun (_ : nat) w' => w' = w);
    [|intros a w' ->; apply twp_ret; reflexivity].
  apply twp_while with
    (I := fun (_ : nat) w' => w' = w)
    (mu := fun (_ : nat) (_ : World) => (0%nat, 0%nat)); [reflexivity|].
  intros i w2 ->.
  apply twp_bind. eapply twp_get_last_data; [exact Hl|].
  apply twp_ret. rewrite Hi. cbn [length].
  replace (i <? 0)%nat with false by (symmetry; apply Nat.ltb_ge; lia).
  reflexivity.
Qed.

Lemma length_first_random : length first_random = 8%nat.
Proof. unfold first_random. rewrite length_map, length_seq. reflexivity. Qed.

Lemma length_first_candidate :
  length first_candidate = (8 + Z.to_nat 8184)%nat.
Proof.
  unfold first_candidate.
  rewrite length_app, length_first_random, repeat_length. reflexivity.
Qed.

Lemma zeroing_shrinks_range : zeroing_shrinks = 0 \/ zeroing_shrinks = 1.
Proof.
  unfold zeroing_shrinks. destruct (bytes_eqb _ _); [left|right]; reflexivity.
Qed.

(** The windows of zeros in a buffer of zeros change nothing. *)
Lemma zero_window_of_zeros (n i : nat) :
  (i + 8 <= n)%nat ->
  firstn i (repeat x00 n) ++ repeat x00 8 ++ skipn (i + 8) (repeat x00 n) =
  repeat x00 n.
Proof.
  intros H. rewrite firstn_repeat, skipn_repeat, <- !repeat_app.
  f_equal. lia.
Qed.

(** The first window of zeros zeroes the random bytes. *)
Lemma zero_windows_default (E : exn -> World -> Prop) (w : World) :
  at_buffer first_candidate 0 w ->
  twp zero_windows
    (fun _ => at_buffer (repeat x00 (8 + Z.to_nat 8184)) zeroing_shrinks)
    (fun e w' => E e w') w.
Proof.
  intros Hat. pose proof Hat as (Hs & Hl & Hk & Hc).
  unfold zero_windows. cbv zeta.
  apply twp_bind. eapply twp_get_last_data; [exact Hl|].
  cbn [run_test buffer]. rewrite length_first_candidate.
  replace (8 + Z.to_nat 8184 - 8)%nat with (S (Z.to_nat 8183)) by lia.
  rewrite <- cons_seq. cbn [for_each].
  eapply twp_seq with
    (Qm := fun (_ : unit) =>
             at_buffer (repeat x00 (8 + Z.to_nat 8184)) zeroing_shrinks);
    [|intros a w' H; apply twp_ret; exact H].
  assert (Hrest : forall w1,
            at_buffer (repeat x00 (8 + Z.to_nat 8184)) zeroing_shrinks w1 ->
            twp (for_each (seq 1 (Z.to_nat 8183))
                   (fun (i : nat) (_ : unit) =>
                      d <- get_last_data ;;
                      (if (length (buffer d) <? i + 8)%nat
                       then ret (Break tt)
                       else
                         incorporate_new_buffer
                           (firstn i (buffer d) ++ repeat x00 8 ++
                            skipn (i + 8) (buffer d)) ;;
                         ret (Next tt))) tt)
              (fun (_ : unit) =>
                 at_buffer (repeat x00 (8 + Z.to_nat 8184)) zeroing_shrinks)
              E w1).
  { intros w1 H1.
    apply twp_for_each with
      (J := fun (_ : unit) =>
              at_buffer (repeat x00 (8 + Z.to_nat 8184)) zeroing_shrinks);
      [exact H1| |auto].
    intros i [] w2 Hin H2. apply in_seq in Hin.
    pose proof H2 as (_ & Hl2 & _).
    apply twp_bind. eapply twp_get_last_data; [exact Hl2|].
    cbn [run_test buffer]. rewrite repeat_length.
    replace (8 + Z.to_nat 8184 <? i + 8)%nat with false
      by (symmetry; apply Nat.ltb_ge; lia).
    rewrite zero_window_of_zeros by lia.
    eapply twp_seq; [apply incorporate_drops; exact H2|].
    intros ok w3 [_ H3]. apply twp_ret. exact H3. }
  apply twp_bind.
  apply twp_bind. eapply twp_get_last_data; [exact Hl|].
  cbn [run_test buffer]. rewrite length_first_candidate.
  replace (8 + Z.to_nat 8184 <? 0 + 8)%nat with false
    by (symmetry; apply Nat.ltb_ge; lia).
  assert (Hcand : firstn 0 first_candidate ++ repeat x00 8 ++
                  skipn (0 + 8) first_candidate
                  = repeat x00 (8 + Z.to_nat 8184)).
  { unfold first_candidate. cbn [firstn app Nat.add].
    rewrite skipn_app, length_first_random, Nat.sub_diag.
    rewrite skipn_all2 by (rewrite length_first_random; lia).
    cbn [skipn app]. rewrite <- repeat_app. reflexivity. }
  rewrite Hcand.
  unfold zeroing_shrinks in *.
  destruct (bytes_eqb first_random (repeat x00 8)) eqn:Hz.
  - (* the random bytes are zeros already *)
    apply bytes_eqb_eq in Hz.
    assert (Hfc : first_candidate = repeat x00 (8 + Z.to_nat 8184)).
    { unfold first_candidate. rewrite Hz, <- repeat_app. reflexivity. }
    rewrite Hfc in Hat.
    eapply twp_seq; [apply incorporate_drops; exact Hat|].
    intros ok w1 [_ H1]. apply twp_ret. apply Hrest. exact H1.
  - assert (Hne : repeat x00 (8 + Z.to_nat 8184) <> first_candidate).
    { intros Heq. unfold first_candidate in Heq.
      rewrite repeat_app in Heq. apply app_inv_tail in Heq.
      rewrite <- Heq, bytes_eqb_refl in Hz. discriminate. }
    apply twp_bind. eapply twp_conseq.
    + apply (@incorporate_accepts first_candidate _ 0 w Hat Hne).
      rewrite always_transition, repeat_length, length_first_candidate.
      rewrite Nat.leb_refl, Nat.eqb_refl. cbn [negb]. f_equal.
      rewrite <- length_first_candidate, bytes_ltb_zeros.
      destruct (bytes_eqb (repeat x00 (length first_candidate))
                          first_candidate) eqn:Hb; [|reflexivity].
      apply bytes_eqb_eq in Hb. rewrite length_first_candidate in Hb.
      contradiction.
    + intros ok w1 (_ & H1 & _). apply twp_ret. apply Hrest. exact H1.
    + intros e w' (_ & _ & Hbad). lia.
Qed.

(** The deletions of [reduce_bytes] are accepted one after the other, until
    the budget is used up. *)
Lemma reduce_bytes_default (w : World) :
  at_buffer (repeat x00 (8 + Z.to_nat 8184)) zeroing_shrinks w ->
  twp reduce_bytes (fun _ _ => False)
    (fun e w' => e = StopShrinking /\ at_buffer shrunk_default 2000 w') w.
Proof.
  intros Hat. pose proof zeroing_shrinks_range as Hz.
  unfold reduce_bytes.
  eapply twp_seq with (Qm := fun (_ : nat) (_ : World) => False);
    [|intros a w' []].
  apply twp_while with
    (I := fun (i : nat) w' =>
            at_buffer (repeat x00 (8 + Z.to_nat 8184 - i))
              (zeroing_shrinks + Z.of_nat i) w' /\
            zeroing_shrinks + Z.of_nat i < 2000)
    (mu := fun (i : nat) (_ : World) => ((2000 - i)%nat, 0%nat)).
  { rewrite Nat.sub_0_r. change (Z.of_nat 0) with 0. rewrite Z.add_0_r.
    split; [exact Hat|lia]. }
  intros i w1 [H1 Hlt]. pose proof H1 as (_ & Hl1 & _).
  apply twp_bind. eapply twp_get_last_data; [exact Hl1|].
  apply twp_ret. cbn [run_test buffer]. rewrite repeat_length.
  replace (i <? 8 + Z.to_nat 8184 - i)%nat with true
    by (symmetry; apply Nat.ltb_lt; lia).
  apply twp_bind. eapply twp_get_last_data; [exact Hl1|].
  cbv zeta. cbn [run_test buffer].
  rewrite firstn_repeat, skipn_repeat, <- repeat_app.
  replace (Nat.min i (8 + Z.to_nat 8184 - i) +
           (8 + Z.to_nat 8184 - i - (i + 1)))%nat
    with (8 + Z.to_nat 8184 - (i + 1))%nat by lia.
  apply twp_bind. eapply twp_conseq.
  - apply (@incorporate_accepts (repeat x00 (8 + Z.to_nat 8184 - i))
             (repeat x00 (8 + Z.to_nat 8184 - (i + 1))) _ w1 H1).
    + intros Heq. apply (f_equal (@length byte)) in Heq.
      rewrite !repeat_length in Heq. lia.
    + apply shorter_accepted. rewrite !repeat_length. lia.
  - intros ok w2 (-> & H2 & Hlt2). apply twp_bind, twp_ret. apply twp_ret.
    split; [split|].
    + replace (zeroing_shrinks + Z.of_nat (i + 1))
        with (zeroing_shrinks + Z.of_nat i + 1) by lia.
      exact H2.
    + lia.
    + apply left_slex. lia.
  - intros e w2 (-> & H2 & Hge). split; [reflexivity|].
    unfold shrunk_default.
    replace (Z.to_nat (6192 + zeroing_shrinks))
      with (8 + Z.to_nat 8184 - (i + 1))%nat by lia.
    replace 2000 with (zeroing_shrinks + Z.of_nat i + 1) by lia.
    exact H2.
Qed.

(** The first sweep does not come back: it ends in [reduce_bytes]. *)
Lemma sweep_default (w : World) :
  at_buffer first_candidate 0 w ->
  twp sweep (fun _ _ => False)
    (fun e w' => e = StopShrinking /\ at_buffer shrunk_default 2000 w') w.
Proof.
  intros Hat. unfold sweep.
  apply twp_bind, twp_emit.
  assert (Hat1 : at_buffer first_candidate 0 (add_events [EvSweep] w))
    by exact Hat.
  pose proof Hat1 as (_ & Hl & _ & Hc).
  apply twp_bind. eapply twp_get_last_data; [exact Hl|].
  replace (status_eqb (status (run_test first_candidate)) INTERESTING)
    with true by (symmetry; apply status_eqb_eq; apply always_interesting).
  apply twp_bind, twp_ret. apply twp_bind, twp_gets.
  eapply twp_seq.
  { eapply delete_intervals_nothing;
      [exact Hl|apply no_intervals|rewrite Hc; lia]. }
  intros u1 w1 ->.
  eapply twp_seq.
  { eapply sort_intervals_nothing; [exact Hl|apply no_intervals]. }
  intros u2 w2 ->.
  eapply twp_seq.
  { apply zero_windows_default. exact Hat1. }
  intros u3 w3 H3. cbv beta in H3.
  apply twp_bind.
  eapply twp_conseq; [apply reduce_bytes_default; exact H3|intros ? ? []|auto].
Qed.

Lemma shrink_default (w : World) :
  at_buffer first_candidate 0 w ->
  twp shrink (fun _ _ => False)
    (fun e w' => e = StopShrinking /\ at_buffer shrunk_default 2000 w') w.
Proof.
  intros Hat. pose proof Hat as (Hs & _ & _ & Hc). unfold shrink.
  apply twp_bind, twp_gets.
  eapply twp_seq with (Qm := fun (_ : Z) (_ : World) => False);
    [|intros a w' []].
  apply twp_while with
    (I := fun (cc : Z) w' => cc = -1 /\ at_buffer first_candidate 0 w')
    (mu := fun (_ : Z) (_ : World) => (0%nat, 0%nat)).
  { split; [reflexivity|exact Hat]. }
  intros cc w1 [-> H1]. pose proof H1 as (Hs1 & _ & _ & Hc1).
  apply twp_bind, twp_gets. apply twp_bind, twp_gets. apply twp_ret.
  rewrite Hc, Hc1, Hs1.
  change ((0 <=? 0 + max_shrinks default_settings) && (-1 <? 0)) with true.
  cbv iota.
  eapply twp_conseq; [apply sweep_default; exact H1|intros ? ? []|auto].
Qed.

(** The first candidate: eight random bytes and zeros up to
    [buffer_size]. *)
Lemma generate_first_candidate :
  exists w1,
    (forall fuel, (1 <= fuel)%nat ->
       generate fuel (World_init default_settings) = (Ok true, w1)) /\
    trace w1 = [EvFresh (run_test first_candidate);
                EvExecute (run_test first_candidate)] /\
    at_buffer first_candidate 0 w1.
Proof.
  eexists. split; [|split].
  - intros fuel Hf. destruct fuel as [|fuel]; [lia|].
    unfold generate, bind. rewrite new_buffer_eq. cbv zeta.
    change (fill_size (self (World_init default_settings)) <? 0) with false.
    change (buffer_size (settings (self (World_init default_settings))) -
            fill_size (self (World_init default_settings)) <? 0) with false.
    cbv iota.
    change (map (fun k => byte_of_mod (tape (rand_pos (World_init default_settings) + k)))
              (seq 0 (Z.to_nat (fill_size (self (World_init default_settings))))) ++
            repeat x00
              (Z.to_nat
                 (buffer_size (settings (self (World_init default_settings))) -
                  fill_size (self (World_init default_settings)))))
      with first_candidate.
    unfold while. cbn [iterate].
    unfold get_last_data, bind, gets, ret.
    cbn [self last_data with_fill_size with_last_data].
    unfold run_test at 1. cbn [status].
    rewrite always_interesting.
    change (status_eqb INTERESTING INTERESTING) with true.
    cbn [negb snd]. reflexivity.
  - reflexivity.
  - repeat split.
Qed.

(** The whole search: [_run] ends with [StopShrinking] on a buffer of
    zeros. *)
Lemma default_run_exact :
  exists n w',
    (forall fuel, (n <= fuel)%nat ->
       _run fuel (World_init default_settings) = (Raise StopShrinking, w')) /\
    at_buffer shrunk_default 2000 w'.
Proof.
  destruct generate_first_candidate as (w1 & Hgen & _ & Hat).
  destruct (shrink_default Hat) as (n & r & w' & Hrun & Hpost).
  destruct r as [a|e|]; [destruct Hpost| |destruct Hpost].
  destruct Hpost as [-> Hat'].
  exists (Nat.max 1 n), w'. split; [|exact Hat'].
  intros fuel Hf. unfold _run, bind. rewrite Hgen by lia. apply Hrun. lia.
Qed.

End DefaultRun.

(** C8 (as amended): under a callback that makes every execution
    INTERESTING and records no intervals, run with the default settings, the
    first candidate is INTERESTING: it is [first_candidate], eight random
    bytes followed by 8184 zeros.  At most 2000 shrinks are accepted and
    [find_interesting_buffer] returns a buffer of at least 6192 bytes.  When
    the callback incurs no cost either, exactly 2000 shrinks are accepted
    and the buffer returned is [shrunk_default]: 6193 zero bytes, or 6192
    of them when the eight random bytes were zeros already. *)
Theorem always_interesting_default_result :
  (forall b, ex_status (callback b) = INTERESTING) ->
  (forall b, ex_intervals (callback b) = []) ->
  exists n, forall fuel, (n <= fuel)%nat ->
    exists w1 buf,
      generate fuel (World_init default_settings) = (Ok true, w1) /\
      trace w1 = [EvFresh (run_test first_candidate);
                  EvExecute (run_test first_candidate)] /\
      status (run_test first_candidate) = INTERESTING /\
      Z.of_nat (length first_candidate) = 8192 /\
      find_interesting_buffer default_settings fuel = Ok (Some buf) /\
      count_shrinks (trace (snd (run fuel (World_init default_settings))))
        <= 2000 /\
      6192 <= Z.of_nat (length buf) /\
      ((forall b, ex_cost (callback b) = 0%nat) ->
       buf = shrunk_default /\
       count_shrinks (trace (snd (run fuel (World_init default_settings))))
         = 2000).
Proof.
  intros Hi Hn.
  destruct (always_interesting_run Hi Hn)
    as (n1 & w1 & d & w' & d' & Hrun & Htr & Hs & Hlen & Hl' & Hs' & Hlen').
  destruct (generate_first_candidate Hi) as (w1' & Hgen & Htr' & _).
  exists (Nat.max 1 n1). intros fuel Hf.
  destruct (Hrun fuel) as [Hg Hr]; [lia|].
  assert (Hw : w1' = w1).
  { pose proof (Hgen fuel) as H. rewrite Hg in H.
    assert (H1 : (1 <= fuel)%nat) by lia.
    specialize (H H1). congruence. }
  subst w1'.
  exists w1, (buffer d').
  split; [exact Hg|]. split; [exact Htr'|]. split; [apply Hi|].
  split; [rewrite length_first_candidate; lia|].
  split; [unfold find_interesting_buffer; rewrite Hr, Hl', Hs'; reflexivity|].
  assert (Hmax : 1 <= max_shrinks default_settings) by (cbn; lia).
  pose proof (shrink_budget_when_stopped default_settings fuel Hmax) as Hb.
  cbv zeta in Hb. destruct Hb as (Hle & Hcount & _).
  split; [exact Hle|]. split; [exact Hlen'|].
  intros Hc.
  destruct (default_run_exact Hi Hn Hc) as (n2 & w2 & Hrun2 & Hat).
  pose proof (Hrun2 (Nat.max fuel n2) (Nat.le_max_r _ _)) as H2.
  destruct (Hrun (Nat.max fuel n2)) as [_ Hr2]; [lia|].
  unfold run, except_StopShrinking in Hr2. rewrite H2 in Hr2.
  assert (Hw : w2 = w') by congruence. subst w2.
  destruct Hat as (_ & Hl2 & Hk2 & _).
  assert (Hd : d' = run_test shrunk_default) by congruence. subst d'.
  split; [reflexivity|].
  rewrite <- Hcount, Hr. exact Hk2.
Qed.


End Engine.

(* ================================================================== *)
(** * The statements at concrete inputs *)

Lemma always_true_intervals_ordered :
  forall b u v, In (u, v) (ex_intervals (always_true b)) -> (u <= v)%nat.
Proof. intros b u v H. destruct H. Defined.

(** C2 at two INTERESTING buffers. *)
Lemma acceptor_follows_table_witness :
  table_precondition (data_of INTERESTING [x01; x02])
                     (data_of INTERESTING [x01]) /\
  exists accept,
    transition_allowed (data_of INTERESTING [x01; x02])
                       (data_of INTERESTING [x01]) = Ok accept /\
    table_verdict (data_of INTERESTING [x01; x02])
                  (data_of INTERESTING [x01]) accept.
Proof.
  split.
  - intros _ _. simpl. lia.
  - apply (acceptor_follows_table always_true ones_tape).
    intros _ _. simpl. lia.
Defined.

(** C10 at a one-byte buffer. *)
Lemma incorporate_same_buffer_rejected_witness :
  incorporate_new_buffer always_true [x01] 0%nat
    (shrinking_world default_settings [x01]) =
  (Ok false,
   {| self := self (shrinking_world default_settings [x01]);
      rand_pos := 0%nat;
      trace := [EvPropose [x01]] |}).
Proof.
  apply (@incorporate_same_buffer_rejected always_true [x01] 0%nat
           (shrinking_world default_settings [x01])
           (data_of INTERESTING [x01])); reflexivity.
Defined.

(** C1 as stated fails: with [buffer_size = 1] and an odd-rejecting test,
    the second random candidate replaces a VALID [last_data] by an INVALID
    one, and the acceptor is not asked. *)
Lemma new_buffer_bypasses_acceptor :
  ~ acceptor_gated
      (trace (snd (run rejects_odd counting_tape 10%nat
                     (World_init one_byte_settings)))) /\
  ~ status_monotone
      (trace (snd (run rejects_odd counting_tape 10%nat
                     (World_init one_byte_settings)))).
Proof.
  split; intros H; red in H;
    set (t := trace (snd (run rejects_odd counting_tape 10%nat
                            (World_init one_byte_settings)))) in H;
    vm_compute in t; subst t.
  - destruct (H [] _ _ _ eq_refl eq_refl) as (last & t0 & Heq & _).
    discriminate Heq.
  - specialize (H [] _ _ _ _ eq_refl eq_refl eq_refl).
    vm_compute in H. apply H. reflexivity.
Qed.



(** C4 for the always-true property. *)
Lemma acceptor_assertion_never_fails_witness :
  let rw := run always_true ones_tape 10%nat (World_init one_byte_settings) in
  fst rw <> Raise AssertionError /\
  forall last data,
    In (EvConsider last data) (trace (snd rw)) ->
    status last = INTERESTING -> status data = INTERESTING ->
    (length (buffer data) <= length (buffer last))%nat.
Proof.
  apply (@acceptor_assertion_never_fails always_true ones_tape
           always_true_intervals_ordered one_byte_settings 10%nat).
Defined.

(** C5 at the one shrink of a one-byte buffer. *)
Lemma interesting_only_shrinks_witness :
  current [EvFresh (data_of INTERESTING [x01]);
           EvExecute (data_of INTERESTING [x01])] =
    Some (data_of INTERESTING [x01]) /\
  status (data_of INTERESTING [x01]) = INTERESTING /\
  current
    ([EvConsider (data_of INTERESTING [x01]) (data_of INTERESTING []);
      EvExecute (data_of INTERESTING []); EvPropose []; EvSweep] ++
     [EvFresh (data_of INTERESTING [x01]);
      EvExecute (data_of INTERESTING [x01])]) =
    Some (data_of INTERESTING [x01]) /\
  status (data_of INTERESTING [x01]) = INTERESTING /\
  status (data_of INTERESTING []) = INTERESTING /\
  strictly_better (data_of INTERESTING []) (data_of INTERESTING [x01]).
Proof.
  split; [reflexivity|]. split; [reflexivity|].
  apply (@interesting_only_shrinks always_true ones_tape one_shrink_settings
           10%nat []
           [EvConsider (data_of INTERESTING [x01]) (data_of INTERESTING []);
            EvExecute (data_of INTERESTING []); EvPropose []; EvSweep]
           [EvFresh (data_of INTERESTING [x01]);
            EvExecute (data_of INTERESTING [x01])]
           (EvReplace (data_of INTERESTING [x01]) (data_of INTERESTING []))
           (data_of INTERESTING [x01])).
  - vm_compute. reflexivity.
  - reflexivity.
  - reflexivity.
Defined.

(** C6 for the always-true property on a one-byte buffer. *)
Lemma shrink_phase_terminates_witness :
  well_founded interest_lt /\
  exists n r w',
    (forall fuel, (n <= fuel)%nat ->
       shrink always_true ones_tape fuel
         (shrinking_world one_byte_settings [x01]) = (r, w')) /\
    (exists t,
       trace w' = t ++ trace (shrinking_world one_byte_settings [x01]) /\
       replacements_decrease t) /\
    ((r = Ok tt /\
      (last_sweep_quiet (trace w') \/ max_shrinks (settings (self w')) < 0)) \/
     (r = Raise StopShrinking /\
      max_shrinks (settings (self w')) <= shrinks (self w'))).
Proof.
  apply (@shrink_phase_terminates always_true ones_tape
           always_true_intervals_ordered
           (shrinking_world one_byte_settings [x01]) [x01]).
  - reflexivity.
  - reflexivity.
  - reflexivity.
  - simpl. lia.
Defined.

(** C8 as stated fails: with the default settings the always-true property
    is never shrunk to the empty buffer. *)
Lemma default_run_never_empty :
  ~ exists fuel,
      find_interesting_buffer always_true ones_tape default_settings fuel =
      Ok (Some []).
Proof.
  intros [fuel H].
  destruct (@always_interesting_run always_true ones_tape
              (fun _ => eq_refl) (fun _ => eq_refl))
    as (n & w1 & d & w' & d' & Hrun & _ & _ & _ & Hl' & Hs' & Hlen').
  destruct (Hrun (Nat.max fuel n) (Nat.le_max_r fuel n)) as [_ Hr].
  unfold find_interesting_buffer in H.
  destruct (run always_true ones_tape fuel (World_init default_settings))
    as [r w] eqn:Hf.
  destruct r as [u|e|]; try discriminate H.
  pose proof (@mono_run always_true ones_tape fuel (Nat.max fuel n) _ _ _
                (Nat.le_max_l fuel n) Hf) as Hm.
  rewrite Hr in Hm.
  assert (Hne : Ok u <> @OutOfFuel unit) by discriminate.
  specialize (Hm Hne). inversion Hm; subst w.
  rewrite Hl', Hs' in H. simpl in H. inversion H as [Hb].
  rewrite Hb in Hlen'. simpl in Hlen'. lia.
Qed.

(** C8 (as amended) for the always-true property, which records no
    intervals and incurs no cost: the eight random bytes are not zeros, so
    one shrink zeroes them and 1999 shrinks delete a byte each. *)
Lemma always_interesting_default_result_witness :
  exists n, forall fuel, (n <= fuel)%nat ->
    find_interesting_buffer always_true ones_tape default_settings fuel =
      Ok (Some (repeat x00 (Z.to_nat 6193))) /\
    count_shrinks
      (trace (snd (run always_true ones_tape fuel
                     (World_init default_settings)))) = 2000.
Proof.
  destruct (@always_interesting_default_result always_true ones_tape
              (fun _ => eq_refl) (fun _ => eq_refl)) as [n H].
  exists n. intros fuel Hf.
  destruct (H fuel Hf) as (w1 & buf & _ & _ & _ & _ & Hfind & _ & _ & Hexact).
  destruct (Hexact (fun _ => eq_refl)) as [Hbuf Hcount].
  rewrite Hbuf in Hfind. split; [exact Hfind|exact Hcount].
Defined.

(** C7 fails on the code: the mutator on an OVERRUN [TestData] with two
    consumed bytes drops the perturbed bytearray and returns the splice of
    the other branch, here with a byte above its original value, which no
    per-byte perturbation produces. *)
Lemma overrun_mutation_is_a_splice :
  status overrun_data = OVERRUN /\
  2 <= Z.min (Z.of_nat (length (buffer overrun_data)))
             (Z.of_nat (index overrun_data)) /\
  fst (mutate_data_to_new_buffer splice_tape overrun_data 1%nat
         (World_init default_settings)) = Ok [xff; x01] /\
  ~ perturbed (buffer overrun_data) [xff; x01].
Proof.
  split; [reflexivity|]. split; [simpl; lia|]. split; [vm_compute; reflexivity|].
  intros H. inversion H as [|c o l l' Hle Hrest]; subst.
  vm_compute in Hle. lia.
Qed.

(** C9 fails on the code: in the zero-window pass on a buffer of exactly
    eight bytes the window [buffer[0:8]] lies within the buffer and its
    zeroing would be accepted, yet nothing is proposed. *)
Lemma zero_windows_misses_last_window :
  (0 + 8 <= length (repeat x01 8))%nat /\
  transition_allowed (data_of INTERESTING (repeat x01 8))
    (run_test always_true (repeat x00 8)) = Ok true /\
  zero_windows always_true 1%nat
    (shrinking_world default_settings (repeat x01 8)) =
  (Ok tt, shrinking_world default_settings (repeat x01 8)).
Proof.
  split; [simpl; lia|]. split; vm_compute; reflexivity.
Qed.

(* ================================================================== *)
(** * Further statements at concrete inputs *)

(** X3 at two VALID results. *)
Lemma acceptor_both_ways_witness :
  status (data_of VALID [x01]) = status (data_of VALID [x02]) /\
  status (data_of VALID [x01]) <> INTERESTING /\
  (status (data_of VALID [x01]) <> VALID ->
   index (data_of VALID [x01]) = index (data_of VALID [x02])).
Proof. apply acceptor_both_ways; reflexivity. Defined.

(** X4 at the deletion of the one byte of an INTERESTING buffer. *)
Lemma incorporate_outcomes_witness :
  let w := shrinking_world one_byte_settings [x01] in
  let rw := incorporate_new_buffer always_true [] 0%nat w in
  (fst rw = Ok false -> self (snd rw) = self w) /\
  (fst rw = Ok true \/ fst rw = Raise StopShrinking ->
   last_data (self (snd rw)) = Some (run_test always_true []) /\
   changed (self (snd rw)) = changed (self w) + 1) /\
  (fst rw = Ok true ->
   shrinks (self (snd rw)) < max_shrinks (settings (self (snd rw)))) /\
  (fst rw = Raise StopShrinking ->
   max_shrinks (settings (self (snd rw))) <= shrinks (self (snd rw))).
Proof.
  intros w rw.
  apply (@incorporate_outcomes always_true [] 0%nat w (fst rw) (snd rw)).
  reflexivity.
Defined.

(** X5 for the always-true property, whose search ends on the empty
    buffer. *)
Lemma find_interesting_buffer_sound_witness :
  ex_status (always_true []) = INTERESTING.
Proof.
  apply (@find_interesting_buffer_sound always_true ones_tape
           one_byte_settings 10%nat []).
  reflexivity.
Defined.

(** X6 at the last random buffer of a one-byte search. *)
Lemma new_buffer_has_buffer_size_witness :
  Z.of_nat (length (buffer (run_test rejects_odd [x05]))) =
  buffer_size one_byte_settings.
Proof.
  apply (new_buffer_has_buffer_size rejects_odd counting_tape
           one_byte_settings 10%nat).
  vm_compute. left. reflexivity.
Defined.

(** X9 at [buffer_size = -1]. *)
Lemma negative_buffer_size_raises_witness :
  run always_true ones_tape 10%nat (World_init negative_size_settings) =
    (Raise ValueError, World_init negative_size_settings) /\
  find_interesting_buffer always_true ones_tape negative_size_settings
    10%nat = Raise ValueError.
Proof. apply negative_buffer_size_raises. simpl. lia. Defined.

(** X10 for the always-true property: the search ends on the empty
    buffer, below the one-byte buffer it found first. *)
Lemma final_no_worse_than_first_witness :
  exists d,
    last_data (self (snd (run always_true ones_tape 10%nat
                            (World_init one_byte_settings)))) = Some d /\
    status d = INTERESTING /\
    (length (buffer d) <= length (buffer (data_of INTERESTING [x01])))%nat /\
    (d = data_of INTERESTING [x01] \/
     key_lt (interest_key d) (interest_key (data_of INTERESTING [x01]))).
Proof.
  apply (@final_no_worse_than_first always_true ones_tape one_byte_settings
           10%nat
           (firstn 6 (trace (snd (run always_true ones_tape 10%nat
                                    (World_init one_byte_settings)))))
           (skipn 6 (trace (snd (run always_true ones_tape 10%nat
                                   (World_init one_byte_settings)))))
           (data_of INTERESTING [x01])); reflexivity.
Defined.

(** X11 at an OVERRUN result of two bytes. *)
Lemma mutate_leaves_runner_alone_witness :
  let w := World_init default_settings in
  let rw := mutate_data_to_new_buffer ones_tape overrun_data 10%nat w in
  self (snd rw) = self w /\ trace (snd rw) = trace w /\
  fst rw <> Raise StopShrinking /\ fst rw <> Raise AssertionError.
Proof.
  intros w rw.
  apply (@mutate_leaves_runner_alone ones_tape overrun_data 10%nat w
           (fst rw) (snd rw)).
  reflexivity.
Defined.

(** X13 at an OVERRUN result of two bytes without intervals. *)
Lemma mutate_few_intervals_total_witness :
  exists n buf w',
    (forall fuel, (n <= fuel)%nat ->
       mutate_data_to_new_buffer ones_tape overrun_data fuel
         (World_init default_settings) = (Ok buf, w')) /\
    self w' = self (World_init default_settings) /\
    trace w' = trace (World_init default_settings) /\
    length buf =
      if (Nat.min (length (buffer overrun_data)) (index overrun_data)
          <=? 1)%nat
      then Nat.min (length (buffer overrun_data)) (index overrun_data)
      else length (buffer overrun_data).
Proof. apply mutate_few_intervals_total. simpl. lia. Defined.

(** X14 at a result that lists the interval [(0, 1)] twice. *)
Lemma mutate_equal_intervals_never_returns_witness :
  fst (mutate_data_to_new_buffer high_tape equal_intervals_data 50%nat
         (World_init default_settings)) = OutOfFuel.
Proof.
  apply mutate_equal_intervals_never_returns.
  - simpl. lia.
  - discriminate.
  - simpl. lia.
  - intros a b [<-|[<-|[]]] [<-|[<-|[]]]; reflexivity.
  - vm_compute. lia.
Defined.

(** X15 at a one-byte search of five mutations and one generation, which
    uses the budget up. *)
Lemma fruitless_search_budget_witness :
  count_executed
    (trace (snd (run rejects_odd counting_tape 10%nat
                   (World_init one_byte_settings)))) <=
  1 + generations one_byte_settings * mutations one_byte_settings.
Proof.
  apply fruitless_search_budget; [simpl; lia|simpl; lia|reflexivity].
Defined.


(** X17 at the result [b'\x02'] of a one-byte search: the empty buffer is
    not INTERESTING. *)
Lemma result_is_deletion_minimal_witness :
  status (run_test rejects_small
            (firstn 0 (buffer (run_test rejects_small [x02])) ++
             skipn (0 + 1) (buffer (run_test rejects_small [x02]))))
    <> INTERESTING \/
  ~ key_lt
      (interest_key
         (run_test rejects_small
            (firstn 0 (buffer (run_test rejects_small [x02])) ++
             skipn (0 + 1) (buffer (run_test rejects_small [x02])))))
      (interest_key (run_test rejects_small [x02])).
Proof.
  apply (@result_is_deletion_minimal rejects_small counting_tape
           one_byte_settings 10%nat
           (snd (_run rejects_small counting_tape 10%nat
                   (World_init one_byte_settings)))
           (run_test rejects_small [x02]) 0%nat).
  - simpl. lia.
  - vm_compute. reflexivity.
  - vm_compute. reflexivity.
  - reflexivity.
  - simpl. lia.
Defined.

(** X18 at the result [b'\x02'] of a one-byte search: [b'\x01'] is not
    INTERESTING. *)
Lemma result_is_lowering_minimal_witness :
  status (run_test rejects_small
            (firstn 0 (buffer (run_test rejects_small [x02])) ++ [x01] ++
             skipn (0 + 1) (buffer (run_test rejects_small [x02]))))
    <> INTERESTING \/
  ~ key_lt
      (interest_key
         (run_test rejects_small
            (firstn 0 (buffer (run_test rejects_small [x02])) ++ [x01] ++
             skipn (0 + 1) (buffer (run_test rejects_small [x02])))))
      (interest_key (run_test rejects_small [x02])).
Proof.
  apply (@result_is_lowering_minimal rejects_small counting_tape
           one_byte_settings 10%nat
           (snd (_run rejects_small counting_tape 10%nat
                   (World_init one_byte_settings)))
           (run_test rejects_small [x02]) 0%nat x02 x01).
  - simpl. lia.
  - vm_compute. reflexivity.
  - vm_compute. reflexivity.
  - reflexivity.
  - reflexivity.
  - vm_compute. lia.
Defined.
